(** * investment-good-sleep-line: the statistical distribution engine

    A shallow embedding of [src/utils/normalDistribution.ts] (the lognormal
    revision), of its earlier normal-approximation revision, of the settings
    validation and of the worst-case computation of the two distribution
    pages, followed by the properties proved about them.

    Numbers.  A JavaScript [number] is modelled by a real number of the
    Standard Library: [+ - * /] are the field operations, [Math.abs] is
    [Rabs], [Math.max] is [Rmax], [Math.exp] is [exp], [Math.log] is [ln],
    [Math.sqrt] is [sqrt] and [Math.PI] is [PI].  The model is the exact
    arithmetic that the IEEE doubles of the source approximate: rounding,
    overflow, [NaN] and the infinities are not represented, and [ln], [sqrt]
    and [/] are only meaningful where JavaScript returns a finite number
    (positive argument, non-negative argument, non-zero divisor).  An
    exception ([throw new Error (msg)]) is the [Throw] constructor of
    [result]. *)

From Stdlib Require Import Reals Lra Lia ZArith List.
From Stdlib Require String.
Import ListNotations String.StringSyntax.
Open Scope R_scope.
Open Scope string_scope.

(** ** Results of code that may throw *)

Inductive result (A : Type) : Type :=
| Return (a : A)
| Throw (msg : String.string).
Arguments Return {A} a.
Arguments Throw {A} msg.

Definition bind {A B : Type} (m : result A) (k : A -> result B) : result B :=
  match m with
  | Return a => k a
  | Throw msg => Throw msg
  end.

Notation "'let*' x ':=' m 'in' k" := (bind m (fun x => k))
  (at level 10, x name, m at level 100, k at level 200).

(** ** The special-function core (identical in both revisions) *)

Module NormalDistribution.

(** [function erf (x)]: Abramowitz and Stegun 7.1.26. *)
Definition erf_a1 : R := 0.254829592.
Definition erf_a2 : R := -0.284496736.
Definition erf_a3 : R := 1.421413741.
Definition erf_a4 : R := -1.453152027.
Definition erf_a5 : R := 1.061405429.
Definition erf_p : R := 0.3275911.

Definition erf (x : R) : R :=
  let sign := if Rge_dec x 0 then 1 else -1 in
  let x := Rabs x in
  let t := 1.0 / (1.0 + erf_p * x) in
  let y := 1.0 - (((((erf_a5 * t + erf_a4) * t) + erf_a3) * t + erf_a2) * t + erf_a1)
                 * t * exp (- x * x) in
  sign * y.

Definition normalCDF (x : R) : R :=
  0.5 * (1 + erf (x / sqrt 2)).

Definition normalPDF (x : R) : R :=
  exp (-0.5 * x * x) / sqrt (2 * PI).

Definition normalPDFGeneral (x mean stdDev : R) : R :=
  let z := (x - mean) / stdDev in
  normalPDF z / stdDev.

Definition normalCDFGeneral (x mean stdDev : R) : R :=
  let z := (x - mean) / stdDev in
  normalCDF z.

(** [normalInverseCDF]: Beasley-Springer-Moro. *)
Definition invalid_probability : String.string :=
  "Probability must be between 0 and 1".

Definition bsm_a0 : R := 2.50662823884.
Definition bsm_a1 : R := -18.61500062529.
Definition bsm_a2 : R := 41.39119773534.
Definition bsm_a3 : R := -25.44106049637.
Definition bsm_b0 : R := -8.47351093090.
Definition bsm_b1 : R := 23.08336743743.
Definition bsm_b2 : R := -21.06224101826.
Definition bsm_b3 : R := 3.13082909833.
Definition bsm_c0 : R := 0.3374754822726147.
Definition bsm_c1 : R := 0.9761690190917186.
Definition bsm_c2 : R := 0.1607979714918209.
Definition bsm_c3 : R := 0.0276438810333863.
Definition bsm_c4 : R := 0.0038405729373609.
Definition bsm_c5 : R := 0.0003951896511919.
Definition bsm_c6 : R := 0.0000321767881768.
Definition bsm_c7 : R := 0.0000002888167364.
Definition bsm_c8 : R := 0.0000003960315187.

(** The branch [Math.abs(y) < 0.42] of the source. *)
Definition bsm_central (y : R) : R :=
  let r := y * y in
  y * (((bsm_a3 * r + bsm_a2) * r + bsm_a1) * r + bsm_a0) /
      ((((bsm_b3 * r + bsm_b2) * r + bsm_b1) * r + bsm_b0) * r + 1).

(** The [else] branch of the source. *)
Definition bsm_tail (p y : R) : R :=
  let r := p in
  let r := if Rgt_dec y 0 then 1 - p else r in
  let r := ln (- ln r) in
  let x := bsm_c0 + r * (bsm_c1 + r * (bsm_c2 + r * (bsm_c3 + r * (bsm_c4 + r *
             (bsm_c5 + r * (bsm_c6 + r * (bsm_c7 + r * bsm_c8))))))) in
  if Rlt_dec y 0 then - x else x.

Definition normalInverseCDF (p : R) : result R :=
  if Rle_dec p 0 then Throw invalid_probability
  else if Rge_dec p 1 then Throw invalid_probability
  else
    let y := p - 0.5 in
    if Rlt_dec (Rabs y) 0.42 then Return (bsm_central y)
    else Return (bsm_tail p y).

(** One point of a discretized curve, [{ x, y }]. *)
Record DensitySample : Type := mkSample { x : R; y : R }.

(** A sequence of numbers is strictly increasing. *)
Definition strictly_increasing (l : list R) : Prop :=
  forall (i j : nat) (a b : R),
    nth_error l i = Some a -> nth_error l j = Some b -> (i < j)%nat -> a < b.

(** [for (let i = 0; i < numPoints; i++) { data.push({ x, y }) }]: [n] is the
    number of iterations still to run, [i] the loop counter, [data] the array
    built so far. *)
Fixpoint sample_loop (pdf : R -> R) (xMin step : R) (n i : nat)
    (data : list DensitySample) : list DensitySample :=
  match n with
  | O => data
  | S n' =>
      let x := xMin + INR i * step in
      let y := pdf x in
      sample_loop pdf xMin step n' (S i) (data ++ [mkSample x y])
  end.

(** [generateNormalDistributionData (mean, stdDev, numPoints = 300, numStdDev = 3)];
    [numPoints] is an integer count (the loop runs [numPoints] times, not at
    all when it is zero or negative). *)
Definition generateNormalDistributionData (mean stdDev : R) (numPoints : Z)
    (numStdDev : R) : list DensitySample :=
  let xMin := Rmax 0 (mean - numStdDev * stdDev) in
  let xMax := mean + numStdDev * stdDev in
  let step := (xMax - xMin) / (IZR numPoints - 1) in
  sample_loop (fun x => normalPDFGeneral x mean stdDev) xMin step
    (Z.to_nat numPoints) 0 [].

(** [interface InvestmentDistributionParams]. *)
Record InvestmentDistributionParams : Type := mkParams {
  initialAssets : R;
  expectedReturn : R;
  risk : R;
  years : R
}.

(** The parameters of the worked example: one million invested for ten
    years at 7.5% expected return and 18% risk. *)
Definition example_params : InvestmentDistributionParams :=
  {| initialAssets := 1000000; expectedReturn := 7.5; risk := 18; years := 10 |}.

End NormalDistribution.

(** ** The normal-approximation revision of [calculateInvestmentDistribution] *)

Module NormalApprox.
Import NormalDistribution.

(** [Math.pow (b, e)] where it returns a finite number: repeated
    multiplication (or its inverse) for an integer exponent, [exp (e * ln b)]
    for a positive base, and [0] for base [0] with a positive exponent.  A
    negative base with a fractional exponent gives [NaN] in JavaScript, which
    the model does not represent. *)
Definition Math_pow (b e : R) : R :=
  if Req_dec_T e (IZR (Int_part e)) then powerRZ b (Int_part e)
  else if Rlt_dec 0 b then Rpower b e
  else 0.

Record DistributionStatistics : Type := mkStats { mean : R; stdDev : R }.

Definition calculateInvestmentDistribution (params : InvestmentDistributionParams)
    : DistributionStatistics :=
  let initialAssets := initialAssets params in
  let expectedReturn := expectedReturn params in
  let risk := risk params in
  let years := years params in
  let muRate := expectedReturn / 100 in
  let sigmaRate := risk / 100 in
  let mean := initialAssets * Math_pow (1 + muRate) years in
  let stdDev := mean * sigmaRate * sqrt years in
  {| mean := mean; stdDev := stdDev |}.

End NormalApprox.

(** ** The lognormal revision ([src/utils/normalDistribution.ts]) *)

Module Lognormal.
Import NormalDistribution.

Record DistributionStatistics : Type := mkStats {
  mean : R;
  stdDev : R;
  logMean : R;
  logStdDev : R
}.

Definition calculateInvestmentDistribution (params : InvestmentDistributionParams)
    : DistributionStatistics :=
  let initialAssets := initialAssets params in
  let expectedReturn := expectedReturn params in
  let risk := risk params in
  let years := years params in
  let muRate := expectedReturn / 100 in
  let sigmaRate := risk / 100 in
  let logMean := ln initialAssets + (muRate - sigmaRate * sigmaRate / 2) * years in
  let logStdDev := sigmaRate * sqrt years in
  let mean := initialAssets * exp (muRate * years) in
  let stdDev := mean * sqrt (exp (sigmaRate * sigmaRate * years) - 1) in
  {| mean := mean; stdDev := stdDev; logMean := logMean; logStdDev := logStdDev |}.

Definition lognormalPDF (x logMean logStdDev : R) : R :=
  if Rle_dec x 0 then 0
  else
    let z := (ln x - logMean) / logStdDev in
    exp (-0.5 * z * z) / (x * logStdDev * sqrt (2 * PI)).

Definition lognormalCDF (x logMean logStdDev : R) : R :=
  if Rle_dec x 0 then 0
  else
    let z := (ln x - logMean) / logStdDev in
    normalCDF z.

Definition generateLognormalDistributionData (logMean logStdDev : R)
    (numPoints : Z) (numStdDev : R) : list DensitySample :=
  let logXMin := Rmax 0 (logMean - numStdDev * logStdDev) in
  let logXMax := logMean + numStdDev * logStdDev in
  let xMin := exp logXMin in
  let xMax := exp logXMax in
  let step := (xMax - xMin) / (IZR numPoints - 1) in
  sample_loop (fun x => lognormalPDF x logMean logStdDev) xMin step
    (Z.to_nat numPoints) 0 [].

End Lognormal.

(** ** The settings record, its form validation and its URL parser *)

Module Settings.

(** [interface InvestmentSettings]. *)
Record InvestmentSettings : Type := mkSettings {
  totalAssets : R;
  investmentRatio : R;
  probabilityThreshold : R;
  expectedReturn : R;
  risk : R
}.

(** [defaultSettings], in the revision that restores settings from the URL
    and in the one that restores them from local storage. *)
Definition defaultSettings : InvestmentSettings :=
  {| totalAssets := 10000000; investmentRatio := 50; probabilityThreshold := 98;
     expectedReturn := 8; risk := 15 |}.

Definition defaultSettings_localStorage : InvestmentSettings :=
  {| totalAssets := 1000000; investmentRatio := 50; probabilityThreshold := 90.0;
     expectedReturn := 7.5; risk := 18.0 |}.

(** [SettingsPage.handleSubmit]: the four checks in source order; a failed
    check shows a toast and returns, otherwise [updateSettings (formData)] is
    called. *)
Inductive submit_outcome : Type :=
| ToastTotalAssets
| ToastInvestmentRatio
| ToastProbabilityThreshold
| ToastRisk
| UpdateSettings (formData : InvestmentSettings).

Definition handleSubmit (formData : InvestmentSettings) : submit_outcome :=
  if Rle_dec (totalAssets formData) 0 then ToastTotalAssets
  else if Rlt_dec (investmentRatio formData) 0 then ToastInvestmentRatio
  else if Rgt_dec (investmentRatio formData) 100 then ToastInvestmentRatio
  else if Rlt_dec (probabilityThreshold formData) 0 then ToastProbabilityThreshold
  else if Rgt_dec (probabilityThreshold formData) 100 then ToastProbabilityThreshold
  else if Rlt_dec (risk formData) 0 then ToastRisk
  else UpdateSettings formData.

(** The value of [parseFloat (s)]: [NaN] or a number. *)
Inductive parsed : Type :=
| NaN
| Num (r : R).

(** The five query parameters as [searchParams.get] and [parseFloat] deliver
    them: [None] when the parameter is absent ([null]). *)
Record UrlParams : Type := mkUrl {
  url_totalAssets : option parsed;
  url_investmentRatio : option parsed;
  url_probabilityThreshold : option parsed;
  url_expectedReturn : option parsed;
  url_risk : option parsed
}.

(** One field of [{ ...prev, ...urlSettings }]: the parsed value when the
    parameter is present, is not [NaN] and passes the field's range check,
    the previous value otherwise. *)
Definition restore_field (accept : R -> bool) (param : option parsed) (prev : R) : R :=
  match param with
  | Some (Num v) => if accept v then v else prev
  | _ => prev
  end.

Definition gt0 (v : R) : bool := if Rgt_dec v 0 then true else false.
Definition ge0 (v : R) : bool := if Rge_dec v 0 then true else false.
Definition le100 (v : R) : bool := if Rle_dec v 100 then true else false.

(** The URL-restoring effect of [SettingsProvider]. *)
Definition restoreFromUrl (prev : InvestmentSettings) (url : UrlParams)
    : InvestmentSettings :=
  {| totalAssets := restore_field gt0 (url_totalAssets url) (totalAssets prev);
     investmentRatio :=
       restore_field (fun v => andb (ge0 v) (le100 v)) (url_investmentRatio url)
         (investmentRatio prev);
     probabilityThreshold :=
       restore_field (fun v => andb (ge0 v) (le100 v)) (url_probabilityThreshold url)
         (probabilityThreshold prev);
     expectedReturn :=
       restore_field (fun _ => true) (url_expectedReturn url) (expectedReturn prev);
     risk := restore_field ge0 (url_risk url) (risk prev) |}.

End Settings.

(** ** The worst-case computation of the two distribution pages *)

(** [a ?? b]. *)
Definition nullish (a : option R) (b : R) : R :=
  match a with
  | Some v => v
  | None => b
  end.

Record WorstCaseOutcome : Type := mkWorst {
  worstCaseAssets : R;
  worstCaseLoss : R
}.

(** The page of the normal-approximation revision. *)
Module NormalPage.
Import NormalDistribution.

Definition DistributionPage (settings : Settings.InvestmentSettings) (years : R)
    (tempProbabilityThreshold tempInvestmentRatio : option R)
    : result WorstCaseOutcome :=
  let currentInvestmentRatio :=
    nullish tempInvestmentRatio (Settings.investmentRatio settings) in
  let investmentAmount := Settings.totalAssets settings * currentInvestmentRatio / 100 in
  let stats := NormalApprox.calculateInvestmentDistribution
                 {| initialAssets := investmentAmount;
                    expectedReturn := Settings.expectedReturn settings;
                    risk := Settings.risk settings;
                    years := years |} in
  let mean := NormalApprox.mean stats in
  let stdDev := NormalApprox.stdDev stats in
  let currentProbabilityThreshold :=
    nullish tempProbabilityThreshold (Settings.probabilityThreshold settings) in
  let probabilityDecimal := currentProbabilityThreshold / 100 in
  let* zScore := normalInverseCDF (1 - probabilityDecimal) in
  let worstCaseAssets := Rmax 0 (mean + zScore * stdDev) in
  let worstCaseLoss := worstCaseAssets - investmentAmount in
  Return {| worstCaseAssets := worstCaseAssets; worstCaseLoss := worstCaseLoss |}.

End NormalPage.

(** The page of the lognormal revision. *)
Module LognormalPage.
Import NormalDistribution.

Definition DistributionPage (settings : Settings.InvestmentSettings) (years : R)
    (tempProbabilityThreshold tempInvestmentRatio : option R)
    : result WorstCaseOutcome :=
  let currentInvestmentRatio :=
    nullish tempInvestmentRatio (Settings.investmentRatio settings) in
  let investmentAmount := Settings.totalAssets settings * currentInvestmentRatio / 100 in
  let stats := Lognormal.calculateInvestmentDistribution
                 {| initialAssets := investmentAmount;
                    expectedReturn := Settings.expectedReturn settings;
                    risk := Settings.risk settings;
                    years := years |} in
  let logMean := Lognormal.logMean stats in
  let logStdDev := Lognormal.logStdDev stats in
  let currentProbabilityThreshold :=
    nullish tempProbabilityThreshold (Settings.probabilityThreshold settings) in
  let probabilityDecimal := currentProbabilityThreshold / 100 in
  let* zScore := normalInverseCDF (1 - probabilityDecimal) in
  let worstCaseAssets := exp (logMean + zScore * logStdDev) in
  let worstCaseLoss := worstCaseAssets - investmentAmount in
  Return {| worstCaseAssets := worstCaseAssets; worstCaseLoss := worstCaseLoss |}.

End LognormalPage.

(** ** The other figures of the two distribution pages *)

(** [Array.prototype.findIndex]: the index of the first element that
    satisfies [p], [-1] when there is none. *)
Fixpoint findIndex_from {A : Type} (p : A -> bool) (l : list A) (i : Z) : Z :=
  match l with
  | [] => (-1)%Z
  | a :: t => if p a then i else findIndex_from p t (i + 1)%Z
  end.

Definition findIndex {A : Type} (p : A -> bool) (l : list A) : Z :=
  findIndex_from p l 0%Z.

(** The callback [d => d.x >= target]. *)
Definition x_at_least (target : R) (d : NormalDistribution.DensitySample) : bool :=
  if Rge_dec (NormalDistribution.x d) target then true else false.

(** What a page shows besides the curve: the 95% interval, the profit at
    the mean, the worst case and its effect on the assets as a whole. *)
Record PageFigures : Type := mkFigures {
  lowerBound : R;
  upperBound : R;
  profit : R;
  worstCase : WorstCaseOutcome;
  nonInvestmentAssets : R;
  totalAssetsWorstCase : R;
  totalAssetsChange : R
}.

Module NormalFigures.
Import NormalDistribution.

Definition figures (settings : Settings.InvestmentSettings) (years : R)
    (tempProbabilityThreshold tempInvestmentRatio : option R) : result PageFigures :=
  let currentInvestmentRatio :=
    nullish tempInvestmentRatio (Settings.investmentRatio settings) in
  let investmentAmount := Settings.totalAssets settings * currentInvestmentRatio / 100 in
  let stats := NormalApprox.calculateInvestmentDistribution
                 {| initialAssets := investmentAmount;
                    expectedReturn := Settings.expectedReturn settings;
                    risk := Settings.risk settings;
                    years := years |} in
  let mean := NormalApprox.mean stats in
  let stdDev := NormalApprox.stdDev stats in
  let lowerBound := Rmax 0 (mean - 1.96 * stdDev) in
  let upperBound := mean + 1.96 * stdDev in
  let profit := mean - investmentAmount in
  let* worst :=
    NormalPage.DistributionPage settings years tempProbabilityThreshold
      tempInvestmentRatio in
  let nonInvestmentAssets := Settings.totalAssets settings - investmentAmount in
  let totalAssetsWorstCase := worstCaseAssets worst + nonInvestmentAssets in
  let totalAssetsChange := totalAssetsWorstCase - Settings.totalAssets settings in
  Return {| lowerBound := lowerBound; upperBound := upperBound; profit := profit;
            worstCase := worst; nonInvestmentAssets := nonInvestmentAssets;
            totalAssetsWorstCase := totalAssetsWorstCase;
            totalAssetsChange := totalAssetsChange |}.

End NormalFigures.

Module LognormalFigures.
Import NormalDistribution.

Definition figures (settings : Settings.InvestmentSettings) (years : R)
    (tempProbabilityThreshold tempInvestmentRatio : option R) : result PageFigures :=
  let currentInvestmentRatio :=
    nullish tempInvestmentRatio (Settings.investmentRatio settings) in
  let investmentAmount := Settings.totalAssets settings * currentInvestmentRatio / 100 in
  let stats := Lognormal.calculateInvestmentDistribution
                 {| initialAssets := investmentAmount;
                    expectedReturn := Settings.expectedReturn settings;
                    risk := Settings.risk settings;
                    years := years |} in
  let mean := Lognormal.mean stats in
  let logMean := Lognormal.logMean stats in
  let logStdDev := Lognormal.logStdDev stats in
  let lowerBound := exp (logMean - 1.96 * logStdDev) in
  let upperBound := exp (logMean + 1.96 * logStdDev) in
  let profit := mean - investmentAmount in
  let* worst :=
    LognormalPage.DistributionPage settings years tempProbabilityThreshold
      tempInvestmentRatio in
  let nonInvestmentAssets := Settings.totalAssets settings - investmentAmount in
  let totalAssetsWorstCase := worstCaseAssets worst + nonInvestmentAssets in
  let totalAssetsChange := totalAssetsWorstCase - Settings.totalAssets settings in
  Return {| lowerBound := lowerBound; upperBound := upperBound; profit := profit;
            worstCase := worst; nonInvestmentAssets := nonInvestmentAssets;
            totalAssetsWorstCase := totalAssetsWorstCase;
            totalAssetsChange := totalAssetsChange |}.

(** The indices at which the chart draws its vertical lines. *)
Record Markers : Type := mkMarkers {
  breakEvenIndex : Z;
  expectedReturnIndex : Z;
  plusOneSigmaIndex : Z;
  minusOneSigmaIndex : Z;
  plusTwoSigmaIndex : Z;
  minusTwoSigmaIndex : Z;
  plusThreeSigmaIndex : Z;
  minusThreeSigmaIndex : Z
}.

Definition markers (settings : Settings.InvestmentSettings) (years : R)
    (tempInvestmentRatio : option R) : Markers :=
  let currentInvestmentRatio :=
    nullish tempInvestmentRatio (Settings.investmentRatio settings) in
  let investmentAmount := Settings.totalAssets settings * currentInvestmentRatio / 100 in
  let stats := Lognormal.calculateInvestmentDistribution
                 {| initialAssets := investmentAmount;
                    expectedReturn := Settings.expectedReturn settings;
                    risk := Settings.risk settings;
                    years := years |} in
  let mean := Lognormal.mean stats in
  let stdDev := Lognormal.stdDev stats in
  let logMean := Lognormal.logMean stats in
  let logStdDev := Lognormal.logStdDev stats in
  let distributionData :=
    Lognormal.generateLognormalDistributionData logMean logStdDev 300 3 in
  {| breakEvenIndex := findIndex (x_at_least investmentAmount) distributionData;
     expectedReturnIndex := findIndex (x_at_least mean) distributionData;
     plusOneSigmaIndex := findIndex (x_at_least (mean + stdDev)) distributionData;
     minusOneSigmaIndex := findIndex (x_at_least (mean - stdDev)) distributionData;
     plusTwoSigmaIndex := findIndex (x_at_least (mean + 2 * stdDev)) distributionData;
     minusTwoSigmaIndex := findIndex (x_at_least (mean - 2 * stdDev)) distributionData;
     plusThreeSigmaIndex := findIndex (x_at_least (mean + 3 * stdDev)) distributionData;
     minusThreeSigmaIndex :=
       findIndex (x_at_least (mean - 3 * stdDev)) distributionData |}.

End LognormalFigures.

(** The inputs that both pages derive from the settings and the sliders:
    [currentInvestmentRatio], [investmentAmount],
    [currentProbabilityThreshold] and the argument of
    [calculateInvestmentDistribution]. *)
Module PageInputs.

Definition currentInvestmentRatio (settings : Settings.InvestmentSettings)
    (tempInvestmentRatio : option R) : R :=
  nullish tempInvestmentRatio (Settings.investmentRatio settings).

Definition investmentAmount (settings : Settings.InvestmentSettings)
    (tempInvestmentRatio : option R) : R :=
  Settings.totalAssets settings * currentInvestmentRatio settings tempInvestmentRatio / 100.

Definition currentProbabilityThreshold (settings : Settings.InvestmentSettings)
    (tempProbabilityThreshold : option R) : R :=
  nullish tempProbabilityThreshold (Settings.probabilityThreshold settings).

Definition params (settings : Settings.InvestmentSettings) (years : R)
    (tempInvestmentRatio : option R) : NormalDistribution.InvestmentDistributionParams :=
  {| NormalDistribution.initialAssets := investmentAmount settings tempInvestmentRatio;
     NormalDistribution.expectedReturn := Settings.expectedReturn settings;
     NormalDistribution.risk := Settings.risk settings;
     NormalDistribution.years := years |}.

End PageInputs.

(** ** The settings page: asset classes *)

Module SettingsPage.
Import Settings.

(** The settings that [handleSubmit] saves: the four range checks. *)
Definition valid (s : InvestmentSettings) : Prop :=
  totalAssets s > 0 /\ 0 <= investmentRatio s <= 100 /\
  0 <= probabilityThreshold s <= 100 /\ risk s >= 0.

(** [interface AssetClass] and the table [assetClasses]. *)
Record AssetClass : Type := mkAssetClass {
  name : String.string;
  class_expectedReturn : R;
  class_risk : R
}.

Definition assetClasses : list AssetClass :=
  [ mkAssetClass "国内株式" 5.0 20.0;
    mkAssetClass "先進国株式" 7.0 22.0;
    mkAssetClass "新興国株式" 8.5 28.0;
    mkAssetClass "世界株式" 7.5 23.0;
    mkAssetClass "国内債券" 1.0 3.0;
    mkAssetClass "先進国債券" 2.5 8.0 ].

(** [handleApplyAssetClass]: the new form data. *)
Definition handleApplyAssetClass (prev : InvestmentSettings) (assetClass : AssetClass)
    : InvestmentSettings :=
  {| totalAssets := totalAssets prev;
     investmentRatio := investmentRatio prev;
     probabilityThreshold := probabilityThreshold prev;
     expectedReturn := class_expectedReturn assetClass;
     risk := class_risk assetClass |}.

(** What changes the settings held by [SettingsProvider] (URL-restoring
    revision): a submitted form, which reaches [updateSettings] only past
    the checks of [handleSubmit]; [resetSettings]; and the effect that
    restores the settings from the query string. *)
Inductive event : Type :=
| Submit (formData : InvestmentSettings)
| Reset
| UrlChange (url : UrlParams).

Definition handle (settings : InvestmentSettings) (e : event) : InvestmentSettings :=
  match e with
  | Submit formData =>
      match handleSubmit formData with
      | UpdateSettings newSettings => newSettings
      | _ => settings
      end
  | Reset => defaultSettings
  | UrlChange url => restoreFromUrl settings url
  end.

(** The settings after a sequence of events, from the initial state
    [useState (defaultSettings)]. *)
Definition run (events : list event) : InvestmentSettings :=
  fold_left handle events defaultSettings.

End SettingsPage.

(** ** The pieces of the round trip [normalCDF (normalInverseCDF p)]

    Sub-expressions of [erf] and of [normalInverseCDF], named so that the
    accuracy of the round trip can be stated and proved branch by branch. *)

Module RoundTrip.
Import NormalDistribution.

(** The polynomial factor of [erf]:
    [(((((a5 * t + a4) * t) + a3) * t + a2) * t + a1) * t]. *)
Definition erf_poly (t : R) : R :=
  (((((erf_a5 * t + erf_a4) * t) + erf_a3) * t + erf_a2) * t + erf_a1) * t.

(** What [erf] subtracts from [1] at [u >= 0]. *)
Definition erfc_approx (u : R) : R :=
  erf_poly (1 / (1 + erf_p * u)) * exp (- (u * u)).

(** [normalCDF (- X)] for [X > 0]. *)
Definition cdf_neg (X : R) : R := 0.5 * erfc_approx (X / sqrt 2).

(** Numerator and denominator of the central branch, as polynomials in
    [r = y * y]. *)
Definition bsm_num (r : R) : R :=
  ((bsm_a3 * r + bsm_a2) * r + bsm_a1) * r + bsm_a0.

Definition bsm_den (r : R) : R :=
  (((bsm_b3 * r + bsm_b2) * r + bsm_b1) * r + bsm_b0) * r + 1.

(** The central branch at distance [a] from [0.5]. *)
Definition bsm_quantile (a : R) : R := a * bsm_num (a * a) / bsm_den (a * a).

(** The polynomial of the tail branch, in [s = ln (- ln r)]. *)
Definition bsm_tail_poly (s : R) : R :=
  bsm_c0 + s * (bsm_c1 + s * (bsm_c2 + s * (bsm_c3 + s * (bsm_c4 + s *
    (bsm_c5 + s * (bsm_c6 + s * (bsm_c7 + s * bsm_c8))))))).

End RoundTrip.

(** ** Certified enclosures in binary fixed point

    The numerical statements below (values of [ln] and [exp] at given
    points, and the accuracy of the round trip through the two
    approximations) are checked by computation on integers.  At precision
    [prec] an integer [v] stands for the real number [v / 2 ^ prec].
    [exp_lo K v] is a lower bound of [exp] at that number, from
    [1 + y <= exp y] at [y = x / 2 ^ K] followed by [K] squarings rounded
    down; [exp_hi K v] is the upper bound obtained from
    [exp x = 1 / exp (- x)]. *)

Module Fixed.
Local Open Scope Z_scope.
Local Open Scope bool_scope.

Section Precision.
Variable prec : Z.

Definition scale : Z := 2 ^ prec.

Definition F2R (v : Z) : R := (IZR v / IZR scale)%R.

(** Division rounded towards plus infinity. *)
Definition cdiv (a b : Z) : Z := - ((- a) / b).

(** Products are rescaled by shifts, which round towards minus infinity. *)
Definition mul_down (a b : Z) : Z := Z.shiftr (a * b) prec.
Definition mul_up (a b : Z) : Z := - Z.shiftr (- (a * b)) prec.
Definition div_down (a b : Z) : Z := Z.shiftl a prec / b.
Definition div_up (a b : Z) : Z := cdiv (Z.shiftl a prec) b.

(** The fraction [n / d] rounded down and up to fixed point. *)
Definition Q_down (n d : Z) : Z := Z.shiftl n prec / d.
Definition Q_up (n d : Z) : Z := cdiv (Z.shiftl n prec) d.

Fixpoint sq_down (n : nat) (b : Z) : Z :=
  match n with
  | O => b
  | S n' => sq_down n' (mul_down b b)
  end.

Definition exp_lo (K : nat) (v : Z) : Z :=
  let b := scale + Z.shiftr v (Z.of_nat K) in
  if b <? 0 then 0 else sq_down K b.

Definition exp_hi (K : nat) (v : Z) : Z :=
  div_up scale (exp_lo K (- v)).

(** *** Bounds with outward rounding

    A bound is a pair of integers enclosing a real number, or [None] when an
    operation was used outside its domain.  Products and quotients are
    those of non-negative numbers: polynomials with coefficients of both
    signs are evaluated as the difference of their positive and negative
    parts. *)

Definition bnd : Type := option (Z * Z).

Definition encloses (b : bnd) (x : R) : Prop :=
  match b with
  | Some (l, h) => (F2R l <= x <= F2R h)%R
  | None => True
  end.

Definition iconst (n d : Z) : bnd := Some (Q_down n d, Q_up n d).
Definition ipoint (v : Z) : bnd := Some (v, v).
Definition ione : bnd := ipoint scale.

Definition iadd (a b : bnd) : bnd :=
  match a, b with
  | Some (al, ah), Some (bl, bh) => Some (al + bl, ah + bh)
  | _, _ => None
  end.

Definition isub (a b : bnd) : bnd :=
  match a, b with
  | Some (al, ah), Some (bl, bh) => Some (al - bh, ah - bl)
  | _, _ => None
  end.

Definition ineg (a : bnd) : bnd :=
  match a with
  | Some (al, ah) => Some (- ah, - al)
  | None => None
  end.

Definition imul (a b : bnd) : bnd :=
  match a, b with
  | Some (al, ah), Some (bl, bh) =>
      if (0 <=? al) && (0 <=? bl) then Some (mul_down al bl, mul_up ah bh) else None
  | _, _ => None
  end.

Definition idiv (a b : bnd) : bnd :=
  match a, b with
  | Some (al, ah), Some (bl, bh) =>
      if (0 <=? al) && (0 <? bl) then Some (div_down al bh, div_up ah bl) else None
  | _, _ => None
  end.

Definition iexp (K : nat) (a : bnd) : bnd :=
  match a with
  | Some (al, ah) =>
      let l := exp_lo K (- ah) in
      if 0 <? l then Some (exp_lo K al, div_up scale l) else None
  | None => None
  end.

End Precision.

Arguments iadd a b : simpl never.
Arguments isub a b : simpl never.
Arguments ineg a : simpl never.

(** *** The functions of the round trip at precision [cprec] *)

Definition cprec : Z := 36.

(** The coefficients of the source (absolute values), rounded outwards once. *)
Definition k_erf_a1 : bnd := Eval vm_compute in iconst cprec 254829592 1000000000.
Definition k_erf_a2 : bnd := Eval vm_compute in iconst cprec 284496736 1000000000.
Definition k_erf_a3 : bnd := Eval vm_compute in iconst cprec 1421413741 1000000000.
Definition k_erf_a4 : bnd := Eval vm_compute in iconst cprec 1453152027 1000000000.
Definition k_erf_a5 : bnd := Eval vm_compute in iconst cprec 1061405429 1000000000.
Definition k_erf_p : bnd := Eval vm_compute in iconst cprec 3275911 10000000.
Definition k_half : bnd := Eval vm_compute in iconst cprec 5 10.
Definition k_bsm_a0 : bnd := Eval vm_compute in iconst cprec 250662823884 100000000000.
Definition k_bsm_a1 : bnd := Eval vm_compute in iconst cprec 1861500062529 100000000000.
Definition k_bsm_a2 : bnd := Eval vm_compute in iconst cprec 4139119773534 100000000000.
Definition k_bsm_a3 : bnd := Eval vm_compute in iconst cprec 2544106049637 100000000000.
Definition k_bsm_b0 : bnd := Eval vm_compute in iconst cprec 847351093090 100000000000.
Definition k_bsm_b1 : bnd := Eval vm_compute in iconst cprec 2308336743743 100000000000.
Definition k_bsm_b2 : bnd := Eval vm_compute in iconst cprec 2106224101826 100000000000.
Definition k_bsm_b3 : bnd := Eval vm_compute in iconst cprec 313082909833 100000000000.
Definition k_bsm_c0 : bnd := Eval vm_compute in iconst cprec 3374754822726147 10000000000000000.
Definition k_bsm_c1 : bnd := Eval vm_compute in iconst cprec 9761690190917186 10000000000000000.
Definition k_bsm_c2 : bnd := Eval vm_compute in iconst cprec 1607979714918209 10000000000000000.
Definition k_bsm_c3 : bnd := Eval vm_compute in iconst cprec 276438810333863 10000000000000000.
Definition k_bsm_c4 : bnd := Eval vm_compute in iconst cprec 38405729373609 10000000000000000.
Definition k_bsm_c5 : bnd := Eval vm_compute in iconst cprec 3951896511919 10000000000000000.
Definition k_bsm_c6 : bnd := Eval vm_compute in iconst cprec 321767881768 10000000000000000.
Definition k_bsm_c7 : bnd := Eval vm_compute in iconst cprec 2888167364 10000000000000000.
Definition k_bsm_c8 : bnd := Eval vm_compute in iconst cprec 3960315187 10000000000000000.

(** [1 / sqrt 2]. *)
Definition iinv_sqrt2 : bnd :=
  Eval vm_compute in
    Some (Q_down cprec 70710678118 100000000000, Q_up cprec 70710678119 100000000000).

(** [erf_poly] at a fixed-point number. *)
Definition ierf_poly_at (t : Z) : bnd :=
  let t1 := ipoint t in
  let t2 := imul cprec t1 t1 in
  let t3 := imul cprec t2 t1 in
  let t4 := imul cprec t3 t1 in
  let t5 := imul cprec t4 t1 in
  isub
    (iadd (iadd (imul cprec k_erf_a1 t1) (imul cprec k_erf_a3 t3))
          (imul cprec k_erf_a5 t5))
    (iadd (imul cprec k_erf_a2 t2) (imul cprec k_erf_a4 t4)).

(** [erf_poly] over a bound inside [[0, 1]], where it is increasing. *)
Definition ierf_poly (t : bnd) : bnd :=
  match t with
  | Some (tl, th) =>
      match ierf_poly_at tl, ierf_poly_at (Z.min th (scale cprec)) with
      | Some (l, _), Some (_, h) => if 0 <=? tl then Some (l, h) else None
      | _, _ => None
      end
  | None => None
  end.

(** [cdf_neg X], that is [normalCDF (- X)], for [X > 0]. *)
Definition icdf_neg (K : nat) (X : bnd) : bnd :=
  let u := imul cprec X iinv_sqrt2 in
  let t := idiv cprec (ione cprec) (iadd (ione cprec) (imul cprec k_erf_p u)) in
  imul cprec (imul cprec k_half (ierf_poly t)) (iexp cprec K (ineg (imul cprec u u))).

(** [bsm_quantile] at a fixed-point number. *)
Definition iquantile_at (a : Z) : bnd :=
  let a1 := ipoint a in
  let r := imul cprec a1 a1 in
  let r2 := imul cprec r r in
  let r3 := imul cprec r2 r in
  let r4 := imul cprec r3 r in
  let num :=
    isub (iadd k_bsm_a0 (imul cprec k_bsm_a2 r2))
         (iadd (imul cprec k_bsm_a1 r) (imul cprec k_bsm_a3 r3)) in
  let den :=
    isub (iadd (iadd (ione cprec) (imul cprec k_bsm_b1 r2)) (imul cprec k_bsm_b3 r4))
         (iadd (imul cprec k_bsm_b0 r) (imul cprec k_bsm_b2 r3)) in
  idiv cprec (imul cprec a1 num) den.

(** [bsm_tail_poly] at a fixed-point number. *)
Definition itail_poly_at (s : Z) : bnd :=
  let s1 := ipoint s in
  iadd k_bsm_c0 (imul cprec s1
  (iadd k_bsm_c1 (imul cprec s1
  (iadd k_bsm_c2 (imul cprec s1
  (iadd k_bsm_c3 (imul cprec s1
  (iadd k_bsm_c4 (imul cprec s1
  (iadd k_bsm_c5 (imul cprec s1
  (iadd k_bsm_c6 (imul cprec s1
  (iadd k_bsm_c7 (imul cprec s1 k_bsm_c8))))))))))))))).

(** *** The grid checks

    Central branch: the grid runs over [a = 0.5 - p]; at each point the
    bound of [normalCDF] at the quantile is computed once, and each cell
    uses the upper bound of its left end and the lower bound of its right
    end.  Tail branch: the grid runs over [s = ln (- ln p)], where
    [p = exp (- exp s)]. *)

Definition tol : Z := Eval vm_compute in Q_down cprec 1 10000.
Definition half : Z := Eval vm_compute in Q_down cprec 1 2.

Fixpoint check_adjacent {A : Type} (ok : A -> A -> bool) (l : list A) : bool :=
  match l with
  | a :: (b :: _) as t => ok a b && check_adjacent ok t
  | _ => true
  end.

(** Segments [(step, cells)] laid end to end from [start]. *)
Fixpoint grid (start : Z) (segs : list (Z * nat)) : list Z :=
  match segs with
  | [] => [start]
  | (step, n) :: rest =>
      map (fun i : nat => start + Z.of_nat i * step) (seq 0 n)
      ++ grid (start + Z.of_nat n * step) rest
  end.

Definition central_point (K : nat) (a : Z) : Z * bnd :=
  (a, icdf_neg K (iquantile_at a)).

Definition central_ok (l r : Z * bnd) : bool :=
  match snd l, snd r with
  | Some (_, gh), Some (gl, _) =>
      (gh - (half - fst r) <=? tol) && ((half - fst l) - gl <=? tol)
  | _, _ => false
  end.

(** The grid starts at [0], reaches [0.42] and stays below [0.43], and
    every cell passes. *)
Definition check_central_on (K : nat) (g : list Z) : bool :=
  match g with
  | z0 :: rest =>
      (z0 =? 0) && (Q_up cprec 42 100 <=? last rest z0)
      && forallb (fun z => (0 <=? z) && (z <=? Q_down cprec 43 100)) g
      && check_adjacent central_ok (map (central_point K) g)
  | [] => false
  end.

Definition central_grid : list Z := grid 0 [(6528350, 4423%nat)].
Definition central_steps : nat := 14.

Definition tail_point (K : nat) (s : Z) : Z * (bnd * bnd) :=
  (s, (icdf_neg K (itail_poly_at s),
       iexp cprec K (ineg (iexp cprec K (ipoint s))))).

Definition tail_ok (l r : Z * (bnd * bnd)) : bool :=
  match fst (snd l), snd (snd l), fst (snd r), snd (snd r) with
  | Some (_, gh), Some (_, ph), Some (gl, _), Some (pl, _) =>
      (gh - pl <=? tol) && (ph - gl <=? tol)
  | _, _, _, _ => false
  end.

(** Beyond the last grid point both sides are below the tolerance. *)
Definition tail_end_ok (e : Z * (bnd * bnd)) : bool :=
  match fst (snd e), snd (snd e) with
  | Some (_, gh), Some (_, ph) => (gh <=? tol) && (ph <=? tol)
  | _, _ => false
  end.

(** [p <= 0.08] gives [ln (- ln p) >= s] at the first grid point [s]. *)
Definition tail_start_ok (K : nat) (s : Z) : bool :=
  match iexp cprec K (ineg (iexp cprec K (ipoint s))) with
  | Some (pl, _) => Q_up cprec 8 100 <=? pl
  | None => false
  end.

Definition check_tail_on (K : nat) (g : list Z) : bool :=
  match g with
  | z0 :: rest =>
      tail_start_ok K z0
      && forallb (fun z => 0 <=? z) g
      && check_adjacent tail_ok (map (tail_point K) g)
      && tail_end_ok (tail_point K (last rest z0))
  | [] => false
  end.

(** The tail grid; the steps grow as the slope of [exp (- exp s)] falls. *)
Definition tail_start : Z := Eval vm_compute in Q_down cprec 926 1000.

Definition tail_grid : list Z :=
  grid tail_start
    [(32283157, 158%nat); (36395171, 189%nat); (43830078, 157%nat);
     (54394943, 126%nat); (69787223, 99%nat); (92884263, 74%nat);
     (128746241, 53%nat); (186640946, 37%nat); (284320370, 25%nat);
     (457511371, 15%nat); (782151705, 9%nat); (1429686366, 5%nat);
     (2813892931, 4%nat)].

Definition tail_steps : nat := 18.

End Fixed.

(** * Properties *)

(** ** Soundness of the fixed-point enclosures *)

Section FixedSound.
Import Fixed.

Variable prec : Z.
Hypothesis prec_nonneg : (0 <= prec)%Z.

Local Abbreviation scale := (scale prec).
Local Abbreviation F2R := (F2R prec).

Lemma scale_pos : (0 < scale)%Z.
Proof. unfold Fixed.scale. apply Z.pow_pos_nonneg; lia. Qed.

Lemma IZR_scale_pos : 0 < IZR scale.
Proof. apply IZR_lt, scale_pos. Qed.

Lemma shiftl_scale (a : Z) : Z.shiftl a prec = (a * scale)%Z.
Proof. unfold Fixed.scale. now apply Z.shiftl_mul_pow2. Qed.

Lemma shiftr_scale (a : Z) : Z.shiftr a prec = (a / scale)%Z.
Proof. unfold Fixed.scale. now apply Z.shiftr_div_pow2. Qed.

Lemma F2R_le (a b : Z) : (a <= b)%Z -> F2R a <= F2R b.
Proof.
  intros H. unfold Fixed.F2R. apply Rmult_le_compat_r.
  - left. apply Rinv_0_lt_compat, IZR_scale_pos.
  - now apply IZR_le.
Qed.

Lemma F2R_plus (a b : Z) : F2R (a + b) = F2R a + F2R b.
Proof. unfold Fixed.F2R. rewrite plus_IZR. field. apply Rgt_not_eq, IZR_scale_pos. Qed.

Lemma F2R_opp (a : Z) : F2R (- a) = - F2R a.
Proof. unfold Fixed.F2R. rewrite opp_IZR. field. apply Rgt_not_eq, IZR_scale_pos. Qed.

Lemma F2R_minus (a b : Z) : F2R (a - b) = F2R a - F2R b.
Proof. unfold Z.sub. rewrite F2R_plus, F2R_opp. ring. Qed.

Lemma F2R_scale : F2R scale = 1.
Proof. unfold Fixed.F2R. field. apply Rgt_not_eq, IZR_scale_pos. Qed.

Lemma F2R_0 : F2R 0 = 0.
Proof. unfold Fixed.F2R. field. apply Rgt_not_eq, IZR_scale_pos. Qed.

Lemma F2R_nonneg (a : Z) : (0 <= a)%Z -> 0 <= F2R a.
Proof. intros H. rewrite <- F2R_0. now apply F2R_le. Qed.

Lemma F2R_pos (a : Z) : (0 < a)%Z -> 0 < F2R a.
Proof.
  intros H. unfold Fixed.F2R.
  apply Rdiv_lt_0_compat; [now apply IZR_lt | apply IZR_scale_pos].
Qed.

(** Floor and ceiling divisions against real division. *)
Lemma IZR_div_floor (a b : Z) : (0 < b)%Z -> IZR (a / b) <= IZR a / IZR b.
Proof.
  intros Hb. assert (Hb' : 0 < IZR b) by now apply IZR_lt.
  apply Rmult_le_reg_r with (IZR b); [assumption|].
  replace (IZR a / IZR b * IZR b) with (IZR a) by (field; lra).
  rewrite <- mult_IZR. apply IZR_le.
  rewrite Z.mul_comm. apply Z.mul_div_le. assumption.
Qed.

Lemma IZR_div_ceil (a b : Z) : (0 < b)%Z -> IZR a / IZR b <= IZR (cdiv a b).
Proof.
  intros Hb. unfold cdiv. rewrite opp_IZR.
  pose proof (IZR_div_floor (- a) b Hb) as H. rewrite opp_IZR in H.
  assert (Hb' : 0 < IZR b) by now apply IZR_lt.
  replace (- IZR a / IZR b) with (- (IZR a / IZR b)) in H by (field; lra).
  lra.
Qed.

Lemma mul_down_le (a b : Z) : F2R (mul_down prec a b) <= F2R a * F2R b.
Proof.
  unfold Fixed.F2R, mul_down. rewrite shiftr_scale. pose proof IZR_scale_pos as Hs.
  pose proof (IZR_div_floor (a * b) scale scale_pos) as H. rewrite mult_IZR in H.
  replace (IZR a / IZR scale * (IZR b / IZR scale))
    with (IZR a * IZR b / IZR scale / IZR scale) by (field; lra).
  apply Rmult_le_compat_r; [left; now apply Rinv_0_lt_compat | exact H].
Qed.

Lemma mul_up_ge (a b : Z) : F2R a * F2R b <= F2R (mul_up prec a b).
Proof.
  unfold Fixed.F2R, mul_up. rewrite shiftr_scale. pose proof IZR_scale_pos as Hs.
  pose proof (IZR_div_ceil (a * b) scale scale_pos) as H. rewrite mult_IZR in H.
  unfold cdiv in H.
  replace (IZR a / IZR scale * (IZR b / IZR scale))
    with (IZR a * IZR b / IZR scale / IZR scale) by (field; lra).
  apply Rmult_le_compat_r; [left; now apply Rinv_0_lt_compat | exact H].
Qed.

Lemma div_down_le (a b : Z) :
  (0 < b)%Z -> F2R (div_down prec a b) <= F2R a / F2R b.
Proof.
  intros Hb. unfold Fixed.F2R, div_down. rewrite shiftl_scale.
  pose proof IZR_scale_pos as Hs.
  assert (Hb' : 0 < IZR b) by now apply IZR_lt.
  pose proof (IZR_div_floor (a * scale) b Hb) as H. rewrite mult_IZR in H.
  replace (IZR a / IZR scale / (IZR b / IZR scale))
    with (IZR a * IZR scale / IZR b / IZR scale) by (field; lra).
  apply Rmult_le_compat_r; [left; now apply Rinv_0_lt_compat | exact H].
Qed.

Lemma div_up_ge (a b : Z) : (0 < b)%Z -> F2R a / F2R b <= F2R (div_up prec a b).
Proof.
  intros Hb. unfold Fixed.F2R, div_up. rewrite shiftl_scale.
  pose proof IZR_scale_pos as Hs.
  assert (Hb' : 0 < IZR b) by now apply IZR_lt.
  pose proof (IZR_div_ceil (a * scale) b Hb) as H. rewrite mult_IZR in H.
  replace (IZR a / IZR scale / (IZR b / IZR scale))
    with (IZR a * IZR scale / IZR b / IZR scale) by (field; lra).
  apply Rmult_le_compat_r; [left; now apply Rinv_0_lt_compat | exact H].
Qed.

Lemma mul_down_nonneg (a b : Z) :
  (0 <= a)%Z -> (0 <= b)%Z -> (0 <= mul_down prec a b)%Z.
Proof.
  intros Ha Hb. unfold mul_down. rewrite shiftr_scale.
  apply Z.div_pos; [nia | exact scale_pos].
Qed.

Lemma sq_down_sound (n : nat) : forall (b : Z) (y : R),
  (0 <= b)%Z -> F2R b <= exp y -> F2R (sq_down prec n b) <= exp (2 ^ n * y).
Proof.
  induction n as [|n IH]; intros b y Hb Hy; simpl.
  - now rewrite Rmult_1_l.
  - replace (2 * 2 ^ n * y) with (2 ^ n * (2 * y)) by ring.
    apply IH; [now apply mul_down_nonneg|].
    replace (2 * y) with (y + y) by ring. rewrite exp_plus.
    apply Rle_trans with (F2R b * F2R b); [apply mul_down_le|].
    pose proof (F2R_nonneg b Hb).
    apply Rmult_le_compat; assumption.
Qed.

Lemma pow2_IZR (K : nat) : IZR (2 ^ Z.of_nat K) = 2 ^ K.
Proof.
  induction K as [|K IH].
  - reflexivity.
  - rewrite Nat2Z.inj_succ, Z.pow_succ_r by lia. rewrite mult_IZR, IH. reflexivity.
Qed.

Theorem exp_lo_sound (K : nat) (v : Z) : F2R (exp_lo prec K v) <= exp (F2R v).
Proof.
  unfold exp_lo.
  destruct (Z.ltb_spec (scale + Z.shiftr v (Z.of_nat K)) 0) as [Hneg|Hpos].
  - rewrite F2R_0. left. apply exp_pos.
  - assert (H2 : (0 < 2 ^ Z.of_nat K)%Z) by (apply Z.pow_pos_nonneg; lia).
    assert (H2R : 0 < 2 ^ K) by (apply pow_lt; lra).
    replace (F2R v) with (2 ^ K * (F2R v / 2 ^ K)) by (field; lra).
    apply sq_down_sound; [assumption|].
    rewrite F2R_plus, F2R_scale.
    apply Rle_trans with (1 + F2R v / 2 ^ K); [|apply exp_ineq1_le].
    apply Rplus_le_compat_l.
    rewrite Z.shiftr_div_pow2 by lia.
    unfold Fixed.F2R. pose proof IZR_scale_pos as Hs.
    pose proof (IZR_div_floor v _ H2) as H. rewrite pow2_IZR in H.
    replace (IZR v / IZR scale / 2 ^ K) with (IZR v / 2 ^ K / IZR scale) by (field; lra).
    apply Rmult_le_compat_r; [left; now apply Rinv_0_lt_compat | exact H].
Qed.

Theorem exp_hi_sound (K : nat) (v : Z) :
  (0 < exp_lo prec K (- v))%Z -> exp (F2R v) <= F2R (exp_hi prec K v).
Proof.
  intros Hpos. unfold exp_hi.
  pose proof (exp_lo_sound K (- v)) as Hlo. rewrite F2R_opp in Hlo.
  pose proof (div_up_ge scale _ Hpos) as Hd. rewrite F2R_scale in Hd.
  apply Rle_trans with (1 / F2R (exp_lo prec K (- v))); [|exact Hd].
  assert (Hl : 0 < F2R (exp_lo prec K (- v))) by now apply F2R_pos.
  rewrite exp_Ropp in Hlo. pose proof (exp_pos (F2R v)) as He.
  apply Rmult_le_reg_r with (F2R (exp_lo prec K (- v))); [assumption|].
  replace (1 / F2R (exp_lo prec K (- v)) * F2R (exp_lo prec K (- v))) with 1
    by (field; lra).
  apply Rmult_le_reg_r with (/ exp (F2R v)); [now apply Rinv_0_lt_compat|].
  replace (exp (F2R v) * F2R (exp_lo prec K (- v)) * / exp (F2R v))
    with (F2R (exp_lo prec K (- v))) by (field; lra).
  lra.
Qed.

Lemma Q_down_le (n d : Z) : (0 < d)%Z -> F2R (Q_down prec n d) <= IZR n / IZR d.
Proof.
  intros Hd. unfold Fixed.F2R, Q_down. rewrite shiftl_scale.
  pose proof IZR_scale_pos as Hs.
  assert (Hd' : 0 < IZR d) by now apply IZR_lt.
  pose proof (IZR_div_floor (n * scale) d Hd) as H. rewrite mult_IZR in H.
  replace (IZR n / IZR d) with (IZR n * IZR scale / IZR d / IZR scale) by (field; lra).
  apply Rmult_le_compat_r; [left; now apply Rinv_0_lt_compat | exact H].
Qed.

Lemma Q_up_ge (n d : Z) : (0 < d)%Z -> IZR n / IZR d <= F2R (Q_up prec n d).
Proof.
  intros Hd. unfold Fixed.F2R, Q_up. rewrite shiftl_scale.
  pose proof IZR_scale_pos as Hs.
  assert (Hd' : 0 < IZR d) by now apply IZR_lt.
  pose proof (IZR_div_ceil (n * scale) d Hd) as H. rewrite mult_IZR in H.
  replace (IZR n / IZR d) with (IZR n * IZR scale / IZR d / IZR scale) by (field; lra).
  apply Rmult_le_compat_r; [left; now apply Rinv_0_lt_compat | exact H].
Qed.

Lemma exp_le (x y : R) : x <= y -> exp x <= exp y.
Proof.
  intros [H|H]; [left; now apply exp_increasing | rewrite H; apply Rle_refl].
Qed.

(** Bounds of [exp] at a fraction [n / d], checked by computation. *)
Lemma exp_Q_upper (K : nat) (n d un ud : Z) :
  (0 < d)%Z -> (0 < ud)%Z ->
  (0 < exp_lo prec K (- Q_up prec n d))%Z ->
  (exp_hi prec K (Q_up prec n d) <= Q_down prec un ud)%Z ->
  exp (IZR n / IZR d) <= IZR un / IZR ud.
Proof.
  intros Hd Hud Hpos Hle.
  apply Rle_trans with (exp (F2R (Q_up prec n d))); [apply exp_le; now apply Q_up_ge|].
  apply Rle_trans with (F2R (exp_hi prec K (Q_up prec n d))); [now apply exp_hi_sound|].
  apply Rle_trans with (F2R (Q_down prec un ud)); [now apply F2R_le | now apply Q_down_le].
Qed.

Lemma exp_Q_lower (K : nat) (n d ln ld : Z) :
  (0 < d)%Z -> (0 < ld)%Z ->
  (Q_up prec ln ld <= exp_lo prec K (Q_down prec n d))%Z ->
  IZR ln / IZR ld <= exp (IZR n / IZR d).
Proof.
  intros Hd Hld Hle.
  apply Rle_trans with (F2R (Q_up prec ln ld)); [now apply Q_up_ge|].
  apply Rle_trans with (F2R (exp_lo prec K (Q_down prec n d))); [now apply F2R_le|].
  apply Rle_trans with (exp (F2R (Q_down prec n d))); [apply exp_lo_sound|].
  apply exp_le. now apply Q_down_le.
Qed.

(** *** Bounds *)

Local Abbreviation encloses := (encloses prec).

Lemma iconst_sound (n d : Z) :
  (0 < d)%Z -> encloses (iconst prec n d) (IZR n / IZR d).
Proof. intros Hd. simpl. split; [now apply Q_down_le | now apply Q_up_ge]. Qed.

Lemma ipoint_sound (v : Z) : encloses (ipoint v) (F2R v).
Proof. simpl. split; apply Rle_refl. Qed.

Lemma ione_sound : encloses (ione prec) 1.
Proof. unfold ione. simpl. rewrite F2R_scale. lra. Qed.

Lemma iadd_sound (a b : bnd) (x y : R) :
  encloses a x -> encloses b y -> encloses (iadd a b) (x + y).
Proof.
  destruct a as [[al ah]|], b as [[bl bh]|]; simpl; trivial.
  rewrite !F2R_plus. lra.
Qed.

Lemma isub_sound (a b : bnd) (x y : R) :
  encloses a x -> encloses b y -> encloses (isub a b) (x - y).
Proof.
  destruct a as [[al ah]|], b as [[bl bh]|]; simpl; trivial.
  rewrite !F2R_minus. lra.
Qed.

Lemma ineg_sound (a : bnd) (x : R) : encloses a x -> encloses (ineg a) (- x).
Proof.
  destruct a as [[al ah]|]; simpl; trivial.
  rewrite !F2R_opp. lra.
Qed.

Lemma imul_sound (a b : bnd) (x y : R) :
  encloses a x -> encloses b y -> encloses (imul prec a b) (x * y).
Proof.
  destruct a as [[al ah]|], b as [[bl bh]|]; simpl; trivial.
  destruct (Z.leb_spec 0 al) as [Hal|]; simpl; trivial.
  destruct (Z.leb_spec 0 bl) as [Hbl|]; simpl; trivial.
  intros [Hx1 Hx2] [Hy1 Hy2].
  pose proof (F2R_nonneg al Hal). pose proof (F2R_nonneg bl Hbl).
  split.
  - apply Rle_trans with (F2R al * F2R bl); [apply mul_down_le|].
    apply Rmult_le_compat; assumption.
  - apply Rle_trans with (F2R ah * F2R bh); [|apply mul_up_ge].
    apply Rmult_le_compat; lra.
Qed.

Lemma idiv_sound (a b : bnd) (x y : R) :
  encloses a x -> encloses b y -> encloses (idiv prec a b) (x / y).
Proof.
  destruct a as [[al ah]|], b as [[bl bh]|]; simpl; trivial.
  destruct (Z.leb_spec 0 al) as [Hal|]; simpl; trivial.
  destruct (Z.ltb_spec 0 bl) as [Hbl|]; simpl; trivial.
  intros [Hx1 Hx2] [Hy1 Hy2].
  pose proof (F2R_nonneg al Hal). pose proof (F2R_pos bl Hbl).
  assert (Hbh : (0 < bh)%Z).
  { apply lt_IZR. apply Rmult_lt_reg_r with (/ IZR scale).
    - apply Rinv_0_lt_compat, IZR_scale_pos.
    - rewrite Rmult_0_l. change (0 < F2R bh). lra. }
  pose proof (F2R_pos bh Hbh).
  split.
  - apply Rle_trans with (F2R al / F2R bh); [now apply div_down_le|].
    unfold Rdiv. apply Rmult_le_compat; try lra.
    + left. now apply Rinv_0_lt_compat.
    + apply Rinv_le_contravar; lra.
  - apply Rle_trans with (F2R ah / F2R bl); [|now apply div_up_ge].
    unfold Rdiv. apply Rmult_le_compat; try lra.
    + left. apply Rinv_0_lt_compat. lra.
    + apply Rinv_le_contravar; lra.
Qed.

Lemma iexp_sound (K : nat) (a : bnd) (x : R) :
  encloses a x -> encloses (iexp prec K a) (exp x).
Proof.
  destruct a as [[al ah]|]; simpl; trivial.
  destruct (Z.ltb_spec 0 (exp_lo prec K (- ah))) as [Hl|]; simpl; trivial.
  intros [Hx1 Hx2]. split.
  - apply Rle_trans with (exp (F2R al)); [apply exp_lo_sound | now apply exp_le].
  - apply Rle_trans with (exp (F2R ah)); [now apply exp_le|].
    now apply exp_hi_sound.
Qed.

End FixedSound.

Lemma ln_lower (a x : R) : 0 < x -> exp a <= x -> a <= ln x.
Proof.
  intros Hx H. rewrite <- (ln_exp a).
  destruct H as [H|H]; [left; apply ln_increasing; [apply exp_pos | exact H] | rewrite H; lra].
Qed.

Lemma ln_upper (a x : R) : 0 < x -> x <= exp a -> ln x <= a.
Proof.
  intros Hx H. rewrite <- (ln_exp a).
  destruct H as [H|H]; [left; apply ln_increasing; assumption | rewrite H; lra].
Qed.

Lemma sqrt_between (a b x : R) :
  0 <= a -> 0 <= b -> a * a <= x -> x <= b * b -> a <= sqrt x <= b.
Proof.
  intros Ha Hb Hax Hxb. split.
  - rewrite <- (sqrt_square a Ha). apply sqrt_le_1_alt. exact Hax.
  - rewrite <- (sqrt_square b Hb). apply sqrt_le_1_alt. exact Hxb.
Qed.

(** ** The special-function core *)

Section Core.
Import NormalDistribution.

Lemma erf_at_0 : erf 0 = 1e-9.
Proof.
  unfold erf. destruct (Rge_dec 0 0) as [_|H]; [|lra].
  rewrite Rabs_R0.
  replace (- 0 * 0) with 0 by ring. rewrite exp_0.
  unfold erf_a1, erf_a2, erf_a3, erf_a4, erf_a5, erf_p. lra.
Qed.

Lemma normalCDF_at_0 : normalCDF 0 = 0.5000000005.
Proof.
  unfold normalCDF. replace (0 / sqrt 2) with 0 by (unfold Rdiv; ring).
  rewrite erf_at_0. lra.
Qed.

Lemma erf_odd_nonzero (x : R) : x <> 0 -> erf (- x) = - erf x.
Proof.
  intros Hx. unfold erf.
  destruct (Rge_dec x 0) as [Hge|Hlt]; destruct (Rge_dec (- x) 0) as [Hge'|Hlt'];
    try lra; rewrite Rabs_Ropp; ring.
Qed.

Lemma sqrt2_pos : 0 < sqrt 2.
Proof. apply sqrt_lt_R0; lra. Qed.

Lemma normalCDF_complement_nonzero (x : R) :
  x <> 0 -> normalCDF x + normalCDF (- x) = 1.
Proof.
  intros Hx. unfold normalCDF. pose proof sqrt2_pos as Hs.
  replace (- x / sqrt 2) with (- (x / sqrt 2)) by (field; lra).
  rewrite erf_odd_nonzero; [lra|].
  intros H0. apply Hx.
  replace x with (x / sqrt 2 * sqrt 2) by (field; lra). rewrite H0. ring.
Qed.

(** C7, as stated, fails at [x = 0]: the approximation gives
    [erf 0 = 1e-9], the sign taken at [0] is [+1] on both sides, and so
    [erf (-0)] is not [- erf 0], [normalCDF 0] is not [0.5] and
    [normalCDF 0 + normalCDF (-0)] is not [1]. *)
Lemma erf_not_odd_at_0 :
  erf (- 0) <> - erf 0 /\ normalCDF 0 + normalCDF (- 0) <> 1 /\ normalCDF 0 <> 0.5.
Proof.
  rewrite Ropp_0, erf_at_0, normalCDF_at_0. repeat split; lra.
Qed.

(** C7 (amended): for every [x <> 0], [erf (- x) = - erf x] and
    [normalCDF x + normalCDF (- x) = 1] hold exactly; at [0] the
    approximation returns [erf 0 = 1e-9] and [normalCDF 0 = 0.5000000005], so
    that for every [x] the odd symmetry holds within [2e-9], the complement
    law within [1e-9] and [normalCDF 0 = 0.5] within [1e-9]. *)
Theorem erf_odd_symmetry (x : R) :
  (x <> 0 -> erf (- x) = - erf x /\ normalCDF x + normalCDF (- x) = 1) /\
  erf 0 = 1e-9 /\ normalCDF 0 = 0.5000000005 /\
  Rabs (erf (- x) + erf x) <= 2e-9 /\
  Rabs (normalCDF x + normalCDF (- x) - 1) <= 1e-9 /\
  Rabs (normalCDF 0 - 0.5) <= 1e-9.
Proof.
  split; [|split; [|split; [|split; [|split]]]].
  - intros Hx. split; [now apply erf_odd_nonzero | now apply normalCDF_complement_nonzero].
  - exact erf_at_0.
  - exact normalCDF_at_0.
  - destruct (Req_dec x 0) as [->|Hx].
    + rewrite Ropp_0, erf_at_0. rewrite Rabs_pos_eq; lra.
    + rewrite erf_odd_nonzero by assumption.
      replace (- erf x + erf x) with 0 by ring. rewrite Rabs_R0. lra.
  - destruct (Req_dec x 0) as [->|Hx].
    + rewrite Ropp_0, normalCDF_at_0. rewrite Rabs_pos_eq; lra.
    + rewrite normalCDF_complement_nonzero by assumption.
      replace (1 - 1) with 0 by ring. rewrite Rabs_R0. lra.
  - rewrite normalCDF_at_0. rewrite Rabs_pos_eq; lra.
Qed.

Lemma erf_odd_symmetry_witness :
  erf (- 1) = - erf 1 /\ normalCDF 1 + normalCDF (- 1) = 1.
Proof. apply (proj1 (erf_odd_symmetry 1)). lra. Defined.

(** C3: [normalInverseCDF p] throws the invalid-probability error exactly
    when [p <= 0] or [p >= 1], and returns a number exactly when
    [0 < p < 1]; nothing is clamped. *)
Theorem normalInverseCDF_throws_iff (p : R) :
  (normalInverseCDF p = Throw invalid_probability <-> p <= 0 \/ p >= 1) /\
  ((exists x, normalInverseCDF p = Return x) <-> 0 < p < 1).
Proof.
  unfold normalInverseCDF.
  destruct (Rle_dec p 0) as [H0|H0].
  { split; split; intros H; try lra; try (left; assumption); try reflexivity.
    destruct H as [x Hx]. discriminate. }
  destruct (Rge_dec p 1) as [H1|H1].
  { split; split; intros H; try lra; try (right; assumption); try reflexivity.
    destruct H as [x Hx]. discriminate. }
  destruct (Rlt_dec (Rabs (p - 0.5)) 0.42); split; split; intros H;
    try discriminate; try lra; eexists; reflexivity.
Qed.

End Core.

(** ** The curve discretizer *)

Section Curves.
Import NormalDistribution.

Variable pdf : R -> R.
Variables xMin step : R.

Let point (k : nat) : DensitySample :=
  mkSample (xMin + INR k * step) (pdf (xMin + INR k * step)).

Lemma sample_loop_map (n : nat) : forall (i : nat) (data : list DensitySample),
  sample_loop pdf xMin step n i data = data ++ map point (seq i n).
Proof.
  induction n as [|n IH]; intros i data; simpl.
  - now rewrite app_nil_r.
  - rewrite IH, <- app_assoc. reflexivity.
Qed.

Lemma sample_loop_length (n : nat) :
  length (sample_loop pdf xMin step n 0 []) = n.
Proof. rewrite sample_loop_map. simpl. now rewrite length_map, length_seq. Qed.

Lemma sample_loop_nth (n i : nat) :
  (i < n)%nat -> nth_error (sample_loop pdf xMin step n 0 []) i = Some (point i).
Proof.
  intros Hi. rewrite sample_loop_map. simpl.
  rewrite nth_error_map, nth_error_seq.
  destruct (Nat.ltb_spec i n); [reflexivity | lia].
Qed.

Lemma sample_loop_xs_nth (n i : nat) (a : R) :
  nth_error (map x (sample_loop pdf xMin step n 0 [])) i = Some a ->
  (i < n)%nat /\ a = xMin + INR i * step.
Proof.
  intros H. assert (Hi : (i < n)%nat).
  { assert (Hn : nth_error (map x (sample_loop pdf xMin step n 0 [])) i <> None)
      by (rewrite H; discriminate).
    apply nth_error_Some in Hn.
    now rewrite length_map, sample_loop_length in Hn. }
  split; [assumption|].
  rewrite nth_error_map, sample_loop_nth in H by assumption.
  simpl in H. now injection H as <-.
Qed.

Lemma sample_loop_increasing (n : nat) :
  0 < step -> strictly_increasing (map x (sample_loop pdf xMin step n 0 [])).
Proof.
  intros Hs i j a b Ha Hb Hij.
  apply sample_loop_xs_nth in Ha as [_ ->]. apply sample_loop_xs_nth in Hb as [_ ->].
  apply lt_INR in Hij. nra.
Qed.

Lemma sample_loop_increasing_inv (n : nat) :
  (2 <= n)%nat -> strictly_increasing (map x (sample_loop pdf xMin step n 0 [])) ->
  0 < step.
Proof.
  intros Hn Hinc.
  specialize (Hinc 0%nat 1%nat (xMin + INR 0 * step) (xMin + INR 1 * step)).
  rewrite !nth_error_map, !sample_loop_nth in Hinc by lia.
  specialize (Hinc eq_refl eq_refl ltac:(lia)). simpl in Hinc. lra.
Qed.

End Curves.

Section Discretizer.
Import NormalDistribution.

Lemma count_pred (numPoints : Z) :
  (2 <= numPoints)%Z ->
  INR (Z.to_nat numPoints - 1) = IZR numPoints - 1 /\ 0 < IZR numPoints - 1.
Proof.
  intros Hn. split.
  - rewrite minus_INR by lia. rewrite INR_IZR_INZ, Z2Nat.id by lia. simpl. lra.
  - apply IZR_le in Hn. lra.
Qed.

(** What both generators return, in terms of their bounds [xMin], [xMax] and
    of the density [pdf] they sample. *)
Lemma sample_loop_curve (pdf : R -> R) (xMin xMax : R) (numPoints : Z) :
  (2 <= numPoints)%Z ->
  let step := (xMax - xMin) / (IZR numPoints - 1) in
  let data := sample_loop pdf xMin step (Z.to_nat numPoints) 0 [] in
  length data = Z.to_nat numPoints /\
  (forall i : nat, (i < Z.to_nat numPoints)%nat ->
     nth_error data i =
       Some (mkSample (xMin + INR i * step) (pdf (xMin + INR i * step)))) /\
  nth_error (map x data) 0 = Some xMin /\
  nth_error (map x data) (Z.to_nat numPoints - 1) = Some xMax /\
  (forall (i : nat) (a b : R),
     nth_error (map x data) i = Some a -> nth_error (map x data) (S i) = Some b ->
     b - a = step) /\
  (strictly_increasing (map x data) <-> xMin < xMax).
Proof.
  intros Hn step data. destruct (count_pred numPoints Hn) as [Hpred Hpos].
  split; [apply sample_loop_length|].
  split; [intros i Hi; now apply sample_loop_nth|].
  split.
  { unfold data. rewrite nth_error_map, sample_loop_nth by lia. simpl.
    f_equal. ring. }
  split.
  { unfold data. rewrite nth_error_map, sample_loop_nth by lia. simpl.
    f_equal. rewrite Hpred. unfold step. field. lra. }
  split.
  { intros i a b Ha Hb.
    apply sample_loop_xs_nth in Ha as [_ ->]. apply sample_loop_xs_nth in Hb as [_ ->].
    rewrite S_INR. ring. }
  assert (Hstep : 0 < step <-> xMin < xMax).
  { unfold step. split; intros H.
    - apply Rmult_lt_compat_r with (r := IZR numPoints - 1) in H; [|assumption].
      replace ((xMax - xMin) / (IZR numPoints - 1) * (IZR numPoints - 1))
        with (xMax - xMin) in H by (field; lra). lra.
    - apply Rdiv_lt_0_compat; lra. }
  rewrite <- Hstep. split.
  - apply sample_loop_increasing_inv. lia.
  - apply sample_loop_increasing.
Qed.

(** C2, as stated, fails for a degenerate spread: with [stdDev = 0] (the
    standard deviation that [risk = 0] produces) the three samples of
    [generateNormalDistributionData 100 0 3 3] all have [x = 100]. *)
Lemma generateNormalDistributionData_not_increasing :
  map x (generateNormalDistributionData 100 0 3 3) = [100; 100; 100] /\
  ~ strictly_increasing (map x (generateNormalDistributionData 100 0 3 3)).
Proof.
  assert (H : map x (generateNormalDistributionData 100 0 3 3) = [100; 100; 100]).
  { unfold generateNormalDistributionData. simpl.
    replace (100 - 3 * 0) with 100 by ring. replace (100 + 3 * 0) with 100 by ring.
    rewrite Rmax_right by lra.
    repeat f_equal; field. }
  split; [exact H|]. rewrite H. intros Hinc.
  specialize (Hinc 0%nat 1%nat 100 100 eq_refl eq_refl ltac:(lia)). lra.
Qed.

(** C2 (amended): for every [mean], [stdDev], [numStdDev] and every
    [numPoints >= 2], [generateNormalDistributionData] returns exactly
    [numPoints] samples, equally spaced in [x], the first at
    [max (0, mean - numStdDev * stdDev)], the last at
    [mean + numStdDev * stdDev], each with
    [y = normalPDFGeneral (x, mean, stdDev)]; the [x] values are strictly
    increasing exactly when the lower bound is below the upper bound.  In
    particular [generateNormalDistributionData (100, 10, 300, 3)] has 300
    samples, strictly increasing, from [x = 70] to [x = 130]. *)
Theorem generateNormalDistributionData_curve :
  (forall (mean stdDev numStdDev : R) (numPoints : Z),
     (2 <= numPoints)%Z ->
     let xMin := Rmax 0 (mean - numStdDev * stdDev) in
     let xMax := mean + numStdDev * stdDev in
     let step := (xMax - xMin) / (IZR numPoints - 1) in
     let data := generateNormalDistributionData mean stdDev numPoints numStdDev in
     length data = Z.to_nat numPoints /\
     (forall i : nat, (i < Z.to_nat numPoints)%nat ->
        nth_error data i =
          Some (mkSample (xMin + INR i * step)
                  (normalPDFGeneral (xMin + INR i * step) mean stdDev))) /\
     nth_error (map x data) 0 = Some xMin /\
     nth_error (map x data) (Z.to_nat numPoints - 1) = Some xMax /\
     (forall (i : nat) (a b : R),
        nth_error (map x data) i = Some a ->
        nth_error (map x data) (S i) = Some b -> b - a = step) /\
     (strictly_increasing (map x data) <-> xMin < xMax)) /\
  (let data := generateNormalDistributionData 100 10 300 3 in
   length data = 300%nat /\
   strictly_increasing (map x data) /\
   nth_error (map x data) 0 = Some 70 /\
   nth_error (map x data) 299 = Some 130).
Proof.
  assert (Hgen : forall (mean stdDev numStdDev : R) (numPoints : Z),
     (2 <= numPoints)%Z ->
     let xMin := Rmax 0 (mean - numStdDev * stdDev) in
     let xMax := mean + numStdDev * stdDev in
     let step := (xMax - xMin) / (IZR numPoints - 1) in
     let data := generateNormalDistributionData mean stdDev numPoints numStdDev in
     length data = Z.to_nat numPoints /\
     (forall i : nat, (i < Z.to_nat numPoints)%nat ->
        nth_error data i =
          Some (mkSample (xMin + INR i * step)
                  (normalPDFGeneral (xMin + INR i * step) mean stdDev))) /\
     nth_error (map x data) 0 = Some xMin /\
     nth_error (map x data) (Z.to_nat numPoints - 1) = Some xMax /\
     (forall (i : nat) (a b : R),
        nth_error (map x data) i = Some a ->
        nth_error (map x data) (S i) = Some b -> b - a = step) /\
     (strictly_increasing (map x data) <-> xMin < xMax)).
  { intros mean stdDev numStdDev numPoints Hn.
    exact (sample_loop_curve (fun x => normalPDFGeneral x mean stdDev)
             (Rmax 0 (mean - numStdDev * stdDev)) (mean + numStdDev * stdDev)
             numPoints Hn). }
  split; [exact Hgen|].
  destruct (Hgen 100 10 3 300%Z ltac:(lia)) as (Hlen & _ & Hfirst & Hlast & _ & Hinc).
  assert (Hmin : Rmax 0 (100 - 3 * 10) = 70) by (rewrite Rmax_right; lra).
  assert (Hmax : 100 + 3 * 10 = 130) by lra.
  rewrite Hmin in Hfirst, Hinc. rewrite Hmax in Hlast, Hinc.
  cbv zeta. split; [exact Hlen|]. split; [apply Hinc; lra|].
  split; [exact Hfirst | exact Hlast].
Qed.

Lemma generateNormalDistributionData_curve_witness :
  length (generateNormalDistributionData 100 10 2 3) = 2%nat.
Proof.
  exact (proj1 (proj1 generateNormalDistributionData_curve 100 10 3 2%Z ltac:(lia))).
Defined.

(** C6: for every [logMean], [logStdDev], [numStdDev] and every
    [numPoints >= 2], [generateLognormalDistributionData] returns exactly
    [numPoints] samples whose [x] values are equally spaced on the natural
    scale (constant difference, not constant ratio), the first at
    [exp (max (0, logMean - numStdDev * logStdDev))], the last at
    [exp (logMean + numStdDev * logStdDev)], each with
    [y = lognormalPDF (x, logMean, logStdDev)]. *)
Theorem generateLognormalDistributionData_curve
    (logMean logStdDev numStdDev : R) (numPoints : Z) :
  (2 <= numPoints)%Z ->
  let xMin := exp (Rmax 0 (logMean - numStdDev * logStdDev)) in
  let xMax := exp (logMean + numStdDev * logStdDev) in
  let step := (xMax - xMin) / (IZR numPoints - 1) in
  let data :=
    Lognormal.generateLognormalDistributionData logMean logStdDev numPoints numStdDev in
  length data = Z.to_nat numPoints /\
  (forall i : nat, (i < Z.to_nat numPoints)%nat ->
     nth_error data i =
       Some (mkSample (xMin + INR i * step)
               (Lognormal.lognormalPDF (xMin + INR i * step) logMean logStdDev))) /\
  nth_error (map x data) 0 = Some xMin /\
  nth_error (map x data) (Z.to_nat numPoints - 1) = Some xMax /\
  (forall (i : nat) (a b : R),
     nth_error (map x data) i = Some a ->
     nth_error (map x data) (S i) = Some b -> b - a = step).
Proof.
  intros Hn.
  pose proof (sample_loop_curve (fun x => Lognormal.lognormalPDF x logMean logStdDev)
                (exp (Rmax 0 (logMean - numStdDev * logStdDev)))
                (exp (logMean + numStdDev * logStdDev)) numPoints Hn) as H.
  cbv zeta in H |- *.
  destruct H as (H1 & H2 & H3 & H4 & H5 & _).
  unfold Lognormal.generateLognormalDistributionData.
  repeat split; assumption.
Qed.

Lemma generateLognormalDistributionData_curve_witness :
  length (Lognormal.generateLognormalDistributionData 14 0.5 300 3) = 300%nat.
Proof.
  exact (proj1 (generateLognormalDistributionData_curve 14 0.5 3 300%Z ltac:(lia))).
Defined.

(** C8: for every [x <= 0] and every [logMean] and [logStdDev],
    [lognormalPDF] and [lognormalCDF] return exactly [0]; no error is
    raised (neither function has a throwing path). *)
Theorem lognormal_nonpositive (x logMean logStdDev : R) :
  x <= 0 ->
  Lognormal.lognormalPDF x logMean logStdDev = 0 /\
  Lognormal.lognormalCDF x logMean logStdDev = 0.
Proof.
  intros Hx. unfold Lognormal.lognormalPDF, Lognormal.lognormalCDF.
  destruct (Rle_dec x 0) as [_|H]; [split; reflexivity | contradiction].
Qed.

Lemma lognormal_nonpositive_witness :
  Lognormal.lognormalPDF 0 14 0 = 0 /\ Lognormal.lognormalCDF 0 14 0 = 0.
Proof. apply lognormal_nonpositive. lra. Defined.

End Discretizer.

(** ** The distribution parameter model *)

Section Parameters.
Import NormalDistribution.

Lemma sqrt_10_bounds : 3.16227766 <= sqrt 10 <= 3.16227767.
Proof. apply sqrt_between; lra. Qed.

Lemma Math_pow_nat (b : R) (n : nat) : NormalApprox.Math_pow b (INR n) = b ^ n.
Proof.
  unfold NormalApprox.Math_pow. rewrite Int_part_INR, <- INR_IZR_INZ.
  destruct (Req_dec_T (INR n) (INR n)) as [_|H]; [|contradiction].
  now rewrite <- pow_powerRZ.
Qed.

Lemma Math_pow_Rpower (b e : R) : 0 < b -> NormalApprox.Math_pow b e = Rpower b e.
Proof.
  intros Hb. unfold NormalApprox.Math_pow.
  destruct (Req_dec_T e (IZR (Int_part e))) as [He|He].
  - rewrite powerRZ_Rpower by assumption. now rewrite <- He.
  - destruct (Rlt_dec 0 b); [reflexivity | contradiction].
Qed.

Lemma Math_pow_pos (b e : R) : 0 < b -> 0 < NormalApprox.Math_pow b e.
Proof.
  intros Hb. rewrite Math_pow_Rpower by assumption. unfold Rpower. apply exp_pos.
Qed.

Lemma Math_pow_10 (b : R) : NormalApprox.Math_pow b 10 = b ^ 10.
Proof.
  replace 10 with (INR 10) by (simpl; lra). apply Math_pow_nat.
Qed.

Lemma normal_example_mean :
  NormalApprox.mean (NormalApprox.calculateInvestmentDistribution example_params) =
  1000000 * 1.075 ^ 10.
Proof.
  unfold NormalApprox.calculateInvestmentDistribution, example_params. simpl.
  rewrite Math_pow_10. f_equal. f_equal. lra.
Qed.

(** C5: with [initialAssets > 0], [risk >= 0] and [years > 0] the
    normal-approximation [calculateInvestmentDistribution] returns
    [mean = initialAssets * (1 + expectedReturn / 100) ^ years] (the real
    power when the base is positive, the iterated product when [years] is a
    whole number) and [stdDev = mean * (risk / 100) * sqrt years]; for
    [initialAssets = 1000000], [expectedReturn = 7.5], [risk = 18],
    [years = 10] the mean is within [1] of [2061032] and the standard
    deviation within 1% of [1173000]. *)
Theorem normal_variant_statistics :
  (forall params : InvestmentDistributionParams,
     initialAssets params > 0 -> risk params >= 0 -> years params > 0 ->
     let s := NormalApprox.calculateInvestmentDistribution params in
     NormalApprox.mean s =
       initialAssets params *
       NormalApprox.Math_pow (1 + expectedReturn params / 100) (years params) /\
     (0 < 1 + expectedReturn params / 100 ->
      NormalApprox.mean s =
        initialAssets params * Rpower (1 + expectedReturn params / 100) (years params)) /\
     (forall n : nat, years params = INR n ->
      NormalApprox.mean s = initialAssets params * (1 + expectedReturn params / 100) ^ n) /\
     NormalApprox.stdDev s =
       NormalApprox.mean s * (risk params / 100) * sqrt (years params)) /\
  (let s := NormalApprox.calculateInvestmentDistribution example_params in
   Rabs (NormalApprox.mean s - 2061032) <= 1 /\
   Rabs (NormalApprox.stdDev s - 1173000) <= 0.01 * 1173000).
Proof.
  split.
  - intros params Hassets Hrisk Hyears s. unfold s.
    unfold NormalApprox.calculateInvestmentDistribution. simpl.
    split; [reflexivity|]. split; [|split; [|reflexivity]].
    + intros Hb. now rewrite Math_pow_Rpower.
    + intros n Hn. now rewrite Hn, Math_pow_nat.
  - cbv zeta.
    assert (Hm : NormalApprox.mean
                   (NormalApprox.calculateInvestmentDistribution example_params)
                 = 1000000 * 1.075 ^ 10) by exact normal_example_mean.
    assert (Hs : NormalApprox.stdDev
                   (NormalApprox.calculateInvestmentDistribution example_params)
                 = 1000000 * 1.075 ^ 10 * (18 / 100) * sqrt 10).
    { rewrite <- Hm. reflexivity. }
    rewrite Hm, Hs. pose proof sqrt_10_bounds as [Hlo Hhi].
    split; apply Rabs_le; split; lra.
Qed.

Lemma normal_variant_statistics_witness :
  NormalApprox.stdDev (NormalApprox.calculateInvestmentDistribution example_params) =
  NormalApprox.mean (NormalApprox.calculateInvestmentDistribution example_params)
  * (18 / 100) * sqrt 10.
Proof.
  refine (proj2 (proj2 (proj2 (proj1 normal_variant_statistics example_params _ _ _))));
    simpl; lra.
Defined.

Lemma ln_1000000_bounds : 13.8155 <= ln 1000000 <= 13.8156.
Proof.
  split.
  - apply ln_lower; [lra|].
    replace 13.8155 with (IZR 138155 / IZR 10000) by lra.
    replace 1000000 with (IZR 1000000 / IZR 1) by lra.
    apply exp_Q_upper with (prec := 64%Z) (K := 30%nat);
      try reflexivity; vm_compute; discriminate.
  - apply ln_upper; [lra|].
    replace 13.8156 with (IZR 138156 / IZR 10000) by lra.
    replace 1000000 with (IZR 1000000 / IZR 1) by lra.
    apply exp_Q_lower with (prec := 64%Z) (K := 30%nat);
      try reflexivity; vm_compute; discriminate.
Qed.

Lemma exp_075_bounds : 2.1169999 <= exp 0.75 <= 2.1170001.
Proof.
  replace 0.75 with (IZR 75 / IZR 100) by lra. split.
  - replace 2.1169999 with (IZR 21169999 / IZR 10000000) by lra.
    apply exp_Q_lower with (prec := 64%Z) (K := 30%nat);
      try reflexivity; vm_compute; discriminate.
  - replace 2.1170001 with (IZR 21170001 / IZR 10000000) by lra.
    apply exp_Q_upper with (prec := 64%Z) (K := 30%nat);
      try reflexivity; vm_compute; discriminate.
Qed.

Lemma lognormal_example_values :
  let s := Lognormal.calculateInvestmentDistribution example_params in
  Lognormal.logMean s = ln 1000000 + 0.588 /\
  Lognormal.logStdDev s = 0.18 * sqrt 10 /\
  Lognormal.mean s = 1000000 * exp 0.75.
Proof.
  unfold Lognormal.calculateInvestmentDistribution, example_params. simpl.
  split; [|split].
  - lra.
  - lra.
  - f_equal. f_equal. lra.
Qed.

(** C1, as stated, fails in its worked example: for [initialAssets =
    1000000], [expectedReturn = 7.5], [risk = 18], [years = 10] the code
    returns [logMean = ln 1000000 + 0.588], which is above [14.4] and so not
    within 1% (nor within 3%) of [13.9654]. *)
Lemma lognormal_example_logMean_not_13_9654 :
  let s := Lognormal.calculateInvestmentDistribution example_params in
  14.4 < Lognormal.logMean s /\
  ~ Rabs (Lognormal.logMean s - 13.9654) <= 0.01 * 13.9654.
Proof.
  destruct lognormal_example_values as (Hm & _ & _). cbv zeta in *.
  rewrite Hm. pose proof ln_1000000_bounds as [Hlo Hhi].
  split; [lra|]. intros H. unfold Rabs in H.
  destruct (Rcase_abs (ln 1000000 + 0.588 - 13.9654)); lra.
Qed.

(** C1 (amended): with [initialAssets > 0], [risk >= 0] and [years > 0] the
    lognormal [calculateInvestmentDistribution] returns
    [logMean = ln initialAssets + (expectedReturn/100 - (risk/100)^2/2) * years],
    [logStdDev = (risk/100) * sqrt years],
    [mean = initialAssets * exp ((expectedReturn/100) * years)] and
    [stdDev = mean * sqrt (exp ((risk/100)^2 * years) - 1)], which are the
    moments [exp (logMean + logStdDev^2/2)] and
    [mean * sqrt (exp (logStdDev^2) - 1)] of that lognormal law; for
    [initialAssets = 1000000], [expectedReturn = 7.5], [risk = 18],
    [years = 10] it yields [logMean] between [14.4035] and [14.4036] (not
    [13.9654]), [logStdDev] between [0.5692] and [0.5693] and [mean] within
    [1] of [2117000]. *)
Theorem lognormal_variant_statistics :
  (forall params : InvestmentDistributionParams,
     initialAssets params > 0 -> risk params >= 0 -> years params > 0 ->
     let s := Lognormal.calculateInvestmentDistribution params in
     Lognormal.logMean s =
       ln (initialAssets params) +
       (expectedReturn params / 100 - (risk params / 100) ^ 2 / 2) * years params /\
     Lognormal.logStdDev s = risk params / 100 * sqrt (years params) /\
     Lognormal.mean s =
       initialAssets params * exp (expectedReturn params / 100 * years params) /\
     Lognormal.stdDev s =
       Lognormal.mean s * sqrt (exp ((risk params / 100) ^ 2 * years params) - 1) /\
     Lognormal.mean s = exp (Lognormal.logMean s + Lognormal.logStdDev s ^ 2 / 2) /\
     Lognormal.stdDev s =
       Lognormal.mean s * sqrt (exp (Lognormal.logStdDev s ^ 2) - 1)) /\
  (let s := Lognormal.calculateInvestmentDistribution example_params in
   14.4035 <= Lognormal.logMean s <= 14.4036 /\
   0.5692 <= Lognormal.logStdDev s <= 0.5693 /\
   Rabs (Lognormal.mean s - 2117000) <= 1).
Proof.
  split.
  - intros params Hassets Hrisk Hyears s. unfold s.
    unfold Lognormal.calculateInvestmentDistribution. simpl.
    assert (Hsq : sqrt (years params) * sqrt (years params) = years params)
      by (apply sqrt_sqrt; lra).
    assert (Hvar : risk params / 100 * sqrt (years params) *
                   (risk params / 100 * sqrt (years params) * 1)
                   = risk params / 100 * (risk params / 100) * years params).
    { rewrite Rmult_1_r.
      transitivity (risk params / 100 * (risk params / 100) *
                    (sqrt (years params) * sqrt (years params))); [ring|].
      now rewrite Hsq. }
    split; [f_equal; f_equal; field|].
    split; [reflexivity|].
    split; [reflexivity|].
    split; [do 4 f_equal; ring|].
    split.
    + rewrite Hvar.
      replace (ln (initialAssets params) +
               (expectedReturn params / 100 -
                risk params / 100 * (risk params / 100) / 2) * years params +
               risk params / 100 * (risk params / 100) * years params / 2)
        with (ln (initialAssets params) + expectedReturn params / 100 * years params)
        by field.
      rewrite exp_plus, exp_ln by lra. reflexivity.
    + now rewrite Hvar.
  - destruct lognormal_example_values as (Hm & Hs & Hmean). cbv zeta in *.
    rewrite Hm, Hs, Hmean.
    pose proof ln_1000000_bounds as [Hlo Hhi].
    pose proof sqrt_10_bounds as [Hslo Hshi].
    pose proof exp_075_bounds as [Helo Hehi].
    split; [lra|]. split; [lra|]. apply Rabs_le. lra.
Qed.

Lemma lognormal_variant_statistics_witness :
  Lognormal.logStdDev (Lognormal.calculateInvestmentDistribution example_params) =
  18 / 100 * sqrt 10.
Proof.
  refine (proj1 (proj2 (proj1 lognormal_variant_statistics example_params _ _ _)));
    simpl; lra.
Defined.

End Parameters.

(** ** The worst case of the distribution pages *)

Section Pages.
Import NormalDistribution.








(** C10: a probability threshold of [100] (likewise [0]) passes the range
    check of the settings form and the one of the URL parser, and with it
    both distribution pages call [normalInverseCDF] at [0] (respectively
    [1]) and throw the invalid-probability error, for every duration and
    investment-ratio override. *)
Theorem invalid_probability_reachable (years : R) (tr : option R) :
  let s100 := Settings.mkSettings 10000000 50 100 8 15 in
  let s0 := Settings.mkSettings 10000000 50 0 8 15 in
  let url t := Settings.mkUrl None None (Some (Settings.Num t)) None None in
  (Settings.handleSubmit s100 = Settings.UpdateSettings s100 /\
   Settings.restoreFromUrl Settings.defaultSettings (url 100) = s100 /\
   normalInverseCDF (1 - 100 / 100) = Throw invalid_probability /\
   NormalPage.DistributionPage s100 years None tr = Throw invalid_probability /\
   LognormalPage.DistributionPage s100 years None tr = Throw invalid_probability) /\
  (Settings.handleSubmit s0 = Settings.UpdateSettings s0 /\
   Settings.restoreFromUrl Settings.defaultSettings (url 0) = s0 /\
   normalInverseCDF (1 - 0 / 100) = Throw invalid_probability /\
   NormalPage.DistributionPage s0 years None tr = Throw invalid_probability /\
   LognormalPage.DistributionPage s0 years None tr = Throw invalid_probability).
Proof.
  cbv zeta.
  assert (H100 : normalInverseCDF (1 - 100 / 100) = Throw invalid_probability).
  { apply (proj1 (normalInverseCDF_throws_iff _)). left. lra. }
  assert (H0 : normalInverseCDF (1 - 0 / 100) = Throw invalid_probability).
  { apply (proj1 (normalInverseCDF_throws_iff _)). right. lra. }
  assert (Hsubmit : forall t : R, 0 <= t <= 100 ->
            Settings.handleSubmit (Settings.mkSettings 10000000 50 t 8 15)
            = Settings.UpdateSettings (Settings.mkSettings 10000000 50 t 8 15)).
  { intros t Ht. unfold Settings.handleSubmit. simpl.
    destruct (Rle_dec 10000000 0); [lra|].
    destruct (Rlt_dec 50 0); [lra|]. destruct (Rgt_dec 50 100); [lra|].
    destruct (Rlt_dec t 0); [lra|]. destruct (Rgt_dec t 100); [lra|].
    destruct (Rlt_dec 15 0); [lra|]. reflexivity. }
  assert (Hurl : forall t : R, 0 <= t <= 100 ->
            Settings.restoreFromUrl Settings.defaultSettings
              (Settings.mkUrl None None (Some (Settings.Num t)) None None)
            = Settings.mkSettings 10000000 50 t 8 15).
  { intros t Ht. unfold Settings.restoreFromUrl, Settings.restore_field. simpl.
    unfold Settings.ge0, Settings.le100.
    destruct (Rge_dec t 0); [|lra]. destruct (Rle_dec t 100); [|lra]. reflexivity. }
  split; (split; [apply Hsubmit; lra|]); (split; [apply Hurl; lra|]).
  - split; [exact H100|].
    unfold NormalPage.DistributionPage, LognormalPage.DistributionPage. simpl.
    rewrite H100. split; reflexivity.
  - split; [exact H0|].
    unfold NormalPage.DistributionPage, LognormalPage.DistributionPage. simpl.
    rewrite H0. split; reflexivity.
Qed.

End Pages.

(** ** The round trip: shape and monotonicity of the two approximations *)

Section RoundTripReal.
Import NormalDistribution RoundTrip.

Lemma bernstein_nonneg (c s t : R) (k l m n : nat) :
  0 <= s <= c -> 0 <= t <= c ->
  0 <= s ^ k * (c - s) ^ l * (t ^ m * (c - t) ^ n).
Proof.
  intros Hs Ht. apply Rmult_le_pos; apply Rmult_le_pos; apply pow_le; lra.
Qed.

(** The divided difference of [erf_poly] is non-negative on the unit
    square: it is a combination with non-negative coefficients of the
    Bernstein products of degree four. *)
Lemma erf_poly_divided_difference (s t : R) :
  0 <= s <= 1 -> 0 <= t <= 1 ->
  0 <= erf_a1 + erf_a2 * (s + t) + erf_a3 * (s * s + s * t + t * t)
       + erf_a4 * (s * s * s + s * s * t + s * t * t + t * t * t)
       + erf_a5 * (s * s * s * s + s * s * s * t + s * s * t * t
                   + s * t * t * t + t * t * t * t).
Proof.
  intros Hs Ht.
  pose proof (bernstein_nonneg 1 s t 0 4 0 4 Hs Ht).
  pose proof (bernstein_nonneg 1 s t 0 4 1 3 Hs Ht).
  pose proof (bernstein_nonneg 1 s t 0 4 2 2 Hs Ht).
  pose proof (bernstein_nonneg 1 s t 0 4 3 1 Hs Ht).
  pose proof (bernstein_nonneg 1 s t 0 4 4 0 Hs Ht).
  pose proof (bernstein_nonneg 1 s t 1 3 0 4 Hs Ht).
  pose proof (bernstein_nonneg 1 s t 1 3 1 3 Hs Ht).
  pose proof (bernstein_nonneg 1 s t 1 3 2 2 Hs Ht).
  pose proof (bernstein_nonneg 1 s t 1 3 3 1 Hs Ht).
  pose proof (bernstein_nonneg 1 s t 1 3 4 0 Hs Ht).
  pose proof (bernstein_nonneg 1 s t 2 2 0 4 Hs Ht).
  pose proof (bernstein_nonneg 1 s t 2 2 1 3 Hs Ht).
  pose proof (bernstein_nonneg 1 s t 2 2 2 2 Hs Ht).
  pose proof (bernstein_nonneg 1 s t 2 2 3 1 Hs Ht).
  pose proof (bernstein_nonneg 1 s t 2 2 4 0 Hs Ht).
  pose proof (bernstein_nonneg 1 s t 3 1 0 4 Hs Ht).
  pose proof (bernstein_nonneg 1 s t 3 1 1 3 Hs Ht).
  pose proof (bernstein_nonneg 1 s t 3 1 2 2 Hs Ht).
  pose proof (bernstein_nonneg 1 s t 3 1 3 1 Hs Ht).
  pose proof (bernstein_nonneg 1 s t 3 1 4 0 Hs Ht).
  pose proof (bernstein_nonneg 1 s t 4 0 0 4 Hs Ht).
  pose proof (bernstein_nonneg 1 s t 4 0 1 3 Hs Ht).
  pose proof (bernstein_nonneg 1 s t 4 0 2 2 Hs Ht).
  pose proof (bernstein_nonneg 1 s t 4 0 3 1 Hs Ht).
  pose proof (bernstein_nonneg 1 s t 4 0 4 0 Hs Ht).
  unfold erf_a1, erf_a2, erf_a3, erf_a4, erf_a5. lra.
Qed.

Lemma erf_poly_increasing (s t : R) :
  0 <= s -> s <= t -> t <= 1 -> erf_poly s <= erf_poly t.
Proof.
  intros Hs Hst Ht.
  pose proof (erf_poly_divided_difference s t ltac:(lra) ltac:(lra)) as HV.
  assert (Hd : 0 <= erf_poly t - erf_poly s); [|lra].
  replace (erf_poly t - erf_poly s)
    with ((t - s) *
          (erf_a1 + erf_a2 * (s + t) + erf_a3 * (s * s + s * t + t * t)
           + erf_a4 * (s * s * s + s * s * t + s * t * t + t * t * t)
           + erf_a5 * (s * s * s * s + s * s * s * t + s * s * t * t
                       + s * t * t * t + t * t * t * t)))
    by (unfold erf_poly; ring).
  apply Rmult_le_pos; lra.
Qed.

Lemma erf_poly_0 : erf_poly 0 = 0.
Proof. unfold erf_poly. ring. Qed.

Lemma erf_poly_1 : erf_poly 1 = 0.999999999.
Proof. unfold erf_poly, erf_a1, erf_a2, erf_a3, erf_a4, erf_a5. lra. Qed.

Lemma erf_poly_range (t : R) : 0 <= t <= 1 -> 0 <= erf_poly t <= 1.
Proof.
  intros [H0 H1]. split.
  - rewrite <- erf_poly_0. apply erf_poly_increasing; lra.
  - apply Rle_trans with (erf_poly 1); [apply erf_poly_increasing; lra|].
    rewrite erf_poly_1. lra.
Qed.

Lemma erf_p_pos : 0 < erf_p.
Proof. unfold erf_p. lra. Qed.

(** The argument [t = 1 / (1 + p * u)] of the polynomial. *)
Lemma erf_t_range (u : R) : 0 <= u -> 0 < 1 / (1 + erf_p * u) <= 1.
Proof.
  intros Hu. pose proof erf_p_pos as Hp.
  assert (Hd : 1 <= 1 + erf_p * u) by nra.
  split.
  - apply Rdiv_lt_0_compat; lra.
  - apply Rmult_le_reg_r with (1 + erf_p * u); [lra|].
    replace (1 / (1 + erf_p * u) * (1 + erf_p * u)) with 1 by (field; lra). lra.
Qed.

Lemma erf_t_decreasing (u1 u2 : R) :
  0 <= u1 -> u1 <= u2 -> 1 / (1 + erf_p * u2) <= 1 / (1 + erf_p * u1).
Proof.
  intros H1 H12. pose proof erf_p_pos as Hp.
  assert (Hd1 : 1 <= 1 + erf_p * u1) by nra.
  assert (Hd12 : 1 + erf_p * u1 <= 1 + erf_p * u2) by nra.
  unfold Rdiv. rewrite !Rmult_1_l. apply Rinv_le_contravar; lra.
Qed.

Lemma erfc_approx_range (u : R) : 0 <= u -> 0 <= erfc_approx u <= 1.
Proof.
  intros Hu. unfold erfc_approx.
  pose proof (erf_t_range u Hu) as [Ht0 Ht1].
  pose proof (erf_poly_range _ (conj (Rlt_le _ _ Ht0) Ht1)) as [Hq0 Hq1].
  pose proof (exp_pos (- (u * u))) as He.
  assert (He1 : exp (- (u * u)) <= 1).
  { rewrite <- exp_0. apply exp_le. nra. }
  split; [apply Rmult_le_pos; [exact Hq0 | now apply Rlt_le]|].
  apply Rle_trans with (1 * 1); [|lra].
  apply Rmult_le_compat; [exact Hq0 | now apply Rlt_le | exact Hq1 | exact He1].
Qed.

Lemma erfc_approx_decreasing (u1 u2 : R) :
  0 <= u1 -> u1 <= u2 -> erfc_approx u2 <= erfc_approx u1.
Proof.
  intros H1 H12. unfold erfc_approx.
  pose proof (erf_t_range u1 H1) as [Ht1 Ht1'].
  pose proof (erf_t_range u2 ltac:(lra)) as [Ht2 Ht2'].
  pose proof (erf_t_decreasing u1 u2 H1 H12) as Ht.
  apply Rmult_le_compat.
  - apply erf_poly_range. split; [now apply Rlt_le | assumption].
  - left. apply exp_pos.
  - apply erf_poly_increasing; [now apply Rlt_le | assumption | assumption].
  - apply exp_le. nra.
Qed.

Lemma inv_sqrt2_pos : 0 < / sqrt 2.
Proof. apply Rinv_0_lt_compat, sqrt2_pos. Qed.

Lemma cdf_neg_range (X : R) : 0 <= X -> 0 <= cdf_neg X <= 0.5.
Proof.
  intros HX. unfold cdf_neg. pose proof inv_sqrt2_pos as Hs.
  assert (Hu : 0 <= X / sqrt 2) by (unfold Rdiv; nra).
  pose proof (erfc_approx_range _ Hu). lra.
Qed.

Lemma cdf_neg_decreasing (X1 X2 : R) :
  0 <= X1 -> X1 <= X2 -> cdf_neg X2 <= cdf_neg X1.
Proof.
  intros H1 H12. unfold cdf_neg. pose proof inv_sqrt2_pos as Hs.
  assert (Hu1 : 0 <= X1 / sqrt 2) by (unfold Rdiv; nra).
  assert (Hu12 : X1 / sqrt 2 <= X2 / sqrt 2) by (unfold Rdiv; nra).
  pose proof (erfc_approx_decreasing _ _ Hu1 Hu12). lra.
Qed.

(** [normalCDF] on the negative side. *)
Lemma normalCDF_neg (X : R) : 0 < X -> normalCDF (- X) = cdf_neg X.
Proof.
  intros HX. unfold normalCDF, cdf_neg, erfc_approx, erf_poly, erf.
  pose proof inv_sqrt2_pos as Hs. pose proof sqrt2_pos as Hs2.
  assert (Hu : 0 < X / sqrt 2) by (unfold Rdiv; nra).
  replace (- X / sqrt 2) with (- (X / sqrt 2)) by (field; lra).
  destruct (Rge_dec (- (X / sqrt 2)) 0) as [H|_]; [lra|].
  rewrite Rabs_Ropp, Rabs_pos_eq by lra.
  replace (- (X / sqrt 2) * (X / sqrt 2)) with (- (X / sqrt 2 * (X / sqrt 2))) by ring.
  replace (1.0) with 1 by lra. ring.
Qed.

Lemma normalCDF_pos (X : R) : 0 < X -> normalCDF X = 1 - cdf_neg X.
Proof.
  intros HX. rewrite <- normalCDF_neg by assumption.
  pose proof (normalCDF_complement_nonzero X ltac:(lra)). lra.
Qed.

(** *** The central branch *)

Lemma bsm_num_den_pos (r : R) :
  0 <= r <= 0.185 -> 0.3 <= bsm_num r /\ 0.09 <= bsm_den r.
Proof.
  intros Hr.
  pose proof (bernstein_nonneg 0.185 r r 0 4 0 0 Hr Hr).
  pose proof (bernstein_nonneg 0.185 r r 1 3 0 0 Hr Hr).
  pose proof (bernstein_nonneg 0.185 r r 2 2 0 0 Hr Hr).
  pose proof (bernstein_nonneg 0.185 r r 3 1 0 0 Hr Hr).
  pose proof (bernstein_nonneg 0.185 r r 4 0 0 0 Hr Hr).
  unfold bsm_num, bsm_den, bsm_a0, bsm_a1, bsm_a2, bsm_a3, bsm_b0, bsm_b1, bsm_b2, bsm_b3.
  split; lra.
Qed.

(** The divided difference of [bsm_num / bsm_den], cleared of
    denominators, is non-negative on the square of side [0.185]. *)
Lemma bsm_ratio_divided_difference (r1 r2 : R) :
  0 <= r1 <= 0.185 -> 0 <= r2 <= 0.185 ->
  0 <= (bsm_a1 + bsm_a2 * (r1 + r2) + bsm_a3 * (r1 * r1 + r1 * r2 + r2 * r2))
       * bsm_den r1
       - bsm_num r1
         * (bsm_b0 + bsm_b1 * (r1 + r2) + bsm_b2 * (r1 * r1 + r1 * r2 + r2 * r2)
            + bsm_b3 * (r1 * r1 * r1 + r1 * r1 * r2 + r1 * r2 * r2 + r2 * r2 * r2)).
Proof.
  intros H1 H2.
  pose proof (bernstein_nonneg 0.185 r1 r2 0 3 0 3 H1 H2).
  pose proof (bernstein_nonneg 0.185 r1 r2 0 3 1 2 H1 H2).
  pose proof (bernstein_nonneg 0.185 r1 r2 0 3 2 1 H1 H2).
  pose proof (bernstein_nonneg 0.185 r1 r2 0 3 3 0 H1 H2).
  pose proof (bernstein_nonneg 0.185 r1 r2 1 2 0 3 H1 H2).
  pose proof (bernstein_nonneg 0.185 r1 r2 1 2 1 2 H1 H2).
  pose proof (bernstein_nonneg 0.185 r1 r2 1 2 2 1 H1 H2).
  pose proof (bernstein_nonneg 0.185 r1 r2 1 2 3 0 H1 H2).
  pose proof (bernstein_nonneg 0.185 r1 r2 2 1 0 3 H1 H2).
  pose proof (bernstein_nonneg 0.185 r1 r2 2 1 1 2 H1 H2).
  pose proof (bernstein_nonneg 0.185 r1 r2 2 1 2 1 H1 H2).
  pose proof (bernstein_nonneg 0.185 r1 r2 2 1 3 0 H1 H2).
  pose proof (bernstein_nonneg 0.185 r1 r2 3 0 0 3 H1 H2).
  pose proof (bernstein_nonneg 0.185 r1 r2 3 0 1 2 H1 H2).
  pose proof (bernstein_nonneg 0.185 r1 r2 3 0 2 1 H1 H2).
  pose proof (bernstein_nonneg 0.185 r1 r2 3 0 3 0 H1 H2).
  unfold bsm_num, bsm_den, bsm_a0, bsm_a1, bsm_a2, bsm_a3, bsm_b0, bsm_b1, bsm_b2, bsm_b3.
  lra.
Qed.

Lemma bsm_ratio_increasing (r1 r2 : R) :
  0 <= r1 -> r1 <= r2 -> r2 <= 0.185 ->
  bsm_num r1 * bsm_den r2 <= bsm_num r2 * bsm_den r1.
Proof.
  intros H1 H12 H2.
  pose proof (bsm_ratio_divided_difference r1 r2 ltac:(lra) ltac:(lra)) as HW.
  assert (Hd : 0 <= bsm_num r2 * bsm_den r1 - bsm_num r1 * bsm_den r2); [|lra].
  replace (bsm_num r2 * bsm_den r1 - bsm_num r1 * bsm_den r2)
    with ((r2 - r1) *
          ((bsm_a1 + bsm_a2 * (r1 + r2) + bsm_a3 * (r1 * r1 + r1 * r2 + r2 * r2))
           * bsm_den r1
           - bsm_num r1
             * (bsm_b0 + bsm_b1 * (r1 + r2) + bsm_b2 * (r1 * r1 + r1 * r2 + r2 * r2)
                + bsm_b3 * (r1 * r1 * r1 + r1 * r1 * r2 + r1 * r2 * r2 + r2 * r2 * r2))))
    by (unfold bsm_num, bsm_den; ring).
  apply Rmult_le_pos; lra.
Qed.

Lemma square_range (a : R) : 0 <= a <= 0.43 -> 0 <= a * a <= 0.185.
Proof. intros Ha. nra. Qed.

Lemma bsm_quantile_nonneg (a : R) : 0 <= a <= 0.43 -> 0 <= bsm_quantile a.
Proof.
  intros Ha. unfold bsm_quantile.
  destruct (bsm_num_den_pos (a * a) (square_range a Ha)) as [Hn Hd].
  unfold Rdiv. apply Rmult_le_pos; [nra|]. left. apply Rinv_0_lt_compat. lra.
Qed.

Lemma bsm_quantile_pos (a : R) : 0 < a <= 0.43 -> 0 < bsm_quantile a.
Proof.
  intros Ha. unfold bsm_quantile.
  destruct (bsm_num_den_pos (a * a) (square_range a ltac:(lra))) as [Hn Hd].
  apply Rdiv_lt_0_compat; nra.
Qed.

Lemma bsm_quantile_increasing (a1 a2 : R) :
  0 <= a1 -> a1 <= a2 -> a2 <= 0.43 -> bsm_quantile a1 <= bsm_quantile a2.
Proof.
  intros H1 H12 H2. unfold bsm_quantile.
  destruct (bsm_num_den_pos (a1 * a1) (square_range a1 ltac:(lra))) as [Hn1 Hd1].
  destruct (bsm_num_den_pos (a2 * a2) (square_range a2 ltac:(lra))) as [Hn2 Hd2].
  assert (Hr : bsm_num (a1 * a1) * bsm_den (a2 * a2)
               <= bsm_num (a2 * a2) * bsm_den (a1 * a1)).
  { apply bsm_ratio_increasing; nra. }
  set (n1 := bsm_num (a1 * a1)) in *. set (d1 := bsm_den (a1 * a1)) in *.
  set (n2 := bsm_num (a2 * a2)) in *. set (d2 := bsm_den (a2 * a2)) in *.
  apply Rmult_le_reg_r with (d1 * d2); [nra|].
  replace (a1 * n1 / d1 * (d1 * d2)) with (a1 * (n1 * d2)) by (field; lra).
  replace (a2 * n2 / d2 * (d1 * d2)) with (a2 * (n2 * d1)) by (field; lra).
  assert (0 <= n1 * d2) by nra.
  apply Rmult_le_compat; lra.
Qed.

Lemma bsm_central_opp (a : R) : bsm_central (- a) = - bsm_quantile a.
Proof.
  unfold bsm_central, bsm_quantile, bsm_num, bsm_den. cbv zeta.
  replace (- a * - a) with (a * a) by ring. unfold Rdiv. ring.
Qed.

Lemma bsm_central_quantile (a : R) : bsm_central a = bsm_quantile a.
Proof. reflexivity. Qed.

(** *** The tail branch *)

Lemma horner_step (c s1 s2 k1 k2 : R) :
  0 <= c -> 0 <= s1 <= s2 -> 0 <= k1 <= k2 ->
  0 <= c + s1 * k1 <= c + s2 * k2.
Proof.
  intros Hc Hs Hk. split; [nra|].
  apply Rplus_le_compat_l. apply Rmult_le_compat; lra.
Qed.

Lemma bsm_tail_poly_increasing (s1 s2 : R) :
  0 <= s1 -> s1 <= s2 -> bsm_tail_poly s1 <= bsm_tail_poly s2.
Proof.
  intros H1 H12. unfold bsm_tail_poly.
  assert (Hs : 0 <= s1 <= s2) by lra.
  assert (H8 : 0 <= bsm_c8 <= bsm_c8) by (unfold bsm_c8; lra).
  pose proof (horner_step bsm_c7 s1 s2 _ _ ltac:(unfold bsm_c7; lra) Hs H8) as H7.
  pose proof (horner_step bsm_c6 s1 s2 _ _ ltac:(unfold bsm_c6; lra) Hs H7) as H6.
  pose proof (horner_step bsm_c5 s1 s2 _ _ ltac:(unfold bsm_c5; lra) Hs H6) as H5.
  pose proof (horner_step bsm_c4 s1 s2 _ _ ltac:(unfold bsm_c4; lra) Hs H5) as H4.
  pose proof (horner_step bsm_c3 s1 s2 _ _ ltac:(unfold bsm_c3; lra) Hs H4) as H3.
  pose proof (horner_step bsm_c2 s1 s2 _ _ ltac:(unfold bsm_c2; lra) Hs H3) as H2.
  pose proof (horner_step bsm_c1 s1 s2 _ _ ltac:(unfold bsm_c1; lra) Hs H2) as H1'.
  pose proof (horner_step bsm_c0 s1 s2 _ _ ltac:(unfold bsm_c0; lra) Hs H1') as H0.
  exact (proj2 H0).
Qed.

Lemma bsm_tail_poly_pos (s : R) : 0 <= s -> 0 < bsm_tail_poly s.
Proof.
  intros Hs. apply Rlt_le_trans with (bsm_tail_poly 0).
  - unfold bsm_tail_poly, bsm_c0. rewrite Rmult_0_l. lra.
  - apply bsm_tail_poly_increasing; lra.
Qed.

End RoundTripReal.

(** ** The round trip: soundness of the computed bounds *)

Section RoundTripBounds.
Import NormalDistribution RoundTrip Fixed.

Lemma cprec_nonneg : (0 <= cprec)%Z.
Proof. unfold cprec. lia. Qed.

Local Abbreviation enc := (encloses cprec).
Local Abbreviation F := (F2R cprec).

(** The rounded coefficients enclose the coefficients of the source. *)
Lemma k_const_sound (k : bnd) (n d : Z) (x : R) :
  k = iconst cprec n d -> (0 < d)%Z -> x = IZR n / IZR d -> enc k x.
Proof. intros -> Hd ->. apply iconst_sound; [apply cprec_nonneg | exact Hd]. Qed.

Lemma k_erf_a1_sound : enc k_erf_a1 erf_a1.
Proof.
  apply (k_const_sound _ 254829592 1000000000); [reflexivity | reflexivity | unfold erf_a1; lra].
Qed.

Lemma k_erf_a2_sound : enc k_erf_a2 (- erf_a2).
Proof.
  apply (k_const_sound _ 284496736 1000000000); [reflexivity | reflexivity | unfold erf_a2; lra].
Qed.

Lemma k_erf_a3_sound : enc k_erf_a3 erf_a3.
Proof.
  apply (k_const_sound _ 1421413741 1000000000); [reflexivity | reflexivity | unfold erf_a3; lra].
Qed.

Lemma k_erf_a4_sound : enc k_erf_a4 (- erf_a4).
Proof.
  apply (k_const_sound _ 1453152027 1000000000); [reflexivity | reflexivity | unfold erf_a4; lra].
Qed.

Lemma k_erf_a5_sound : enc k_erf_a5 erf_a5.
Proof.
  apply (k_const_sound _ 1061405429 1000000000); [reflexivity | reflexivity | unfold erf_a5; lra].
Qed.

Lemma k_erf_p_sound : enc k_erf_p erf_p.
Proof.
  apply (k_const_sound _ 3275911 10000000); [reflexivity | reflexivity | unfold erf_p; lra].
Qed.

Lemma k_bsm_a0_sound : enc k_bsm_a0 bsm_a0.
Proof.
  apply (k_const_sound _ 250662823884 100000000000); [reflexivity | reflexivity | unfold bsm_a0; lra].
Qed.

Lemma k_bsm_a1_sound : enc k_bsm_a1 (- bsm_a1).
Proof.
  apply (k_const_sound _ 1861500062529 100000000000); [reflexivity | reflexivity | unfold bsm_a1; lra].
Qed.

Lemma k_bsm_a2_sound : enc k_bsm_a2 bsm_a2.
Proof.
  apply (k_const_sound _ 4139119773534 100000000000); [reflexivity | reflexivity | unfold bsm_a2; lra].
Qed.

Lemma k_bsm_a3_sound : enc k_bsm_a3 (- bsm_a3).
Proof.
  apply (k_const_sound _ 2544106049637 100000000000); [reflexivity | reflexivity | unfold bsm_a3; lra].
Qed.

Lemma k_bsm_b0_sound : enc k_bsm_b0 (- bsm_b0).
Proof.
  apply (k_const_sound _ 847351093090 100000000000); [reflexivity | reflexivity | unfold bsm_b0; lra].
Qed.

Lemma k_bsm_b1_sound : enc k_bsm_b1 bsm_b1.
Proof.
  apply (k_const_sound _ 2308336743743 100000000000); [reflexivity | reflexivity | unfold bsm_b1; lra].
Qed.

Lemma k_bsm_b2_sound : enc k_bsm_b2 (- bsm_b2).
Proof.
  apply (k_const_sound _ 2106224101826 100000000000); [reflexivity | reflexivity | unfold bsm_b2; lra].
Qed.

Lemma k_bsm_b3_sound : enc k_bsm_b3 bsm_b3.
Proof.
  apply (k_const_sound _ 313082909833 100000000000); [reflexivity | reflexivity | unfold bsm_b3; lra].
Qed.

Lemma k_bsm_c0_sound : enc k_bsm_c0 bsm_c0.
Proof.
  apply (k_const_sound _ 3374754822726147 10000000000000000); [reflexivity | reflexivity | unfold bsm_c0; lra].
Qed.

Lemma k_bsm_c1_sound : enc k_bsm_c1 bsm_c1.
Proof.
  apply (k_const_sound _ 9761690190917186 10000000000000000); [reflexivity | reflexivity | unfold bsm_c1; lra].
Qed.

Lemma k_bsm_c2_sound : enc k_bsm_c2 bsm_c2.
Proof.
  apply (k_const_sound _ 1607979714918209 10000000000000000); [reflexivity | reflexivity | unfold bsm_c2; lra].
Qed.

Lemma k_bsm_c3_sound : enc k_bsm_c3 bsm_c3.
Proof.
  apply (k_const_sound _ 276438810333863 10000000000000000); [reflexivity | reflexivity | unfold bsm_c3; lra].
Qed.

Lemma k_bsm_c4_sound : enc k_bsm_c4 bsm_c4.
Proof.
  apply (k_const_sound _ 38405729373609 10000000000000000); [reflexivity | reflexivity | unfold bsm_c4; lra].
Qed.

Lemma k_bsm_c5_sound : enc k_bsm_c5 bsm_c5.
Proof.
  apply (k_const_sound _ 3951896511919 10000000000000000); [reflexivity | reflexivity | unfold bsm_c5; lra].
Qed.

Lemma k_bsm_c6_sound : enc k_bsm_c6 bsm_c6.
Proof.
  apply (k_const_sound _ 321767881768 10000000000000000); [reflexivity | reflexivity | unfold bsm_c6; lra].
Qed.

Lemma k_bsm_c7_sound : enc k_bsm_c7 bsm_c7.
Proof.
  apply (k_const_sound _ 2888167364 10000000000000000); [reflexivity | reflexivity | unfold bsm_c7; lra].
Qed.

Lemma k_bsm_c8_sound : enc k_bsm_c8 bsm_c8.
Proof.
  apply (k_const_sound _ 3960315187 10000000000000000); [reflexivity | reflexivity | unfold bsm_c8; lra].
Qed.

Lemma k_half_sound : enc k_half 0.5.
Proof. apply (k_const_sound _ 5 10); [reflexivity | reflexivity | lra]. Qed.

Lemma inv_sqrt2_bounds : 0.70710678118 <= / sqrt 2 <= 0.70710678119.
Proof.
  pose proof (sqrt_between 1.41421356236 1.41421356238 2
                ltac:(lra) ltac:(lra) ltac:(lra) ltac:(lra)) as [Hlo Hhi].
  pose proof sqrt2_pos as Hs.
  assert (Hinv : / sqrt 2 = sqrt 2 / 2).
  { apply Rmult_eq_reg_r with (sqrt 2); [|lra].
    rewrite Rinv_l by lra.
    replace (sqrt 2 / 2 * sqrt 2) with (sqrt 2 * sqrt 2 / 2) by field.
    rewrite sqrt_sqrt by lra. lra. }
  rewrite Hinv. lra.
Qed.

Lemma iinv_sqrt2_sound : enc iinv_sqrt2 (/ sqrt 2).
Proof.
  change iinv_sqrt2
    with (Some (Q_down cprec 70710678118 100000000000,
                Q_up cprec 70710678119 100000000000)).
  pose proof inv_sqrt2_bounds as [Hlo Hhi].
  pose proof (Q_down_le cprec cprec_nonneg 70710678118 100000000000 eq_refl) as Hd.
  pose proof (Q_up_ge cprec cprec_nonneg 70710678119 100000000000 eq_refl) as Hu.
  simpl. split; lra.
Qed.

Ltac enc_step :=
  first
    [ apply (isub_sound cprec cprec_nonneg)
    | apply (iadd_sound cprec cprec_nonneg)
    | apply (imul_sound cprec cprec_nonneg)
    | apply (idiv_sound cprec cprec_nonneg)
    | apply (ineg_sound cprec cprec_nonneg)
    | apply (iexp_sound cprec cprec_nonneg)
    | apply (ipoint_sound cprec)
    | apply (ione_sound cprec cprec_nonneg)
    | apply iinv_sqrt2_sound
    | apply k_half_sound
    | apply k_erf_a1_sound
    | apply k_erf_a2_sound
    | apply k_erf_a3_sound
    | apply k_erf_a4_sound
    | apply k_erf_a5_sound
    | apply k_erf_p_sound
    | apply k_bsm_a0_sound
    | apply k_bsm_a1_sound
    | apply k_bsm_a2_sound
    | apply k_bsm_a3_sound
    | apply k_bsm_b0_sound
    | apply k_bsm_b1_sound
    | apply k_bsm_b2_sound
    | apply k_bsm_b3_sound
    | apply k_bsm_c0_sound
    | apply k_bsm_c1_sound
    | apply k_bsm_c2_sound
    | apply k_bsm_c3_sound
    | apply k_bsm_c4_sound
    | apply k_bsm_c5_sound
    | apply k_bsm_c6_sound
    | apply k_bsm_c7_sound
    | apply k_bsm_c8_sound
    | assumption ].

Lemma ierf_poly_at_sound (t : Z) : enc (ierf_poly_at t) (erf_poly (F t)).
Proof.
  unfold ierf_poly_at. cbv zeta. set (T := F t).
  replace (erf_poly T)
    with (erf_a1 * T + erf_a3 * (T * T * T) + erf_a5 * (T * T * T * T * T)
          - (- erf_a2 * (T * T) + - erf_a4 * (T * T * T * T)))
    by (unfold erf_poly; ring).
  repeat enc_step.
Qed.

Lemma F2R_min_scale (th : Z) (x : R) :
  x <= F th -> x <= 1 -> x <= F (Z.min th (scale cprec)) <= 1.
Proof.
  intros Hth H1.
  pose proof (F2R_scale cprec cprec_nonneg) as Hs.
  destruct (Z.min_spec th (scale cprec)) as [[Hlt ->]|[Hle ->]].
  - split; [assumption|]. rewrite <- Hs. apply F2R_le; [apply cprec_nonneg | lia].
  - rewrite Hs. lra.
Qed.

Lemma ierf_poly_sound (t : bnd) (x : R) :
  enc t x -> 0 <= x <= 1 -> enc (ierf_poly t) (erf_poly x).
Proof.
  intros Ht Hx. unfold ierf_poly.
  destruct t as [[tl th]|]; [|exact I].
  pose proof (ierf_poly_at_sound tl) as Hl.
  pose proof (ierf_poly_at_sound (Z.min th (scale cprec))) as Hh.
  destruct (ierf_poly_at tl) as [[l l']|]; [|exact I].
  destruct (ierf_poly_at (Z.min th (scale cprec))) as [[h' h]|]; [|exact I].
  destruct (Z.leb_spec 0 tl) as [Htl|]; [|exact I].
  unfold encloses in Ht, Hl, Hh |- *.
  pose proof (F2R_nonneg cprec cprec_nonneg tl Htl) as Htl0.
  destruct (F2R_min_scale th x ltac:(lra) ltac:(lra)) as [Hm1 Hm2].
  split.
  - apply Rle_trans with (erf_poly (F tl)); [lra|].
    apply erf_poly_increasing; lra.
  - apply Rle_trans with (erf_poly (F (Z.min th (scale cprec)))); [|lra].
    apply erf_poly_increasing; lra.
Qed.

Lemma icdf_neg_sound (K : nat) (X : bnd) (x : R) :
  enc X x -> 0 <= x -> enc (icdf_neg K X) (cdf_neg x).
Proof.
  intros HX Hx. unfold icdf_neg. cbv zeta.
  pose proof inv_sqrt2_pos as Hs.
  set (u := x * / sqrt 2).
  assert (Hu : 0 <= u) by (unfold u; nra).
  replace (cdf_neg x)
    with (0.5 * erf_poly (1 / (1 + erf_p * u)) * exp (- (u * u)))
    by (unfold cdf_neg, erfc_approx, u, Rdiv; ring).
  assert (Henc_u : enc (imul cprec X iinv_sqrt2) u) by (unfold u; repeat enc_step).
  destruct (erf_t_range u Hu) as [Ht0 Ht1].
  apply (imul_sound cprec cprec_nonneg).
  - apply (imul_sound cprec cprec_nonneg); [apply k_half_sound|].
    apply ierf_poly_sound; [repeat enc_step | split; [now apply Rlt_le | assumption]].
  - repeat enc_step.
Qed.

Lemma iquantile_at_sound (a : Z) : enc (iquantile_at a) (bsm_quantile (F a)).
Proof.
  unfold iquantile_at. cbv zeta. set (A := F a).
  replace (bsm_quantile A)
    with (A * (bsm_a0 + bsm_a2 * (A * A * (A * A))
               - (- bsm_a1 * (A * A) + - bsm_a3 * (A * A * (A * A) * (A * A))))
          / (1 + bsm_b1 * (A * A * (A * A))
             + bsm_b3 * (A * A * (A * A) * (A * A) * (A * A))
             - (- bsm_b0 * (A * A) + - bsm_b2 * (A * A * (A * A) * (A * A)))))
    by (unfold bsm_quantile, bsm_num, bsm_den; f_equal; [f_equal|]; ring).
  repeat enc_step.
Qed.

Lemma itail_poly_at_sound (s : Z) : enc (itail_poly_at s) (bsm_tail_poly (F s)).
Proof.
  unfold itail_poly_at, bsm_tail_poly. cbv zeta. repeat enc_step.
Qed.

Lemma itail_prob_sound (K : nat) (s : Z) :
  enc (iexp cprec K (ineg (iexp cprec K (ipoint s)))) (exp (- exp (F s))).
Proof. repeat enc_step. Qed.

End RoundTripBounds.

(** ** The round trip: the grid argument and the theorem *)

Section RoundTripGrid.
Import NormalDistribution RoundTrip Fixed.

Local Abbreviation enc := (encloses cprec).
Local Abbreviation F := (F2R cprec).

Lemma F_tol : F tol <= 1e-4.
Proof.
  change tol with (Q_down cprec 1 10000).
  pose proof (Q_down_le cprec cprec_nonneg 1 10000 eq_refl). lra.
Qed.

Lemma F_half : F half = 0.5.
Proof.
  unfold F2R, scale. change half with 34359738368%Z.
  change (2 ^ cprec)%Z with 68719476736%Z. lra.
Qed.

Lemma F_le_tol (a b : Z) : (a - b <=? tol)%Z = true -> F a - F b <= 1e-4.
Proof.
  intros H. apply Z.leb_le in H.
  apply (F2R_le cprec cprec_nonneg) in H.
  rewrite (F2R_minus cprec cprec_nonneg) in H. pose proof F_tol. lra.
Qed.

Lemma last_cons_default {A : Type} (l : list A) (a d : A) :
  last (a :: l) d = last l a.
Proof.
  revert a d. induction l as [|b l IH]; intros a d; [reflexivity|].
  change (last (a :: b :: l) d) with (last (b :: l) d).
  rewrite (IH b d), (IH b a). reflexivity.
Qed.

Lemma last_In {A : Type} (l : list A) (d : A) : In (last l d) (d :: l).
Proof.
  revert d. induction l as [|b l IH]; intros d; [now left|].
  right. rewrite last_cons_default. apply IH.
Qed.

(** A point between the first and the last of a list lies between two
    neighbours, whatever the order of the list. *)
Lemma adjacent_cover {A : Type} (ok : A -> A -> bool) (f : Z -> A) (x : R) :
  forall (l : list Z) (z0 : Z),
    check_adjacent ok (map f (z0 :: l)) = true ->
    F z0 <= x -> x <= F (last l z0) ->
    (x = F z0 /\ l = []) \/
    exists za zb : Z,
      In za (z0 :: l) /\ In zb (z0 :: l) /\ ok (f za) (f zb) = true /\
      F za <= x <= F zb.
Proof.
  induction l as [|z1 l IH]; intros z0 Hchk Hlo Hhi.
  - left. simpl in Hhi. split; [lra | reflexivity].
  - right.
    change (check_adjacent ok (map f (z0 :: z1 :: l)))
      with (ok (f z0) (f z1) && check_adjacent ok (map f (z1 :: l)))%bool in Hchk.
    apply andb_prop in Hchk as [Hok Hrest].
    destruct (Rle_dec x (F z1)) as [Hx|Hx].
    + exists z0, z1. repeat split; simpl; auto.
    + rewrite last_cons_default in Hhi.
      destruct (IH z1 Hrest ltac:(lra) Hhi) as [[Heq _]|(za & zb & Ha & Hb & Hab & Hin)].
      * lra.
      * exists za, zb. repeat split; simpl; auto; lra.
Qed.

(** One cell of the central grid. *)
Lemma central_cell (K : nat) (za zb : Z) (a : R) :
  central_ok (central_point K za) (central_point K zb) = true ->
  (0 <= za)%Z -> F zb <= 0.43 -> F za <= a <= F zb ->
  Rabs (cdf_neg (bsm_quantile a) - (0.5 - a)) <= 1e-4.
Proof.
  intros Hok Hza Hzb [Ha1 Ha2].
  pose proof (F2R_nonneg cprec cprec_nonneg za Hza) as Hza0.
  pose proof (icdf_neg_sound K _ _ (iquantile_at_sound za)
                (bsm_quantile_nonneg (F za) ltac:(lra))) as Hga.
  pose proof (icdf_neg_sound K _ _ (iquantile_at_sound zb)
                (bsm_quantile_nonneg (F zb) ltac:(lra))) as Hgb.
  unfold central_ok, central_point in Hok. cbn [fst snd] in Hok.
  destruct (icdf_neg K (iquantile_at za)) as [[gal gah]|]; [|discriminate].
  destruct (icdf_neg K (iquantile_at zb)) as [[gbl gbh]|]; [|discriminate].
  apply andb_prop in Hok as [H1 H2].
  apply F_le_tol in H1. apply F_le_tol in H2.
  rewrite (F2R_minus cprec cprec_nonneg), F_half in H1, H2.
  unfold encloses in Hga, Hgb.
  pose proof (bsm_quantile_nonneg (F za) ltac:(lra)) as Hq0.
  pose proof (bsm_quantile_increasing (F za) a ltac:(lra) ltac:(lra) ltac:(lra)) as Hq1.
  pose proof (bsm_quantile_increasing a (F zb) ltac:(lra) ltac:(lra) ltac:(lra)) as Hq2.
  pose proof (cdf_neg_decreasing _ _ Hq0 Hq1) as Hc1.
  pose proof (cdf_neg_decreasing (bsm_quantile a) (bsm_quantile (F zb))
                ltac:(lra) Hq2) as Hc2.
  apply Rabs_le. lra.
Qed.

Lemma forallb_In {A : Type} (f : A -> bool) (l : list A) (a : A) :
  forallb f l = true -> In a l -> f a = true.
Proof. intros H Ha. rewrite forallb_forall in H. now apply H. Qed.

Theorem check_central_on_sound (K : nat) (g : list Z) :
  check_central_on K g = true ->
  forall a : R, 0 < a < 0.42 ->
    Rabs (cdf_neg (bsm_quantile a) - (0.5 - a)) <= 1e-4.
Proof.
  intros Hchk a Ha. unfold check_central_on in Hchk.
  destruct g as [|z0 rest]; [discriminate|].
  apply andb_prop in Hchk as [Hchk Hadj].
  apply andb_prop in Hchk as [Hchk Hdom].
  apply andb_prop in Hchk as [Hz0 Hlast].
  apply Z.eqb_eq in Hz0. apply Z.leb_le in Hlast.
  assert (HF0 : F z0 = 0) by (rewrite Hz0; apply (F2R_0 cprec cprec_nonneg)).
  assert (HFl : 0.42 <= F (last rest z0)).
  { apply (F2R_le cprec cprec_nonneg) in Hlast.
    pose proof (Q_up_ge cprec cprec_nonneg 42 100 eq_refl). lra. }
  destruct (adjacent_cover central_ok (central_point K) a rest z0 Hadj
              ltac:(lra) ltac:(lra))
    as [[Heq _]|(za & zb & Hina & Hinb & Hok & Hab)]; [lra|].
  pose proof (forallb_In _ _ _ Hdom Hina) as Hda.
  pose proof (forallb_In _ _ _ Hdom Hinb) as Hdb.
  apply andb_prop in Hda as [Hda _]. apply andb_prop in Hdb as [_ Hdb].
  apply Z.leb_le in Hda, Hdb.
  apply (central_cell K za zb a Hok Hda); [|exact Hab].
  apply (F2R_le cprec cprec_nonneg) in Hdb.
  pose proof (Q_down_le cprec cprec_nonneg 43 100 eq_refl). lra.
Qed.

(** One cell of the tail grid, and what lies beyond its last point. *)
Lemma tail_cell (K : nat) (za zb : Z) (s : R) :
  tail_ok (tail_point K za) (tail_point K zb) = true ->
  (0 <= za)%Z -> F za <= s <= F zb ->
  Rabs (cdf_neg (bsm_tail_poly s) - exp (- exp s)) <= 1e-4.
Proof.
  intros Hok Hza [Hs1 Hs2].
  pose proof (F2R_nonneg cprec cprec_nonneg za Hza) as Hza0.
  pose proof (bsm_tail_poly_pos (F za) Hza0) as Hpa.
  pose proof (bsm_tail_poly_pos (F zb) ltac:(lra)) as Hpb.
  pose proof (icdf_neg_sound K _ _ (itail_poly_at_sound za) ltac:(lra)) as Hga.
  pose proof (icdf_neg_sound K _ _ (itail_poly_at_sound zb) ltac:(lra)) as Hgb.
  pose proof (itail_prob_sound K za) as Hpra.
  pose proof (itail_prob_sound K zb) as Hprb.
  unfold tail_ok, tail_point in Hok. cbn [fst snd] in Hok.
  destruct (icdf_neg K (itail_poly_at za)) as [[gal gah]|]; [|discriminate].
  destruct (iexp cprec K (ineg (iexp cprec K (ipoint za)))) as [[pal pah]|];
    [|discriminate].
  destruct (icdf_neg K (itail_poly_at zb)) as [[gbl gbh]|]; [|discriminate].
  destruct (iexp cprec K (ineg (iexp cprec K (ipoint zb)))) as [[pbl pbh]|];
    [|discriminate].
  apply andb_prop in Hok as [H1 H2].
  apply F_le_tol in H1. apply F_le_tol in H2.
  unfold encloses in Hga, Hgb, Hpra, Hprb.
  pose proof (bsm_tail_poly_increasing (F za) s Hza0 Hs1) as Hq1.
  pose proof (bsm_tail_poly_increasing s (F zb) ltac:(lra) Hs2) as Hq2.
  pose proof (cdf_neg_decreasing (bsm_tail_poly (F za)) (bsm_tail_poly s)
                ltac:(lra) Hq1) as Hc1.
  pose proof (cdf_neg_decreasing (bsm_tail_poly s) (bsm_tail_poly (F zb))
                ltac:(lra) Hq2) as Hc2.
  assert (He1 : exp (- exp (F zb)) <= exp (- exp s)).
  { apply exp_le. apply Ropp_le_contravar. now apply exp_le. }
  assert (He2 : exp (- exp s) <= exp (- exp (F za))).
  { apply exp_le. apply Ropp_le_contravar. now apply exp_le. }
  apply Rabs_le. lra.
Qed.

Lemma tail_beyond (K : nat) (zl : Z) (s : R) :
  tail_end_ok (tail_point K zl) = true ->
  (0 <= zl)%Z -> F zl <= s ->
  Rabs (cdf_neg (bsm_tail_poly s) - exp (- exp s)) <= 1e-4.
Proof.
  intros Hok Hzl Hs.
  pose proof (F2R_nonneg cprec cprec_nonneg zl Hzl) as Hzl0.
  pose proof (bsm_tail_poly_pos (F zl) Hzl0) as Hpl.
  pose proof (icdf_neg_sound K _ _ (itail_poly_at_sound zl) ltac:(lra)) as Hg.
  pose proof (itail_prob_sound K zl) as Hp.
  unfold tail_end_ok, tail_point in Hok. cbn [fst snd] in Hok.
  destruct (icdf_neg K (itail_poly_at zl)) as [[gl gh]|]; [|discriminate].
  destruct (iexp cprec K (ineg (iexp cprec K (ipoint zl)))) as [[pl ph]|];
    [|discriminate].
  apply andb_prop in Hok as [H1 H2]. apply Z.leb_le in H1, H2.
  apply (F2R_le cprec cprec_nonneg) in H1, H2. pose proof F_tol as Htol.
  unfold encloses in Hg, Hp.
  pose proof (bsm_tail_poly_increasing (F zl) s Hzl0 Hs) as Hq.
  pose proof (cdf_neg_decreasing (bsm_tail_poly (F zl)) (bsm_tail_poly s)
                ltac:(lra) Hq) as Hc.
  pose proof (cdf_neg_range (bsm_tail_poly s) ltac:(lra)) as [Hc0 _].
  assert (He : exp (- exp s) <= exp (- exp (F zl))).
  { apply exp_le. apply Ropp_le_contravar. now apply exp_le. }
  pose proof (exp_pos (- exp s)) as He0.
  apply Rabs_le. lra.
Qed.

(** A probability [q] of the lower tail is [exp (- exp s)] at
    [s = ln (- ln q)]. *)
Lemma tail_parameter (q : R) :
  0 < q < 1 -> exp (- exp (ln (- ln q))) = q.
Proof.
  intros [Hq0 Hq1].
  assert (Hln : ln q < 0).
  { rewrite <- ln_1. apply ln_increasing; lra. }
  rewrite exp_ln by lra. rewrite Ropp_involutive. apply exp_ln. lra.
Qed.

Lemma tail_start_sound (K : nat) (z0 : Z) (q : R) :
  tail_start_ok K z0 = true -> 0 < q <= 0.08 -> F z0 <= ln (- ln q).
Proof.
  intros Hok [Hq0 Hq1]. unfold tail_start_ok in Hok.
  pose proof (itail_prob_sound K z0) as Hp.
  destruct (iexp cprec K (ineg (iexp cprec K (ipoint z0)))) as [[pl ph]|];
    [|discriminate].
  apply Z.leb_le in Hok. apply (F2R_le cprec cprec_nonneg) in Hok.
  pose proof (Q_up_ge cprec cprec_nonneg 8 100 eq_refl) as H8.
  unfold encloses in Hp.
  assert (Hq : q <= exp (- exp (F z0))) by lra.
  assert (Hln : ln q <= - exp (F z0)).
  { apply ln_upper; assumption. }
  pose proof (exp_pos (F z0)) as He.
  apply ln_lower; lra.
Qed.

Theorem check_tail_on_sound (K : nat) (g : list Z) :
  check_tail_on K g = true ->
  forall q : R, 0 < q <= 0.08 ->
    0 <= ln (- ln q) /\
    Rabs (cdf_neg (bsm_tail_poly (ln (- ln q))) - q) <= 1e-4.
Proof.
  intros Hchk q Hq. unfold check_tail_on in Hchk.
  destruct g as [|z0 rest]; [discriminate|].
  apply andb_prop in Hchk as [Hchk Hend].
  apply andb_prop in Hchk as [Hchk Hadj].
  apply andb_prop in Hchk as [Hstart Hdom].
  pose proof (tail_start_sound K z0 q Hstart Hq) as Hs0.
  assert (Hz0 : (0 <= z0)%Z).
  { apply Z.leb_le. apply (forallb_In _ _ _ Hdom). now left. }
  pose proof (F2R_nonneg cprec cprec_nonneg z0 Hz0) as Hz0R.
  split; [lra|].
  rewrite <- (tail_parameter q ltac:(lra)) at 2.
  set (s := ln (- ln q)) in *.
  destruct (Rle_dec s (F (last rest z0))) as [Hin|Hout].
  - destruct (adjacent_cover tail_ok (tail_point K) s rest z0 Hadj Hs0 Hin)
      as [[Heq ->]|(za & zb & Hina & Hinb & Hok & Hab)].
    + simpl in Hend. apply (tail_beyond K z0 s Hend Hz0). lra.
    + apply (tail_cell K za zb s Hok); [|exact Hab].
      apply Z.leb_le. now apply (forallb_In _ _ _ Hdom).
  - apply (tail_beyond K (last rest z0) s Hend); [|lra].
    apply Z.leb_le. apply (forallb_In _ _ _ Hdom). apply last_In.
Qed.

(** The two grids pass (by computation). *)
Lemma check_central_true : check_central_on central_steps central_grid = true.
Proof.
  vm_cast_no_check (eq_refl true).
Qed.

Lemma check_tail_true : check_tail_on tail_steps tail_grid = true.
Proof.
  vm_cast_no_check (eq_refl true).
Qed.

(** The accuracy of [cdf_neg] at the quantile, on the lower half. *)
Lemma lower_central_accuracy (a : R) :
  0 < a < 0.42 -> Rabs (cdf_neg (bsm_quantile a) - (0.5 - a)) <= 1e-4.
Proof.
  exact (check_central_on_sound central_steps central_grid check_central_true a).
Qed.

Lemma lower_tail_accuracy (q : R) :
  0 < q <= 0.08 ->
  0 <= ln (- ln q) /\ Rabs (cdf_neg (bsm_tail_poly (ln (- ln q))) - q) <= 1e-4.
Proof.
  exact (check_tail_on_sound tail_steps tail_grid check_tail_true q).
Qed.

(** The branch taken by [normalInverseCDF]. *)
Lemma inverse_lower_tail (p : R) :
  0 < p <= 0.08 ->
  normalInverseCDF p = Return (- bsm_tail_poly (ln (- ln p))).
Proof.
  intros Hp. unfold normalInverseCDF.
  destruct (Rle_dec p 0) as [H|_]; [lra|].
  destruct (Rge_dec p 1) as [H|_]; [lra|].
  destruct (Rlt_dec (Rabs (p - 0.5)) 0.42) as [H|_].
  { rewrite Rabs_left in H; lra. }
  unfold bsm_tail, bsm_tail_poly.
  destruct (Rgt_dec (p - 0.5) 0) as [H|_]; [lra|].
  destruct (Rlt_dec (p - 0.5) 0) as [_|H]; [reflexivity | lra].
Qed.

Lemma inverse_upper_tail (p : R) :
  0.92 <= p < 1 ->
  normalInverseCDF p = Return (bsm_tail_poly (ln (- ln (1 - p)))).
Proof.
  intros Hp. unfold normalInverseCDF.
  destruct (Rle_dec p 0) as [H|_]; [lra|].
  destruct (Rge_dec p 1) as [H|_]; [lra|].
  destruct (Rlt_dec (Rabs (p - 0.5)) 0.42) as [H|_].
  { rewrite Rabs_right in H; lra. }
  unfold bsm_tail, bsm_tail_poly.
  destruct (Rgt_dec (p - 0.5) 0) as [_|H]; [|lra].
  destruct (Rlt_dec (p - 0.5) 0) as [H|_]; [lra | reflexivity].
Qed.

Lemma inverse_central (p : R) :
  0.08 < p < 0.92 -> normalInverseCDF p = Return (bsm_central (p - 0.5)).
Proof.
  intros Hp. unfold normalInverseCDF.
  destruct (Rle_dec p 0) as [H|_]; [lra|].
  destruct (Rge_dec p 1) as [H|_]; [lra|].
  destruct (Rlt_dec (Rabs (p - 0.5)) 0.42) as [_|H]; [reflexivity|].
  exfalso. apply H. apply Rabs_def1; lra.
Qed.

(** For [0 < p < 1] every division and logarithm of [normalInverseCDF] is
    taken inside its domain: the denominator of the central branch is
    positive, and in the tail branch [r] lies strictly between [0] and [1],
    so that [- ln r] is positive. *)
Lemma normalInverseCDF_in_domain (p : R) :
  0 < p < 1 ->
  (Rabs (p - 0.5) < 0.42 -> 0 < bsm_den ((p - 0.5) * (p - 0.5))) /\
  (~ Rabs (p - 0.5) < 0.42 ->
   let r := if Rgt_dec (p - 0.5) 0 then 1 - p else p in
   0 < r < 1 /\ 0 < - ln r).
Proof.
  intros Hp. split.
  - intros Hc. apply Rabs_def2 in Hc. destruct Hc as [Hc1 Hc2].
    set (y := p - 0.5) in *.
    assert (Hr : 0 <= y * y <= 0.185).
    { split; [nra|]. assert (0 <= (0.42 - y) * (0.42 + y)) by (apply Rmult_le_pos; lra).
      lra. }
    destruct (bsm_num_den_pos _ Hr) as [_ Hd]. lra.
  - intros _. cbv zeta.
    assert (Hln : forall r : R, 0 < r < 1 -> 0 < - ln r).
    { intros r Hr. assert (ln r < 0); [|lra].
      rewrite <- ln_1. apply ln_increasing; lra. }
    destruct (Rgt_dec (p - 0.5) 0); (split; [lra | apply Hln; lra]).
Qed.

End RoundTripGrid.

Section RoundTrip.
Import NormalDistribution RoundTrip.

(** C4: for every [p] strictly between [0] and [1], [normalInverseCDF p]
    returns a number [x] and [normalCDF x] is within [1e-4] of [p]. *)
Theorem normalCDF_normalInverseCDF_round_trip (p : R) :
  0 < p < 1 ->
  exists x : R, normalInverseCDF p = Return x /\ Rabs (normalCDF x - p) <= 1e-4.
Proof.
  intros Hp.
  destruct (Rle_dec p 0.08) as [Hlt|Hlt].
  { (* lower tail *)
    destruct (lower_tail_accuracy p ltac:(lra)) as [Hs Hacc].
    exists (- bsm_tail_poly (ln (- ln p))). split; [apply inverse_lower_tail; lra|].
    rewrite normalCDF_neg by (now apply bsm_tail_poly_pos). exact Hacc. }
  destruct (Rlt_dec p 0.5) as [Hlc|Hlc].
  { (* lower central *)
    exists (- bsm_quantile (0.5 - p)). split.
    - rewrite inverse_central by lra.
      replace (p - 0.5) with (- (0.5 - p)) by ring. now rewrite bsm_central_opp.
    - rewrite normalCDF_neg by (apply bsm_quantile_pos; lra).
      pose proof (lower_central_accuracy (0.5 - p) ltac:(lra)) as Hacc.
      replace (0.5 - (0.5 - p)) with p in Hacc by ring. exact Hacc. }
  destruct (Req_dec p 0.5) as [Hmid|Hmid].
  { (* the median *)
    exists 0. split.
    - rewrite inverse_central by lra. rewrite Hmid.
      replace (0.5 - 0.5) with 0 by ring. unfold bsm_central. cbv zeta.
      f_equal. unfold Rdiv. ring.
    - rewrite normalCDF_at_0, Hmid. apply Rabs_le. lra. }
  destruct (Rlt_dec p 0.92) as [Huc|Huc].
  { (* upper central *)
    exists (bsm_quantile (p - 0.5)). split.
    - rewrite inverse_central by lra. reflexivity.
    - rewrite normalCDF_pos by (apply bsm_quantile_pos; lra).
      pose proof (lower_central_accuracy (p - 0.5) ltac:(lra)) as Hacc.
      apply Rabs_le. unfold Rabs in Hacc.
      destruct (Rcase_abs (cdf_neg (bsm_quantile (p - 0.5)) - (0.5 - (p - 0.5)))); lra. }
  (* upper tail *)
  destruct (lower_tail_accuracy (1 - p) ltac:(lra)) as [Hs Hacc].
  exists (bsm_tail_poly (ln (- ln (1 - p)))). split; [apply inverse_upper_tail; lra|].
  rewrite normalCDF_pos by (now apply bsm_tail_poly_pos).
  apply Rabs_le. unfold Rabs in Hacc.
  destruct (Rcase_abs (cdf_neg (bsm_tail_poly (ln (- ln (1 - p)))) - (1 - p))); lra.
Qed.

Lemma normalCDF_normalInverseCDF_round_trip_witness :
  exists x : R,
    normalInverseCDF 0.1 = Return x /\ Rabs (normalCDF x - 0.1) <= 1e-4.
Proof. apply normalCDF_normalInverseCDF_round_trip. lra. Defined.

End RoundTrip.

(** * Further properties of the code *)

(** ** The special functions *)

Section SpecialFunctions.
Import NormalDistribution RoundTrip.

Lemma erf_poly_lower (t : R) : 0 <= t <= 1 -> 0.18 * t <= erf_poly t.
Proof.
  intros Ht.
  pose proof (bernstein_nonneg 1 t t 0 4 0 0 Ht Ht).
  pose proof (bernstein_nonneg 1 t t 1 3 0 0 Ht Ht).
  pose proof (bernstein_nonneg 1 t t 2 2 0 0 Ht Ht).
  pose proof (bernstein_nonneg 1 t t 3 1 0 0 Ht Ht).
  pose proof (bernstein_nonneg 1 t t 4 0 0 0 Ht Ht).
  assert (HP : 0.18 <= erf_a1 + erf_a2 * t + erf_a3 * (t * t) + erf_a4 * (t * t * t)
                       + erf_a5 * (t * t * t * t)).
  { unfold erf_a1, erf_a2, erf_a3, erf_a4, erf_a5. lra. }
  replace (erf_poly t)
    with (t * (erf_a1 + erf_a2 * t + erf_a3 * (t * t) + erf_a4 * (t * t * t)
               + erf_a5 * (t * t * t * t)))
    by (unfold erf_poly; ring).
  nra.
Qed.

Lemma erfc_approx_strict (u : R) : 0 <= u -> 0 < erfc_approx u <= 0.999999999.
Proof.
  intros Hu. unfold erfc_approx.
  destruct (erf_t_range u Hu) as [Ht0 Ht1].
  pose proof (erf_poly_lower _ (conj (Rlt_le _ _ Ht0) Ht1)) as Hlow.
  pose proof (erf_poly_increasing _ 1 (Rlt_le _ _ Ht0) Ht1 (Rle_refl 1)) as Hup.
  rewrite erf_poly_1 in Hup.
  pose proof (exp_pos (- (u * u))) as He.
  assert (He1 : exp (- (u * u)) <= 1).
  { rewrite <- exp_0. apply exp_le. nra. }
  set (q := erf_poly (1 / (1 + erf_p * u))) in *.
  set (t := 1 / (1 + erf_p * u)) in *.
  set (e := exp (- (u * u))) in *.
  split; nra.
Qed.

Lemma erf_nonneg_eq (x : R) : 0 <= x -> erf x = 1 - erfc_approx x.
Proof.
  intros Hx. unfold erf, erfc_approx, erf_poly.
  destruct (Rge_dec x 0) as [_|H]; [|lra].
  rewrite Rabs_pos_eq by assumption.
  replace (- x * x) with (- (x * x)) by ring.
  replace (1.0) with 1 by lra. ring.
Qed.

Lemma erf_neg_eq (x : R) : x < 0 -> erf x = - (1 - erfc_approx (- x)).
Proof.
  intros Hx. unfold erf, erfc_approx, erf_poly.
  destruct (Rge_dec x 0) as [H|_]; [lra|].
  rewrite Rabs_left by assumption.
  replace (- - x * - x) with (- (- x * - x)) by ring.
  replace (1.0) with 1 by lra. ring.
Qed.

Lemma erf_bounds (y : R) :
  -1 < erf y < 1 /\ (0 <= y -> 1e-9 <= erf y) /\ (y < 0 -> erf y <= -1e-9).
Proof.
  destruct (Rle_dec 0 y) as [Hy|Hy].
  - rewrite erf_nonneg_eq by assumption.
    pose proof (erfc_approx_strict y Hy). repeat split; intros; lra.
  - rewrite erf_neg_eq by lra.
    pose proof (erfc_approx_strict (- y) ltac:(lra)). repeat split; intros; lra.
Qed.

Lemma normalCDF_bounds (x : R) : 0 < normalCDF x < 1.
Proof.
  destruct (erf_bounds (x / sqrt 2)) as (H & _ & _). unfold normalCDF. lra.
Qed.

Lemma erfc_approx_le_exp (u : R) : 0 <= u -> erfc_approx u <= exp (- (u * u)).
Proof.
  intros Hu. unfold erfc_approx.
  destruct (erf_t_range u Hu) as [Ht0 Ht1].
  pose proof (erf_poly_increasing _ 1 (Rlt_le _ _ Ht0) Ht1 (Rle_refl 1)) as Hup.
  rewrite erf_poly_1 in Hup.
  pose proof (exp_pos (- (u * u))) as He.
  set (q := erf_poly (1 / (1 + erf_p * u))) in *.
  rewrite <- (Rmult_1_l (exp (- (u * u)))) at 2.
  apply Rmult_le_compat_r; lra.
Qed.

(** X1: the approximations stay inside the ranges of the functions they
    approximate: [erf] between [-1] and [1], with the sign of its argument
    ([+] at [0]) and, for [x >= 0], at least [1 - exp (- x * x)];
    [normalCDF] between [0] and [1].  (The bounds [1] and [0] are stated
    as reached: in double arithmetic they are, from about [x = 6] on for
    [erf].) *)
Theorem erf_normalCDF_range (x : R) :
  -1 <= erf x <= 1 /\
  (0 <= x -> 1e-9 <= erf x) /\ (x < 0 -> erf x <= -1e-9) /\
  (0 <= x -> 1 - exp (- (x * x)) <= erf x) /\
  0 <= normalCDF x <= 1.
Proof.
  destruct (erf_bounds x) as (H1 & H2 & H3).
  pose proof (normalCDF_bounds x).
  split; [lra|]. split; [exact H2|]. split; [exact H3|]. split; [|lra].
  intros Hx. rewrite erf_nonneg_eq by assumption.
  pose proof (erfc_approx_le_exp x Hx). lra.
Qed.

Lemma erf_increasing (x1 x2 : R) : x1 <= x2 -> erf x1 <= erf x2.
Proof.
  intros H12.
  destruct (Rle_dec 0 x1) as [H1|H1].
  - rewrite !erf_nonneg_eq by lra.
    pose proof (erfc_approx_decreasing x1 x2 H1 H12). lra.
  - destruct (Rle_dec 0 x2) as [H2|H2].
    + rewrite erf_neg_eq by lra. rewrite erf_nonneg_eq by assumption.
      pose proof (erfc_approx_strict (- x1) ltac:(lra)).
      pose proof (erfc_approx_strict x2 H2). lra.
    + rewrite !erf_neg_eq by lra.
      pose proof (erfc_approx_decreasing (- x2) (- x1) ltac:(lra) ltac:(lra)). lra.
Qed.

Lemma normalCDF_le (x1 x2 : R) : x1 <= x2 -> normalCDF x1 <= normalCDF x2.
Proof.
  intros H12. unfold normalCDF. pose proof inv_sqrt2_pos as Hs.
  assert (H : x1 / sqrt 2 <= x2 / sqrt 2) by (unfold Rdiv; nra).
  pose proof (erf_increasing _ _ H). lra.
Qed.

(** X2: [erf] and [normalCDF] are non-decreasing on the whole line,
    across the sign change at [0] included. *)
Theorem normalCDF_increasing (x1 x2 : R) :
  x1 <= x2 -> erf x1 <= erf x2 /\ normalCDF x1 <= normalCDF x2.
Proof.
  intros H12. split; [now apply erf_increasing | now apply normalCDF_le].
Qed.

Lemma normalCDF_increasing_witness :
  erf (-1) <= erf 2 /\ normalCDF (-1) <= normalCDF 2.
Proof. apply normalCDF_increasing. lra. Defined.

(** X3: for a positive standard deviation [normalCDFGeneral] is
    non-decreasing in [x], lies between [0] and [1], returns
    [0.5000000005] at the mean and is symmetric about it: at two points
    whose standardized distances [(x - mean) / stdDev] from the mean are
    opposite and not zero, the values add up to [1]. *)
Theorem normalCDFGeneral_shape (mean stdDev : R) :
  0 < stdDev ->
  (forall x1 x2 : R, x1 <= x2 ->
     normalCDFGeneral x1 mean stdDev <= normalCDFGeneral x2 mean stdDev) /\
  (forall x : R, 0 <= normalCDFGeneral x mean stdDev <= 1) /\
  normalCDFGeneral mean mean stdDev = 0.5000000005 /\
  (forall x1 x2 : R,
     (x1 - mean) / stdDev = - ((x2 - mean) / stdDev) -> (x1 - mean) / stdDev <> 0 ->
     normalCDFGeneral x1 mean stdDev + normalCDFGeneral x2 mean stdDev = 1).
Proof.
  intros Hs. unfold normalCDFGeneral.
  assert (Hi : 0 < / stdDev) by now apply Rinv_0_lt_compat.
  split; [|split; [|split]].
  - intros x1 x2 H12. apply normalCDF_le.
    unfold Rdiv. apply Rmult_le_compat_r; lra.
  - intros x. pose proof (normalCDF_bounds ((x - mean) / stdDev)). lra.
  - replace ((mean - mean) / stdDev) with 0 by (field; lra). apply normalCDF_at_0.
  - intros x1 x2 Hopp Hd. rewrite Hopp in *.
    rewrite Rplus_comm. apply normalCDF_complement_nonzero.
    intros H0. apply Hd. rewrite H0. ring.
Qed.

Lemma normalCDFGeneral_shape_witness :
  normalCDFGeneral 100 100 10 = 0.5000000005.
Proof. apply (normalCDFGeneral_shape 100 10). lra. Defined.

Lemma sqrt_2PI_pos : 0 < sqrt (2 * PI).
Proof. apply sqrt_lt_R0. pose proof PI_RGT_0. lra. Qed.

Lemma normalPDF_even (x : R) : normalPDF (- x) = normalPDF x.
Proof. unfold normalPDF. f_equal. f_equal. ring. Qed.

Lemma normalPDF_pos (x : R) : 0 < normalPDF x.
Proof.
  unfold normalPDF. apply Rdiv_lt_0_compat; [apply exp_pos | apply sqrt_2PI_pos].
Qed.

Lemma normalPDF_at_0 : normalPDF 0 = 1 / sqrt (2 * PI).
Proof.
  unfold normalPDF. f_equal. replace (-0.5 * 0 * 0) with 0 by ring. apply exp_0.
Qed.

Lemma normalPDF_le (a b : R) : Rabs a <= Rabs b -> normalPDF b <= normalPDF a.
Proof.
  intros Hab. unfold normalPDF, Rdiv.
  pose proof sqrt_2PI_pos as Hs.
  assert (Hi : 0 < / sqrt (2 * PI)) by now apply Rinv_0_lt_compat.
  apply Rmult_le_compat_r; [lra|]. apply exp_le.
  apply Rsqr_le_abs_1 in Hab. unfold Rsqr in Hab. lra.
Qed.

Lemma normalPDF_max (x : R) : normalPDF x <= normalPDF 0.
Proof. apply normalPDF_le. rewrite Rabs_R0. apply Rabs_pos. Qed.

(** X4: the density [normalPDF] is even and never negative, largest at
    [0], where it is [1 / sqrt (2 * PI)], and does not rise as [|x|]
    grows. *)
Theorem normalPDF_shape (x1 x2 : R) :
  normalPDF (- x1) = normalPDF x1 /\
  0 <= normalPDF x1 <= normalPDF 0 /\
  normalPDF 0 = 1 / sqrt (2 * PI) /\
  (Rabs x1 <= Rabs x2 -> normalPDF x2 <= normalPDF x1).
Proof.
  split; [apply normalPDF_even|].
  split; [split; [left; apply normalPDF_pos | apply normalPDF_max]|].
  split; [apply normalPDF_at_0 | apply normalPDF_le].
Qed.

Lemma normalPDF_shape_witness : normalPDF 2 <= normalPDF (-1).
Proof.
  apply (proj2 (proj2 (proj2 (normalPDF_shape (-1) 2)))).
  rewrite Rabs_left, Rabs_pos_eq; lra.
Defined.

Lemma normalPDFGeneral_pos (x mean stdDev : R) :
  0 < stdDev -> 0 < normalPDFGeneral x mean stdDev.
Proof.
  intros Hs. unfold normalPDFGeneral. cbv zeta.
  apply Rdiv_lt_0_compat; [apply normalPDF_pos | assumption].
Qed.

(** X5: for a positive standard deviation [normalPDFGeneral] is never
    negative, largest at the mean, where it is
    [1 / (stdDev * sqrt (2 * PI))], and symmetric about it: equal at two
    points whose standardized distances [(x - mean) / stdDev] from the mean
    are opposite. *)
Theorem normalPDFGeneral_shape (mean stdDev x x1 x2 : R) :
  0 < stdDev ->
  0 <= normalPDFGeneral x mean stdDev <= normalPDFGeneral mean mean stdDev /\
  ((x1 - mean) / stdDev = - ((x2 - mean) / stdDev) ->
   normalPDFGeneral x1 mean stdDev = normalPDFGeneral x2 mean stdDev) /\
  normalPDFGeneral mean mean stdDev = 1 / (stdDev * sqrt (2 * PI)).
Proof.
  intros Hs.
  split; [split; [left; now apply normalPDFGeneral_pos|]|].
  - unfold normalPDFGeneral. cbv zeta.
    assert (Hi : 0 < / stdDev) by now apply Rinv_0_lt_compat.
    replace ((mean - mean) / stdDev) with 0 by (field; lra).
    pose proof (normalPDF_max ((x - mean) / stdDev)).
    unfold Rdiv. apply Rmult_le_compat_r; lra.
  - unfold normalPDFGeneral. cbv zeta. pose proof sqrt_2PI_pos as Hp. split.
    + intros Hopp. rewrite Hopp. f_equal. apply normalPDF_even.
    + replace ((mean - mean) / stdDev) with 0 by (field; lra).
      rewrite normalPDF_at_0. field. split; lra.
Qed.

Lemma normalPDFGeneral_shape_witness :
  normalPDFGeneral 100 100 10 = 1 / (10 * sqrt (2 * PI)).
Proof. apply (normalPDFGeneral_shape 100 10 0 0 0). lra. Defined.

End SpecialFunctions.

(** ** The inverse cumulative distribution function *)

Section InverseCDF.
Import NormalDistribution RoundTrip.

Lemma ln_le_compat (a b : R) : 0 < a -> a <= b -> ln a <= ln b.
Proof.
  intros Ha [H|H]; [left; now apply ln_increasing | rewrite H; lra].
Qed.

(** [ln (- ln 0.08)], where the tail branch starts, from below. *)
Lemma tail_boundary_parameter (q : R) :
  0 < q <= 0.08 -> 2.525728644288 <= - ln q /\ 0.92652959308 <= ln (- ln q).
Proof.
  intros Hq.
  assert (H8 : ln 0.08 <= -2.525728644288).
  { apply ln_upper; [lra|].
    replace (-2.525728644288) with (IZR (-2525728644288) / IZR 1000000000000) by lra.
    replace 0.08 with (IZR 8 / IZR 100) by lra.
    apply exp_Q_lower with (prec := 112%Z) (K := 48%nat);
      try reflexivity; vm_compute; discriminate. }
  pose proof (ln_le_compat q 0.08 ltac:(lra) ltac:(lra)) as Hl.
  split; [lra|].
  apply ln_lower; [lra|].
  apply Rle_trans with 2.525728644288; [|lra].
  replace 0.92652959308 with (IZR 92652959308 / IZR 100000000000) by lra.
  replace 2.525728644288 with (IZR 2525728644288 / IZR 1000000000000) by lra.
  apply exp_Q_upper with (prec := 112%Z) (K := 48%nat);
    try reflexivity; vm_compute; discriminate.
Qed.

Lemma tail_parameter_decreasing (q1 q2 : R) :
  0 < q1 -> q1 <= q2 -> q2 <= 0.08 ->
  0 <= ln (- ln q2) <= ln (- ln q1).
Proof.
  intros H1 H12 H2.
  destruct (tail_boundary_parameter q2 ltac:(lra)) as [HL Hs].
  pose proof (ln_le_compat q1 q2 H1 H12) as Hl.
  split; [lra|]. apply ln_le_compat; lra.
Qed.

(** The two branches meet in the right order: the central branch at its end
    [|p - 0.5| = 0.42] is below the tail branch at its start. *)
Lemma bsm_branches_ordered (q : R) :
  0 < q <= 0.08 -> bsm_quantile 0.42 <= bsm_tail_poly (ln (- ln q)).
Proof.
  intros Hq.
  destruct (tail_boundary_parameter q Hq) as [_ Hs].
  apply Rle_trans with (bsm_tail_poly 0.92652959308).
  - unfold bsm_quantile.
    destruct (bsm_num_den_pos (0.42 * 0.42) ltac:(lra)) as [_ Hd].
    apply Rmult_le_reg_r with (bsm_den (0.42 * 0.42)); [lra|].
    unfold Rdiv. rewrite Rmult_assoc, Rinv_l, Rmult_1_r by lra.
    unfold bsm_tail_poly, bsm_num, bsm_den,
      bsm_a0, bsm_a1, bsm_a2, bsm_a3, bsm_b0, bsm_b1, bsm_b2, bsm_b3,
      bsm_c0, bsm_c1, bsm_c2, bsm_c3, bsm_c4, bsm_c5, bsm_c6, bsm_c7, bsm_c8.
    lra.
  - apply bsm_tail_poly_increasing; lra.
Qed.

Lemma bsm_central_neg (y : R) : bsm_central y = - bsm_quantile (- y).
Proof. rewrite <- bsm_central_opp. f_equal. ring. Qed.

Lemma bsm_central_increasing (y1 y2 : R) :
  -0.42 <= y1 -> y1 <= y2 -> y2 <= 0.42 -> bsm_central y1 <= bsm_central y2.
Proof.
  intros H1 H12 H2.
  destruct (Rle_dec 0 y1) as [Hy1|Hy1].
  - rewrite (bsm_central_quantile y1), (bsm_central_quantile y2).
    apply bsm_quantile_increasing; lra.
  - rewrite (bsm_central_neg y1).
    destruct (Rle_dec 0 y2) as [Hy2|Hy2].
    + rewrite (bsm_central_quantile y2).
      pose proof (bsm_quantile_nonneg (- y1) ltac:(lra)).
      pose proof (bsm_quantile_nonneg y2 ltac:(lra)). lra.
    + rewrite (bsm_central_neg y2).
      pose proof (bsm_quantile_increasing (- y2) (- y1) ltac:(lra) ltac:(lra) ltac:(lra)).
      lra.
Qed.

Lemma bsm_central_sign (y : R) :
  -0.42 <= y <= 0.42 ->
  (y < 0 -> bsm_central y < 0) /\ (0 < y -> 0 < bsm_central y) /\
  (y = 0 -> bsm_central y = 0).
Proof.
  intros Hy. repeat split.
  - intros H. rewrite bsm_central_neg.
    pose proof (bsm_quantile_pos (- y) ltac:(lra)). lra.
  - intros H. rewrite (bsm_central_quantile y). apply bsm_quantile_pos. lra.
  - intros ->. unfold bsm_central. cbv zeta. unfold Rdiv. ring.
Qed.

(** The value of [normalInverseCDF] by region, with the bound that orders the
    regions. *)
Lemma normalInverseCDF_regions (p : R) :
  0 < p < 1 ->
  exists x : R,
    normalInverseCDF p = Return x /\
    (p <= 0.08 -> x = - bsm_tail_poly (ln (- ln p)) /\ x <= - bsm_quantile 0.42) /\
    (0.08 < p < 0.92 ->
       x = bsm_central (p - 0.5) /\ - bsm_quantile 0.42 <= x <= bsm_quantile 0.42) /\
    (0.92 <= p -> x = bsm_tail_poly (ln (- ln (1 - p))) /\ bsm_quantile 0.42 <= x).
Proof.
  intros Hp.
  destruct (Rle_dec p 0.08) as [HL|HL]; [|destruct (Rle_dec 0.92 p) as [HU|HU]].
  - exists (- bsm_tail_poly (ln (- ln p))).
    split; [apply inverse_lower_tail; lra|].
    split; [|split]; intros H; try lra.
    split; [reflexivity|].
    pose proof (bsm_branches_ordered p ltac:(lra)). lra.
  - exists (bsm_tail_poly (ln (- ln (1 - p)))).
    split; [apply inverse_upper_tail; lra|].
    split; [|split]; intros H; try lra.
    split; [reflexivity|].
    apply bsm_branches_ordered. lra.
  - exists (bsm_central (p - 0.5)).
    split; [apply inverse_central; lra|].
    split; [|split]; intros H; try lra.
    split; [reflexivity|].
    pose proof (bsm_central_increasing (-0.42) (p - 0.5) ltac:(lra) ltac:(lra) ltac:(lra)) as H1.
    pose proof (bsm_central_increasing (p - 0.5) 0.42 ltac:(lra) ltac:(lra) ltac:(lra)) as H2.
    rewrite (bsm_central_neg (-0.42)) in H1.
    replace (- -0.42) with 0.42 in H1 by lra.
    rewrite (bsm_central_quantile 0.42) in H2. lra.
Qed.

(** X6: on its domain [normalInverseCDF] is odd about [0.5]: the quantile
    of [1 - p] is the negation of the quantile of [p], on both branches and
    where they meet; it is negative below [0.5], [0] at [0.5] and positive
    above. *)
Theorem normalInverseCDF_odd (p : R) :
  0 < p < 1 ->
  exists x : R,
    normalInverseCDF p = Return x /\
    normalInverseCDF (1 - p) = Return (- x) /\
    (p < 0.5 -> x < 0) /\ (p = 0.5 -> x = 0) /\ (0.5 < p -> 0 < x).
Proof.
  intros Hp.
  destruct (normalInverseCDF_regions p Hp) as (x & Hx & HL & HC & HU).
  destruct (normalInverseCDF_regions (1 - p) ltac:(lra)) as (x' & Hx' & HL' & HC' & HU').
  exists x. split; [exact Hx|]. rewrite Hx'.
  destruct (Rle_dec p 0.08) as [H1|H1]; [|destruct (Rle_dec 0.92 p) as [H2|H2]].
  - destruct (HL H1) as [-> _]. destruct (HU' ltac:(lra)) as [-> _].
    replace (1 - (1 - p)) with p by ring.
    destruct (tail_parameter_decreasing p p ltac:(lra) ltac:(lra) H1) as [Hs _].
    pose proof (bsm_tail_poly_pos _ Hs).
    split; [f_equal; ring|]. repeat split; intros; lra.
  - destruct (HU H2) as [-> _]. destruct (HL' ltac:(lra)) as [-> _].
    destruct (tail_parameter_decreasing (1 - p) (1 - p) ltac:(lra) ltac:(lra) ltac:(lra))
      as [Hs _].
    pose proof (bsm_tail_poly_pos _ Hs).
    split; [reflexivity|]. repeat split; intros; lra.
  - destruct (HC ltac:(lra)) as [-> _]. destruct (HC' ltac:(lra)) as [-> _].
    replace (1 - p - 0.5) with (- (p - 0.5)) by lra.
    rewrite bsm_central_opp, (bsm_central_quantile (p - 0.5)).
    split; [reflexivity|].
    rewrite <- (bsm_central_quantile (p - 0.5)).
    destruct (bsm_central_sign (p - 0.5) ltac:(lra)) as (Hn & Hpos & Hz).
    repeat split; intros.
    + apply Hn; lra.
    + apply Hz; lra.
    + apply Hpos; lra.
Qed.

Lemma normalInverseCDF_odd_witness :
  exists x : R,
    normalInverseCDF 0.1 = Return x /\
    normalInverseCDF (1 - 0.1) = Return (- x) /\
    (0.1 < 0.5 -> x < 0) /\ (0.1 = 0.5 -> x = 0) /\ (0.5 < 0.1 -> 0 < x).
Proof. apply normalInverseCDF_odd. lra. Defined.

(** Two quantiles come in the order of their probabilities. *)
Lemma quantile_le (p1 p2 x1 x2 : R) :
  0 < p1 -> p1 <= p2 -> p2 < 1 ->
  normalInverseCDF p1 = Return x1 -> normalInverseCDF p2 = Return x2 -> x1 <= x2.
Proof.
  intros H1 H12 H2 R1 R2.
  destruct (normalInverseCDF_regions p1 ltac:(lra)) as (y1 & Hx1 & HL1 & HC1 & HU1).
  destruct (normalInverseCDF_regions p2 ltac:(lra)) as (y2 & Hx2 & HL2 & HC2 & HU2).
  rewrite R1 in Hx1. injection Hx1 as <-. rewrite R2 in Hx2. injection Hx2 as <-.
  pose proof (bsm_quantile_nonneg 0.42 ltac:(lra)) as HQ.
  destruct (Rle_dec p1 0.08) as [A1|A1]; [|destruct (Rle_dec 0.92 p1) as [B1|B1]].
  - destruct (HL1 A1) as [E1 Hb1].
    destruct (Rle_dec p2 0.08) as [A2|A2]; [|destruct (Rle_dec 0.92 p2) as [B2|B2]].
    + destruct (HL2 A2) as [E2 _]. subst x1 x2.
      destruct (tail_parameter_decreasing p1 p2 H1 H12 A2) as [Hs0 Hs].
      pose proof (bsm_tail_poly_increasing _ _ Hs0 Hs). lra.
    + destruct (HU2 B2) as [_ Hb2]. lra.
    + destruct (HC2 ltac:(lra)) as [_ Hb2]. lra.
  - destruct (HU1 B1) as [E1 _]. destruct (HU2 ltac:(lra)) as [E2 _]. subst x1 x2.
    destruct (tail_parameter_decreasing (1 - p2) (1 - p1) ltac:(lra) ltac:(lra) ltac:(lra))
      as [Hs0 Hs].
    now apply bsm_tail_poly_increasing.
  - destruct (HC1 ltac:(lra)) as [E1 Hb1].
    destruct (Rle_dec 0.92 p2) as [B2|B2].
    + destruct (HU2 B2) as [_ Hb2]. lra.
    + destruct (HC2 ltac:(lra)) as [E2 _]. subst x1 x2.
      apply bsm_central_increasing; lra.
Qed.

(** X7: [normalInverseCDF] is non-decreasing on its domain; in particular
    the switch between the rational approximation and the tail polynomial
    at [|p - 0.5| = 0.42] does not step downwards. *)
Theorem normalInverseCDF_increasing (p1 p2 : R) :
  0 < p1 -> p1 <= p2 -> p2 < 1 ->
  exists x1 x2 : R,
    normalInverseCDF p1 = Return x1 /\ normalInverseCDF p2 = Return x2 /\ x1 <= x2.
Proof.
  intros H1 H12 H2.
  destruct (normalInverseCDF_regions p1 ltac:(lra)) as (x1 & Hx1 & _).
  destruct (normalInverseCDF_regions p2 ltac:(lra)) as (x2 & Hx2 & _).
  exists x1, x2. split; [exact Hx1|]. split; [exact Hx2|].
  exact (quantile_le p1 p2 x1 x2 H1 H12 H2 Hx1 Hx2).
Qed.

Lemma normalInverseCDF_increasing_witness :
  exists x1 x2 : R,
    normalInverseCDF 0.05 = Return x1 /\ normalInverseCDF 0.5 = Return x2 /\ x1 <= x2.
Proof. apply normalInverseCDF_increasing; lra. Defined.

End InverseCDF.

(** ** The lognormal law and the statistics of the two revisions *)

Section LognormalLaw.
Import NormalDistribution Lognormal.

Lemma lognormalCDF_pos_eq (x logMean logStdDev : R) :
  0 < x -> lognormalCDF x logMean logStdDev = normalCDFGeneral (ln x) logMean logStdDev.
Proof.
  intros Hx. unfold lognormalCDF, normalCDFGeneral.
  destruct (Rle_dec x 0) as [H|_]; [lra | reflexivity].
Qed.

Lemma lognormalCDF_le (logMean logStdDev x1 x2 : R) :
  0 < logStdDev -> x1 <= x2 ->
  lognormalCDF x1 logMean logStdDev <= lognormalCDF x2 logMean logStdDev.
Proof.
  intros Hs H12. unfold lognormalCDF. cbv zeta.
  assert (Hi : 0 < / logStdDev) by now apply Rinv_0_lt_compat.
  destruct (Rle_dec x1 0) as [H1|H1]; destruct (Rle_dec x2 0) as [H2|H2]; try lra.
  - left. apply normalCDF_bounds.
  - apply normalCDF_le. unfold Rdiv. apply Rmult_le_compat_r; [lra|].
    pose proof (ln_le_compat x1 x2 ltac:(lra) H12). lra.
Qed.

Lemma lognormalPDF_pos_eq (x logMean logStdDev : R) :
  0 < x -> 0 < logStdDev ->
  lognormalPDF x logMean logStdDev = normalPDFGeneral (ln x) logMean logStdDev / x.
Proof.
  intros Hx Hs. pose proof sqrt_2PI_pos as Hp.
  unfold lognormalPDF, normalPDFGeneral, normalPDF. cbv zeta.
  destruct (Rle_dec x 0) as [H|_]; [lra|]. field. repeat split; lra.
Qed.

Lemma lognormalPDF_pos (x logMean logStdDev : R) :
  0 < x -> 0 < logStdDev -> 0 < lognormalPDF x logMean logStdDev.
Proof.
  intros Hx Hs. rewrite lognormalPDF_pos_eq by assumption.
  apply Rdiv_lt_0_compat; [now apply normalPDFGeneral_pos | exact Hx].
Qed.

(** X8: for [x >= 1], where the sampled curve lies, and a positive
    [logStdDev], [lognormalPDF] is the normal density of [ln x] divided by
    [x] (the change of variables of the lognormal law), and it is never
    negative; at the median, where [ln x = logMean], it is
    [1 / (x * logStdDev * sqrt (2 * PI))]. *)
Theorem lognormalPDF_change_of_variable (x logMean logStdDev : R) :
  1 <= x -> 0 < logStdDev ->
  lognormalPDF x logMean logStdDev = normalPDFGeneral (ln x) logMean logStdDev / x /\
  0 <= lognormalPDF x logMean logStdDev /\
  (ln x = logMean ->
   lognormalPDF x logMean logStdDev = 1 / (x * logStdDev * sqrt (2 * PI))).
Proof.
  intros Hx1 Hs. assert (Hx : 0 < x) by lra.
  split; [now apply lognormalPDF_pos_eq|].
  split; [left; now apply lognormalPDF_pos|].
  intros Hm. unfold lognormalPDF. cbv zeta.
  destruct (Rle_dec x 0) as [H|_]; [lra|].
  rewrite Hm.
  replace (-0.5 * ((logMean - logMean) / logStdDev) * ((logMean - logMean) / logStdDev))
    with 0 by (field; lra).
  now rewrite exp_0.
Qed.

Lemma lognormalPDF_change_of_variable_witness :
  lognormalPDF (exp 14) 14 0.5 = 1 / (exp 14 * 0.5 * sqrt (2 * PI)).
Proof.
  refine (proj2 (proj2 (lognormalPDF_change_of_variable (exp 14) 14 0.5 _ _)) _).
  - rewrite <- exp_0. apply exp_le. lra.
  - lra.
  - apply ln_exp.
Defined.

(** X9: for a positive [logStdDev], [lognormalCDF] is non-decreasing over
    the whole line (the branch [x <= 0] included), stays in [[0, 1]], is
    the normal CDF of [ln x] for [x > 0], returns [0.5000000005] at the
    median, where [ln x = logMean], and at two positive points whose
    standardized logarithms [(ln x - logMean) / logStdDev] are opposite
    and not zero its values add up to [1]. *)
Theorem lognormalCDF_shape (logMean logStdDev : R) :
  0 < logStdDev ->
  (forall x1 x2 : R, x1 <= x2 ->
     lognormalCDF x1 logMean logStdDev <= lognormalCDF x2 logMean logStdDev) /\
  (forall x : R, 0 <= lognormalCDF x logMean logStdDev <= 1) /\
  (forall x : R, 0 < x ->
     lognormalCDF x logMean logStdDev = normalCDFGeneral (ln x) logMean logStdDev) /\
  (forall x : R, 0 < x -> ln x = logMean ->
     lognormalCDF x logMean logStdDev = 0.5000000005) /\
  (forall x1 x2 : R, 0 < x1 -> 0 < x2 ->
     (ln x1 - logMean) / logStdDev = - ((ln x2 - logMean) / logStdDev) ->
     (ln x1 - logMean) / logStdDev <> 0 ->
     lognormalCDF x1 logMean logStdDev + lognormalCDF x2 logMean logStdDev = 1).
Proof.
  intros Hs.
  split; [intros x1 x2; now apply lognormalCDF_le|].
  split; [|split; [intros x; apply lognormalCDF_pos_eq|split]].
  - intros x. unfold lognormalCDF. cbv zeta.
    destruct (Rle_dec x 0) as [_|_]; [lra|].
    pose proof (normalCDF_bounds ((ln x - logMean) / logStdDev)). lra.
  - intros x Hx Hm. rewrite lognormalCDF_pos_eq by assumption. rewrite Hm.
    unfold normalCDFGeneral.
    replace ((logMean - logMean) / logStdDev) with 0 by (field; lra).
    apply normalCDF_at_0.
  - intros x1 x2 H1 H2 Hopp Hd. rewrite !lognormalCDF_pos_eq by assumption.
    unfold normalCDFGeneral. rewrite Hopp in *.
    rewrite Rplus_comm. apply normalCDF_complement_nonzero.
    intros H0. apply Hd. rewrite H0. ring.
Qed.

Lemma lognormalCDF_shape_witness :
  lognormalCDF (exp 14) 14 0.5 = 0.5000000005.
Proof.
  refine (proj1 (proj2 (proj2 (proj2 (lognormalCDF_shape 14 0.5 _)))) (exp 14) _ _).
  - lra.
  - apply exp_pos.
  - apply ln_exp.
Defined.

Lemma ln_1_plus_le (u : R) : -1 < u -> ln (1 + u) <= u.
Proof.
  intros Hu. apply ln_upper; [lra|]. apply exp_ineq1_le.
Qed.


(** X10: for a positive investment, a non-negative risk and duration: the
    statistics of the lognormal revision satisfy
    [0 < exp logMean <= mean] (median below mean), [0 <= logStdDev] and
    [0 <= stdDev]; those of the normal-approximation revision (expected
    return above -100%) satisfy [0 < mean] and [0 <= stdDev]; and the mean
    of the normal-approximation revision, compounding once a year, is never
    above the mean of the lognormal revision, compounding continuously. *)
Theorem statistics_ordering (params : InvestmentDistributionParams) :
  0 < initialAssets params -> 0 <= risk params -> 0 <= years params ->
  let l := Lognormal.calculateInvestmentDistribution params in
  let n := NormalApprox.calculateInvestmentDistribution params in
  (0 < exp (Lognormal.logMean l) <= Lognormal.mean l /\
   0 <= Lognormal.logStdDev l /\ 0 <= Lognormal.stdDev l) /\
  (-100 < expectedReturn params ->
   0 < NormalApprox.mean n /\ 0 <= NormalApprox.stdDev n /\
   NormalApprox.mean n <= Lognormal.mean l).
Proof.
  intros HA Hr Ht. cbv zeta.
  unfold Lognormal.calculateInvestmentDistribution,
    NormalApprox.calculateInvestmentDistribution. simpl.
  set (A := initialAssets params) in *. set (mu := expectedReturn params / 100).
  set (sg := risk params / 100). set (t := years params) in *.
  assert (Hsg : 0 <= sg) by (unfold sg; lra).
  pose proof (sqrt_pos t) as Hsq.
  pose proof (exp_pos (mu * t)) as He.
  split.
  - split; [split; [apply exp_pos|]|split].
    + rewrite exp_plus, exp_ln by assumption.
      apply Rmult_le_compat_l; [lra|]. apply exp_le.
      assert (0 <= sg * sg / 2 * t) by (apply Rmult_le_pos; nra). lra.
    + now apply Rmult_le_pos.
    + apply Rmult_le_pos; [nra | apply sqrt_pos].
  - intros Her.
    assert (Hb : 0 < 1 + mu) by (unfold mu; lra).
    pose proof (Math_pow_pos (1 + mu) t Hb) as Hpw.
    split; [nra|]. split.
    + apply Rmult_le_pos; [apply Rmult_le_pos; nra | assumption].
    + apply Rmult_le_compat_l; [lra|].
      rewrite Math_pow_Rpower by assumption. unfold Rpower. apply exp_le.
      pose proof (ln_1_plus_le mu ltac:(lra)). rewrite (Rmult_comm mu t).
      apply Rmult_le_compat_l; assumption.
Qed.

Lemma statistics_ordering_witness :
  NormalApprox.mean (NormalApprox.calculateInvestmentDistribution example_params)
  <= Lognormal.mean (Lognormal.calculateInvestmentDistribution example_params).
Proof.
  refine (proj2 (proj2 (proj2 (statistics_ordering example_params _ _ _) _)));
    simpl; lra.
Defined.

End LognormalLaw.

(** ** The sampled curves and what the pages read from them *)

Section SampledCurves.
Import NormalDistribution.

Lemma sample_loop_In (pdf : R -> R) (xMin step : R) (n : nat) (d : DensitySample) :
  In d (sample_loop pdf xMin step n 0 []) ->
  exists k : nat, (k < n)%nat /\
    d = mkSample (xMin + INR k * step) (pdf (xMin + INR k * step)).
Proof.
  rewrite sample_loop_map. simpl. intros H.
  apply in_map_iff in H as (k & <- & Hk). apply in_seq in Hk.
  exists k. split; [lia | reflexivity].
Qed.

(** Between its two ends the grid is monotone in the index. *)
Lemma grid_point_range (xMin xMax : R) (numPoints : Z) (k : nat) :
  (2 <= numPoints)%Z -> (k < Z.to_nat numPoints)%nat -> xMin <= xMax ->
  let step := (xMax - xMin) / (IZR numPoints - 1) in
  0 <= step /\ xMin <= xMin + INR k * step <= xMax.
Proof.
  intros HN Hk Hle step.
  destruct (count_pred numPoints HN) as [Hc Hpos].
  assert (Hstep : 0 <= step).
  { unfold step, Rdiv. apply Rmult_le_pos; [lra|]. left. now apply Rinv_0_lt_compat. }
  assert (Hk' : INR k <= IZR numPoints - 1).
  { rewrite <- Hc. apply le_INR. lia. }
  assert (Hend : (IZR numPoints - 1) * step = xMax - xMin).
  { unfold step. field. lra. }
  pose proof (pos_INR k) as Hk0.
  split; [exact Hstep|]. split; [nra|].
  assert (INR k * step <= (IZR numPoints - 1) * step)
    by (apply Rmult_le_compat_r; assumption).
  lra.
Qed.

Lemma sample_loop_sorted (pdf : R -> R) (xMin step : R) (n i j : nat)
    (a b : DensitySample) :
  0 <= step -> (i <= j)%nat ->
  nth_error (sample_loop pdf xMin step n 0 []) i = Some a ->
  nth_error (sample_loop pdf xMin step n 0 []) j = Some b ->
  x a <= x b.
Proof.
  intros Hstep Hij Ha Hb.
  assert (Hi : (i < n)%nat).
  { rewrite <- (sample_loop_length pdf xMin step n). apply nth_error_Some.
    rewrite Ha. discriminate. }
  assert (Hj : (j < n)%nat).
  { rewrite <- (sample_loop_length pdf xMin step n). apply nth_error_Some.
    rewrite Hb. discriminate. }
  rewrite sample_loop_nth in Ha, Hb by assumption.
  injection Ha as <-. injection Hb as <-. simpl.
  apply le_INR in Hij. nra.
Qed.

(** X11: with at least two points, a non-negative spread and a right end
    that is not negative, every sample of [generateNormalDistributionData]
    has [0 <= max (0, mean - numStdDev * stdDev) <= x <= mean + numStdDev *
    stdDev]; for a positive [stdDev] no [y] is negative or above the
    peak density [normalPDFGeneral mean mean stdDev], and along the curve
    the probability [normalCDFGeneral x mean stdDev] that the tooltip shows
    never decreases. *)
Theorem normal_curve_range (mean stdDev numStdDev : R) (numPoints : Z) :
  (2 <= numPoints)%Z -> 0 <= numStdDev * stdDev -> 0 <= mean + numStdDev * stdDev ->
  let data := generateNormalDistributionData mean stdDev numPoints numStdDev in
  Forall (fun d : DensitySample =>
     0 <= Rmax 0 (mean - numStdDev * stdDev) <= x d /\
     x d <= mean + numStdDev * stdDev /\
     (0 < stdDev -> 0 <= y d <= normalPDFGeneral mean mean stdDev)) data /\
  (forall (i j : nat) (a b : DensitySample),
     0 < stdDev -> (i <= j)%nat ->
     nth_error data i = Some a -> nth_error data j = Some b ->
     normalCDFGeneral (x a) mean stdDev <= normalCDFGeneral (x b) mean stdDev).
Proof.
  intros HN Hsp Hend data. unfold data, generateNormalDistributionData. cbv zeta.
  set (xMin := Rmax 0 (mean - numStdDev * stdDev)).
  set (xMax := mean + numStdDev * stdDev).
  assert (Hle : xMin <= xMax).
  { unfold xMin, xMax. apply Rmax_lub; lra. }
  assert (H0 : 0 <= xMin) by apply Rmax_l.
  split.
  - apply Forall_forall.
    intros d Hd. apply sample_loop_In in Hd as (k & Hk & ->).
    destruct (grid_point_range xMin xMax numPoints k HN Hk Hle) as [_ Hr].
    cbv zeta in Hr. simpl.
    split; [lra|]. split; [lra|].
    intros Hs. split; [left; now apply normalPDFGeneral_pos|].
    unfold normalPDFGeneral. cbv zeta.
    assert (Hi : 0 < / stdDev) by now apply Rinv_0_lt_compat.
    replace ((mean - mean) / stdDev) with 0 by (field; lra).
    unfold Rdiv at 1 3. apply Rmult_le_compat_r; [lra | apply normalPDF_max].
  - intros i j a b Hs Hij Ha Hb.
    destruct (grid_point_range xMin xMax numPoints 0 HN ltac:(lia) Hle) as [Hstep _].
    cbv zeta in Hstep.
    pose proof (sample_loop_sorted _ _ _ _ _ _ _ _ Hstep Hij Ha Hb) as Hx.
    unfold normalCDFGeneral.
    assert (Hi : 0 < / stdDev) by now apply Rinv_0_lt_compat.
    apply normalCDF_le. unfold Rdiv. apply Rmult_le_compat_r; lra.
Qed.

Lemma normal_curve_range_witness :
  Forall (fun d : DensitySample =>
    0 <= Rmax 0 (100 - 3 * 10) <= x d /\ x d <= 100 + 3 * 10 /\
    (0 < 10 -> 0 <= y d <= normalPDFGeneral 100 100 10))
    (generateNormalDistributionData 100 10 300 3).
Proof.
  refine (proj1 (normal_curve_range 100 10 3 300 _ _ _)); [lia | lra | lra].
Defined.

(** X12: with at least two points, a non-negative spread and a right end
    that is at least [1] and finite in double arithmetic
    ([0 <= logMean + numStdDev * logStdDev <= 700]), every sample of
    [generateLognormalDistributionData] has its [x] between the left end [exp (max (0, logMean - numStdDev * logStdDev))], which is at
    least [1], and the right end [exp (logMean + numStdDev * logStdDev)],
    so that the generator stays off the branch [x <= 0] of [lognormalPDF];
    for a positive [logStdDev] no [y] is negative, and along the curve the
    probability [lognormalCDF x logMean logStdDev] that the tooltip shows
    never decreases. *)
Theorem lognormal_curve_range (logMean logStdDev numStdDev : R) (numPoints : Z) :
  (2 <= numPoints)%Z ->
  0 <= numStdDev * logStdDev -> 0 <= logMean + numStdDev * logStdDev <= 700 ->
  let data :=
    Lognormal.generateLognormalDistributionData logMean logStdDev numPoints numStdDev in
  Forall (fun d : DensitySample =>
     1 <= exp (Rmax 0 (logMean - numStdDev * logStdDev)) <= x d /\
     x d <= exp (logMean + numStdDev * logStdDev) /\
     (0 < logStdDev -> 0 <= y d)) data /\
  (forall (i j : nat) (a b : DensitySample),
     0 < logStdDev -> (i <= j)%nat ->
     nth_error data i = Some a -> nth_error data j = Some b ->
     Lognormal.lognormalCDF (x a) logMean logStdDev
     <= Lognormal.lognormalCDF (x b) logMean logStdDev).
Proof.
  intros HN Hsp [Hend _] data.
  unfold data, Lognormal.generateLognormalDistributionData. cbv zeta.
  set (xMin := exp (Rmax 0 (logMean - numStdDev * logStdDev))).
  set (xMax := exp (logMean + numStdDev * logStdDev)).
  assert (Hle : xMin <= xMax).
  { unfold xMin, xMax. apply exp_le. apply Rmax_lub; lra. }
  assert (H1 : 1 <= xMin).
  { unfold xMin. rewrite <- exp_0 at 1. apply exp_le. apply Rmax_l. }
  split.
  - apply Forall_forall.
    intros d Hd. apply sample_loop_In in Hd as (k & Hk & ->).
    destruct (grid_point_range xMin xMax numPoints k HN Hk Hle) as [_ Hr].
    cbv zeta in Hr. simpl.
    split; [lra|]. split; [lra|].
    intros Hs. left. apply lognormalPDF_pos; lra.
  - intros i j a b Hs Hij Ha Hb.
    destruct (grid_point_range xMin xMax numPoints 0 HN ltac:(lia) Hle) as [Hstep _].
    cbv zeta in Hstep.
    pose proof (sample_loop_sorted _ _ _ _ _ _ _ _ Hstep Hij Ha Hb) as Hx.
    now apply lognormalCDF_le.
Qed.

Lemma lognormal_curve_range_witness :
  Forall (fun d : DensitySample =>
     1 <= exp (Rmax 0 (14 - 3 * 0.5)) <= x d /\
     x d <= exp (14 + 3 * 0.5) /\
     (0 < 0.5 -> 0 <= y d))
    (Lognormal.generateLognormalDistributionData 14 0.5 300 3).
Proof.
  refine (proj1 (lognormal_curve_range 14 0.5 3 300 _ _ _)); [lia | lra | lra].
Defined.

End SampledCurves.

(** *** The vertical lines of the lognormal chart *)

Section ChartMarkers.
Import NormalDistribution.

Lemma findIndex_from_lower {A : Type} (p : A -> bool) (l : list A) :
  forall i : Z, findIndex_from p l i <> (-1)%Z -> (i <= findIndex_from p l i)%Z.
Proof.
  induction l as [|a t IH]; intros i H; simpl in *.
  - contradiction.
  - destruct (p a); [lia|]. specialize (IH (i + 1)%Z H). lia.
Qed.

Lemma findIndex_from_upper {A : Type} (p : A -> bool) (l : list A) :
  forall i : Z, (0 <= i)%Z ->
    (-1 <= findIndex_from p l i < i + Z.of_nat (length l))%Z.
Proof.
  induction l as [|a t IH]; intros i Hi; simpl length.
  - simpl. lia.
  - simpl findIndex_from. destruct (p a); [lia|].
    specialize (IH (i + 1)%Z ltac:(lia)). lia.
Qed.

Lemma findIndex_from_none {A : Type} (p : A -> bool) (l : list A) :
  forall i : Z, (0 <= i)%Z ->
    (findIndex_from p l i = (-1)%Z <-> forall a : A, In a l -> p a = false).
Proof.
  induction l as [|a t IH]; intros i Hi; simpl.
  - split; [intros _ a [] | reflexivity].
  - destruct (p a) eqn:Hp.
    + split; [lia|]. intros H. specialize (H a (or_introl eq_refl)). congruence.
    + rewrite (IH (i + 1)%Z ltac:(lia)). split.
      * intros H b [<-|Hb]; [exact Hp | now apply H].
      * intros H b Hb. apply H. now right.
Qed.

Lemma findIndex_from_mono {A : Type} (p q : A -> bool) (l : list A) :
  (forall a : A, q a = true -> p a = true) ->
  forall i : Z, findIndex_from q l i <> (-1)%Z ->
    (i <= findIndex_from p l i <= findIndex_from q l i)%Z.
Proof.
  intros Himp. induction l as [|a t IH]; intros i H; simpl in *.
  - contradiction.
  - destruct (p a) eqn:Hp.
    + destruct (q a); [lia|]. pose proof (findIndex_from_lower q t _ H). lia.
    + destruct (q a) eqn:Hq.
      * apply Himp in Hq. congruence.
      * specialize (IH (i + 1)%Z H). lia.
Qed.

Lemma x_at_least_true (t : R) (d : DensitySample) : x_at_least t d = true <-> t <= x d.
Proof.
  unfold x_at_least. destruct (Rge_dec (x d) t); split; intros; try lra; congruence.
Qed.

Lemma x_at_least_false (t : R) (d : DensitySample) : x_at_least t d = false <-> x d < t.
Proof.
  unfold x_at_least. destruct (Rge_dec (x d) t); split; intros; try lra; congruence.
Qed.

(** The index of the first sample at or beyond [lo] is at most the one for
    a further target [hi], when that one exists. *)
Lemma marker_le (lo hi : R) (data : list DensitySample) :
  lo <= hi -> findIndex (x_at_least hi) data <> (-1)%Z ->
  (0 <= findIndex (x_at_least lo) data <= findIndex (x_at_least hi) data)%Z.
Proof.
  intros Hle H. unfold findIndex in *.
  apply findIndex_from_mono; [|exact H].
  intros d Hd. apply x_at_least_true in Hd. apply x_at_least_true. lra.
Qed.

Lemma marker_range (t : R) (data : list DensitySample) :
  (-1 <= findIndex (x_at_least t) data < Z.of_nat (length data))%Z.
Proof.
  unfold findIndex. pose proof (findIndex_from_upper (x_at_least t) data 0 ltac:(lia)).
  lia.
Qed.

(** On a curve from [xMin] up to [xMax] a target has a marker exactly when
    it is not beyond the right end, and the marker is the first sample when
    the target is not beyond the left end. *)
Lemma marker_on_curve (pdf : R -> R) (xMin xMax t : R) (numPoints : Z) :
  (2 <= numPoints)%Z -> xMin <= xMax ->
  let step := (xMax - xMin) / (IZR numPoints - 1) in
  let data := sample_loop pdf xMin step (Z.to_nat numPoints) 0 [] in
  (findIndex (x_at_least t) data <> (-1)%Z <-> t <= xMax) /\
  (findIndex (x_at_least t) data = 0%Z <-> t <= xMin).
Proof.
  intros HN Hle step data.
  destruct (sample_loop_curve pdf xMin xMax numPoints HN)
    as (Hlen & Hnth & Hfirst & Hlast & _). cbv zeta in *. fold step data in Hlen, Hnth, Hfirst, Hlast.
  split.
  - unfold findIndex. rewrite (findIndex_from_none _ _ 0%Z ltac:(lia)). split.
    + intros H. destruct (Rle_dec t xMax) as [|Hn]; [assumption|]. exfalso. apply H.
      intros d Hd. apply x_at_least_false.
      apply sample_loop_In in Hd as (k & Hk & ->). simpl.
      destruct (grid_point_range xMin xMax numPoints k HN Hk Hle) as [_ Hr].
      cbv zeta in Hr. fold step in Hr. lra.
    + intros Ht H.
      rewrite nth_error_map in Hlast.
      destruct (nth_error data (Z.to_nat numPoints - 1)) as [d|] eqn:Hd; [|discriminate].
      injection Hlast as Hx.
      pose proof (H d (nth_error_In _ _ Hd)) as Hf.
      apply x_at_least_false in Hf. lra.
  - rewrite nth_error_map in Hfirst.
    destruct data as [|d0 rest] eqn:Hdata; [discriminate|].
    simpl in Hfirst. injection Hfirst as Hx.
    unfold findIndex. simpl.
    destruct (x_at_least t d0) eqn:Hp.
    + apply x_at_least_true in Hp. split; [intros _; lra | reflexivity].
    + apply x_at_least_false in Hp. split; [|intros; lra].
      intros H0.
      pose proof (findIndex_from_lower (x_at_least t) rest 1%Z) as Hl.
      rewrite H0 in Hl. specialize (Hl ltac:(lia)). lia.
Qed.

(** The moments returned by the lognormal revision, in terms of the
    parameters it returns. *)
Lemma lognormal_moments (params : InvestmentDistributionParams) :
  0 < initialAssets params -> 0 <= years params ->
  let s := Lognormal.calculateInvestmentDistribution params in
  Lognormal.mean s
  = exp (Lognormal.logMean s + Lognormal.logStdDev s * Lognormal.logStdDev s / 2) /\
  Lognormal.stdDev s
  = Lognormal.mean s
    * sqrt (exp (Lognormal.logStdDev s * Lognormal.logStdDev s) - 1) /\
  0 < Lognormal.mean s /\ 0 <= Lognormal.stdDev s.
Proof.
  intros HA Ht. cbv zeta. unfold Lognormal.calculateInvestmentDistribution. simpl.
  set (A := initialAssets params) in *. set (mu := expectedReturn params / 100).
  set (sg := risk params / 100). set (t := years params) in *.
  assert (Hsq : sqrt t * sqrt t = t) by now apply sqrt_sqrt.
  assert (E2 : sg * sqrt t * (sg * sqrt t) = sg * sg * t).
  { transitivity (sg * sg * (sqrt t * sqrt t)); [ring | now rewrite Hsq]. }
  pose proof (exp_pos (mu * t)) as He.
  assert (Hm : 0 < A * exp (mu * t)) by now apply Rmult_lt_0_compat.
  split; [|split; [|split]].
  - rewrite E2.
    replace (ln A + (mu - sg * sg / 2) * t + sg * sg * t / 2) with (ln A + mu * t)
      by (unfold Rdiv; ring).
    rewrite exp_plus, exp_ln by assumption. reflexivity.
  - now rewrite E2.
  - exact Hm.
  - apply Rmult_le_pos; [lra | apply sqrt_pos].
Qed.

Lemma exp_le_inv (a b : R) : exp a <= exp b -> a <= b.
Proof.
  intros [H|H]; [left; now apply exp_lt_inv | right; now apply exp_inv].
Qed.

(** Beyond [logStdDev = 3] three standard deviations above the mean lie
    beyond [exp (logMean + 3 * logStdDev)]. *)
Lemma three_sigma_beyond (m sd : R) :
  3 <= sd ->
  exp (m + 3 * sd)
  < exp (m + sd * sd / 2) + 3 * (exp (m + sd * sd / 2) * sqrt (exp (sd * sd) - 1)).
Proof.
  intros Hsd.
  set (y := exp ((sd * sd - 1) / 2)).
  assert (Hy : 0 < y) by apply exp_pos.
  assert (Hyy : y * y = exp (sd * sd - 1)).
  { unfold y. rewrite <- exp_plus. f_equal. field. }
  assert (He1 : 2 <= exp 1) by (pose proof (exp_ineq1_le 1); lra).
  assert (HE : 10 <= exp (sd * sd)) by (pose proof (exp_ineq1_le (sd * sd)); nra).
  assert (Hle : y * y <= exp (sd * sd) - 1).
  { rewrite Hyy. unfold Rminus at 1. rewrite exp_plus, exp_Ropp.
    assert (Hinv : / exp 1 <= / 2) by (apply Rinv_le_contravar; lra).
    assert (0 < / exp 1) by (apply Rinv_0_lt_compat; lra).
    nra. }
  assert (Hsq : y <= sqrt (exp (sd * sd) - 1)).
  { rewrite <- (sqrt_square y) by lra. now apply sqrt_le_1_alt. }
  set (M := exp (m + sd * sd / 2)).
  assert (HM : 0 < M) by apply exp_pos.
  apply Rle_lt_trans with (3 * (M * y)).
  - apply Rle_trans with (exp 1 * (M * y)).
    + unfold M, y. rewrite <- !exp_plus. apply exp_le. nra.
    + apply Rmult_le_compat_r; [nra | apply exp_le_3].
  - assert (M * y <= M * sqrt (exp (sd * sd) - 1))
      by (apply Rmult_le_compat_l; lra).
    lra.
Qed.

(** X13: the markers of the lognormal chart come in the order of their
    targets.  For a positive invested amount and a non-negative duration,
    whenever the marker of a further target exists (is not [-1]) the
    marker of the nearer one exists and is not to its right:
    [-3 sigma <= -2 sigma <= -1 sigma <= mean <= +1 sigma <= +2 sigma <=
    +3 sigma], and break-even before the mean when the expected return is
    not negative; every marker is [-1] or an index of the 300 samples. *)
Theorem markers_ordered (settings : Settings.InvestmentSettings) (years : R)
    (tempInvestmentRatio : option R) :
  0 < PageInputs.investmentAmount settings tempInvestmentRatio -> 0 <= years ->
  let m := LognormalFigures.markers settings years tempInvestmentRatio in
  let ordered (lo hi : Z) := hi <> (-1)%Z -> (0 <= lo <= hi)%Z in
  let index (i : Z) := (-1 <= i < 300)%Z in
  ordered (LognormalFigures.minusThreeSigmaIndex m) (LognormalFigures.minusTwoSigmaIndex m) /\
  ordered (LognormalFigures.minusTwoSigmaIndex m) (LognormalFigures.minusOneSigmaIndex m) /\
  ordered (LognormalFigures.minusOneSigmaIndex m) (LognormalFigures.expectedReturnIndex m) /\
  ordered (LognormalFigures.expectedReturnIndex m) (LognormalFigures.plusOneSigmaIndex m) /\
  ordered (LognormalFigures.plusOneSigmaIndex m) (LognormalFigures.plusTwoSigmaIndex m) /\
  ordered (LognormalFigures.plusTwoSigmaIndex m) (LognormalFigures.plusThreeSigmaIndex m) /\
  (0 <= Settings.expectedReturn settings ->
   ordered (LognormalFigures.breakEvenIndex m) (LognormalFigures.expectedReturnIndex m)) /\
  index (LognormalFigures.breakEvenIndex m) /\
  index (LognormalFigures.expectedReturnIndex m) /\
  index (LognormalFigures.plusOneSigmaIndex m) /\
  index (LognormalFigures.minusOneSigmaIndex m) /\
  index (LognormalFigures.plusTwoSigmaIndex m) /\
  index (LognormalFigures.minusTwoSigmaIndex m) /\
  index (LognormalFigures.plusThreeSigmaIndex m) /\
  index (LognormalFigures.minusThreeSigmaIndex m).
Proof.
  unfold PageInputs.investmentAmount, PageInputs.currentInvestmentRatio.
  intros HA Ht. cbv zeta. unfold LognormalFigures.markers. cbv zeta.
  set (amount := Settings.totalAssets settings
                 * nullish tempInvestmentRatio (Settings.investmentRatio settings) / 100)
    in *.
  set (params := {| initialAssets := amount;
                    expectedReturn := Settings.expectedReturn settings;
                    risk := Settings.risk settings; years := years |}).
  destruct (lognormal_moments params HA Ht) as (_ & _ & Hmean & Hsd).
  cbv zeta in Hmean, Hsd.
  set (st := Lognormal.calculateInvestmentDistribution params) in *.
  set (data := Lognormal.generateLognormalDistributionData _ _ _ _).
  assert (Hlen : length data = 300%nat).
  { unfold data, Lognormal.generateLognormalDistributionData. cbv zeta.
    apply sample_loop_length. }
  assert (Hidx : forall t : R, (-1 <= findIndex (x_at_least t) data < 300)%Z).
  { intros t. pose proof (marker_range t data) as H. rewrite Hlen in H. lia. }
  cbn [LognormalFigures.breakEvenIndex LognormalFigures.expectedReturnIndex
       LognormalFigures.plusOneSigmaIndex LognormalFigures.minusOneSigmaIndex
       LognormalFigures.plusTwoSigmaIndex LognormalFigures.minusTwoSigmaIndex
       LognormalFigures.plusThreeSigmaIndex LognormalFigures.minusThreeSigmaIndex].
  fold params. fold st. fold data.
  repeat match goal with
         | |- (-1 <= _ < 300)%Z => apply Hidx
         | |- _ /\ _ => split
         end;
    try (apply marker_le; lra).
  intros Her. apply marker_le.
  unfold st, Lognormal.calculateInvestmentDistribution, params. simpl.
  rewrite <- (Rmult_1_r amount) at 1. apply Rmult_le_compat_l; [lra|].
  rewrite <- exp_0. apply exp_le.
  apply Rmult_le_pos; [|assumption]. unfold Rdiv. lra.
Qed.

Lemma markers_ordered_witness :
  (-1 <= LognormalFigures.breakEvenIndex
           (LognormalFigures.markers Settings.defaultSettings 10 None) < 300)%Z.
Proof.
  refine (proj1 (proj2 (proj2 (proj2 (proj2 (proj2 (proj2 (proj2
    (markers_ordered Settings.defaultSettings 10 None _ _)))))))));
    cbv [PageInputs.investmentAmount PageInputs.currentInvestmentRatio nullish
         Settings.totalAssets Settings.investmentRatio Settings.defaultSettings];
    lra.
Defined.

(** X14: which markers exist.  For a positive invested amount,
    non-negative risk and duration, a chart whose right end
    [exp (logMean + 3 * logStdDev)] is at least [1] and finite in double
    arithmetic ([0 <= logMean + 3 * logStdDev <= 700]) and
    [logStdDev <= 26]: the marker of the mean exists for
    [1e-6 <= logStdDev <= 5.9] and is [-1] from [logStdDev = 6.1] on; from
    [logStdDev = 3] on (for instance 100% risk over 9 years) the target
    [mean + 3 * stdDev] is beyond the right end of the chart, so
    [plusThreeSigmaIndex] is [-1]; the break-even marker exists when the
    invested amount is below the right end by one part in a million, and
    is [-1] when it is above it by as much.  (Where a target is within
    rounding of the right end, as the mean is at [risk = 0] and at
    [logStdDev = 6], nothing is stated.) *)
Theorem markers_found (settings : Settings.InvestmentSettings) (years : R)
    (tempInvestmentRatio : option R) :
  let amount := PageInputs.investmentAmount settings tempInvestmentRatio in
  let stats :=
    Lognormal.calculateInvestmentDistribution
      (PageInputs.params settings years tempInvestmentRatio) in
  let m := LognormalFigures.markers settings years tempInvestmentRatio in
  0 < amount -> 0 <= Settings.risk settings -> 0 <= years ->
  0 <= Lognormal.logMean stats + 3 * Lognormal.logStdDev stats <= 700 ->
  Lognormal.logStdDev stats <= 26 ->
  (1e-6 <= Lognormal.logStdDev stats <= 5.9 ->
   LognormalFigures.expectedReturnIndex m <> (-1)%Z) /\
  (6.1 <= Lognormal.logStdDev stats ->
   LognormalFigures.expectedReturnIndex m = (-1)%Z) /\
  (3 <= Lognormal.logStdDev stats -> LognormalFigures.plusThreeSigmaIndex m = (-1)%Z) /\
  (amount * (1 + 1e-6)
   <= exp (Lognormal.logMean stats + 3 * Lognormal.logStdDev stats) ->
   LognormalFigures.breakEvenIndex m <> (-1)%Z) /\
  (exp (Lognormal.logMean stats + 3 * Lognormal.logStdDev stats) * (1 + 1e-6)
   <= amount ->
   LognormalFigures.breakEvenIndex m = (-1)%Z).
Proof.
  intros amount stats m HA Hr Ht [Hend _] _.
  cbv beta delta [PageInputs.params PageInputs.investmentAmount
                  PageInputs.currentInvestmentRatio] in amount, stats.
  fold amount in stats.
  destruct (lognormal_moments
              {| initialAssets := amount;
                 expectedReturn := Settings.expectedReturn settings;
                 risk := Settings.risk settings; years := years |} HA Ht)
    as (Emean & Esd & Hmean & Hsd).
  cbv zeta in Emean, Esd, Hmean, Hsd. fold stats in Emean, Esd, Hmean, Hsd.
  set (lm := Lognormal.logMean stats) in *. set (ls := Lognormal.logStdDev stats) in *.
  assert (Hle : exp (Rmax 0 (lm - 3 * ls)) <= exp (lm + 3 * ls)).
  { apply exp_le. apply Rmax_lub; [lra|].
    assert (0 <= ls); [|lra].
    unfold ls, stats, Lognormal.calculateInvestmentDistribution. simpl.
    apply Rmult_le_pos; [unfold Rdiv; lra | apply sqrt_pos]. }
  assert (Hon : forall t : R,
            findIndex (x_at_least t)
              (Lognormal.generateLognormalDistributionData lm ls 300 3) <> (-1)%Z
            <-> t <= exp (lm + 3 * ls)).
  { intros t.
    exact (proj1 (marker_on_curve (fun x => Lognormal.lognormalPDF x lm ls)
                    _ _ t 300 ltac:(lia) Hle)). }
  assert (Hoff : forall t : R,
            exp (lm + 3 * ls) < t ->
            findIndex (x_at_least t)
              (Lognormal.generateLognormalDistributionData lm ls 300 3) = (-1)%Z).
  { intros t Hlt.
    destruct (Z.eq_dec
      (findIndex (x_at_least t)
         (Lognormal.generateLognormalDistributionData lm ls 300 3)) (-1)) as [E|E];
      [exact E|].
    apply Hon in E. lra. }
  pose proof (exp_pos (lm + 3 * ls)) as Hright.
  unfold m, LognormalFigures.markers. cbv zeta.
  cbn [LognormalFigures.breakEvenIndex LognormalFigures.expectedReturnIndex
       LognormalFigures.plusThreeSigmaIndex].
  fold amount. fold stats. fold lm ls.
  split; [|split; [|split; [|split]]].
  - intros Hs. apply Hon. rewrite Emean. apply exp_le. nra.
  - intros Hs. apply Hoff. rewrite Emean. apply exp_increasing. nra.
  - intros H3. apply Hoff. rewrite Esd, Emean.
    pose proof (three_sigma_beyond lm ls H3). lra.
  - intros Hb. apply Hon. nra.
  - intros Hb. apply Hoff. nra.
Qed.

Lemma ln_5000000_bounds : 0 <= ln 5000000 <= 16.
Proof.
  split.
  - rewrite <- ln_1. apply ln_le_compat; lra.
  - apply ln_upper; [lra|].
    replace 16 with (IZR 16 / IZR 1) by lra.
    replace 5000000 with (IZR 5000000 / IZR 1) by lra.
    apply exp_Q_lower with (prec := 64%Z) (K := 30%nat);
      try reflexivity; vm_compute; discriminate.
Qed.

Lemma markers_found_witness :
  LognormalFigures.expectedReturnIndex
    (LognormalFigures.markers Settings.defaultSettings 10 None) <> (-1)%Z.
Proof.
  pose proof ln_5000000_bounds as Hln. pose proof sqrt_10_bounds as Hsq.
  refine (proj1 (markers_found Settings.defaultSettings 10 None _ _ _ _ _) _);
    cbv [PageInputs.params PageInputs.investmentAmount PageInputs.currentInvestmentRatio];
    simpl;
    try replace (10000000 * 50 / 100) with 5000000 by lra;
    lra.
Defined.

End ChartMarkers.

(** ** The figures of the two distribution pages *)

Section PageResults.
Import NormalDistribution RoundTrip PageInputs.


Lemma normalInverseCDF_outside (p : R) :
  p <= 0 \/ 1 <= p -> normalInverseCDF p = Throw invalid_probability.
Proof.
  intros H. unfold normalInverseCDF.
  destruct (Rle_dec p 0) as [_|H0]; [reflexivity|].
  destruct (Rge_dec p 1) as [_|H1]; [reflexivity | lra].
Qed.

(** The quantile with its sign and its accuracy. *)
Lemma normalInverseCDF_value (p : R) :
  0 < p < 1 ->
  exists z : R,
    normalInverseCDF p = Return z /\
    (p <= 0.5 -> z <= 0) /\ (0.5 <= p -> 0 <= z) /\
    Rabs (normalCDF z - p) <= 1e-4.
Proof.
  intros Hp.
  destruct (Rle_dec p 0.08) as [Hlt|Hlt].
  { destruct (lower_tail_accuracy p ltac:(lra)) as [Hs Hacc].
    pose proof (bsm_tail_poly_pos _ Hs) as Hpos.
    exists (- bsm_tail_poly (ln (- ln p))). split; [apply inverse_lower_tail; lra|].
    split; [intros; lra|]. split; [intros; lra|].
    rewrite normalCDF_neg by assumption. exact Hacc. }
  destruct (Rlt_dec p 0.5) as [Hlc|Hlc].
  { pose proof (bsm_quantile_pos (0.5 - p) ltac:(lra)) as Hpos.
    exists (- bsm_quantile (0.5 - p)). split.
    - rewrite inverse_central by lra.
      replace (p - 0.5) with (- (0.5 - p)) by ring. now rewrite bsm_central_opp.
    - split; [intros; lra|]. split; [intros; lra|].
      rewrite normalCDF_neg by assumption.
      pose proof (lower_central_accuracy (0.5 - p) ltac:(lra)) as Hacc.
      replace (0.5 - (0.5 - p)) with p in Hacc by ring. exact Hacc. }
  destruct (Req_dec p 0.5) as [Hmid|Hmid].
  { exists 0. split.
    - rewrite inverse_central by lra. rewrite Hmid.
      replace (0.5 - 0.5) with 0 by ring. unfold bsm_central. cbv zeta.
      f_equal. unfold Rdiv. ring.
    - split; [intros; lra|]. split; [intros; lra|].
      rewrite normalCDF_at_0, Hmid. apply Rabs_le. lra. }
  destruct (Rlt_dec p 0.92) as [Huc|Huc].
  { pose proof (bsm_quantile_pos (p - 0.5) ltac:(lra)) as Hpos.
    exists (bsm_quantile (p - 0.5)). split.
    - rewrite inverse_central by lra. reflexivity.
    - split; [intros; lra|]. split; [intros; lra|].
      rewrite normalCDF_pos by assumption.
      pose proof (lower_central_accuracy (p - 0.5) ltac:(lra)) as Hacc.
      apply Rabs_le. unfold Rabs in Hacc.
      destruct (Rcase_abs (cdf_neg (bsm_quantile (p - 0.5)) - (0.5 - (p - 0.5)))); lra. }
  destruct (lower_tail_accuracy (1 - p) ltac:(lra)) as [Hs Hacc].
  pose proof (bsm_tail_poly_pos _ Hs) as Hpos.
  exists (bsm_tail_poly (ln (- ln (1 - p)))). split; [apply inverse_upper_tail; lra|].
  split; [intros; lra|]. split; [intros; lra|].
  rewrite normalCDF_pos by assumption.
  apply Rabs_le. unfold Rabs in Hacc.
  destruct (Rcase_abs (cdf_neg (bsm_tail_poly (ln (- ln (1 - p)))) - (1 - p))); lra.
Qed.

(** Each page is its call of [normalInverseCDF] followed by arithmetic. *)
Lemma NormalPage_bind (settings : Settings.InvestmentSettings) (years : R)
    (tp tr : option R) :
  NormalPage.DistributionPage settings years tp tr =
  let stats := NormalApprox.calculateInvestmentDistribution (params settings years tr) in
  let* zScore := normalInverseCDF (1 - currentProbabilityThreshold settings tp / 100) in
  let assets := Rmax 0 (NormalApprox.mean stats + zScore * NormalApprox.stdDev stats) in
  Return (mkWorst assets (assets - investmentAmount settings tr)).
Proof. reflexivity. Qed.

Lemma LognormalPage_bind (settings : Settings.InvestmentSettings) (years : R)
    (tp tr : option R) :
  LognormalPage.DistributionPage settings years tp tr =
  let stats := Lognormal.calculateInvestmentDistribution (params settings years tr) in
  let* zScore := normalInverseCDF (1 - currentProbabilityThreshold settings tp / 100) in
  let assets := exp (Lognormal.logMean stats + zScore * Lognormal.logStdDev stats) in
  Return (mkWorst assets (assets - investmentAmount settings tr)).
Proof. reflexivity. Qed.

Lemma NormalFigures_bind (settings : Settings.InvestmentSettings) (years : R)
    (tp tr : option R) :
  NormalFigures.figures settings years tp tr =
  let stats := NormalApprox.calculateInvestmentDistribution (params settings years tr) in
  let amount := investmentAmount settings tr in
  let* worst := NormalPage.DistributionPage settings years tp tr in
  Return {| lowerBound := Rmax 0 (NormalApprox.mean stats - 1.96 * NormalApprox.stdDev stats);
            upperBound := NormalApprox.mean stats + 1.96 * NormalApprox.stdDev stats;
            profit := NormalApprox.mean stats - amount;
            worstCase := worst;
            nonInvestmentAssets := Settings.totalAssets settings - amount;
            totalAssetsWorstCase :=
              worstCaseAssets worst + (Settings.totalAssets settings - amount);
            totalAssetsChange :=
              worstCaseAssets worst + (Settings.totalAssets settings - amount)
              - Settings.totalAssets settings |}.
Proof. reflexivity. Qed.

Lemma LognormalFigures_bind (settings : Settings.InvestmentSettings) (years : R)
    (tp tr : option R) :
  LognormalFigures.figures settings years tp tr =
  let stats := Lognormal.calculateInvestmentDistribution (params settings years tr) in
  let amount := investmentAmount settings tr in
  let* worst := LognormalPage.DistributionPage settings years tp tr in
  Return {| lowerBound := exp (Lognormal.logMean stats - 1.96 * Lognormal.logStdDev stats);
            upperBound := exp (Lognormal.logMean stats + 1.96 * Lognormal.logStdDev stats);
            profit := Lognormal.mean stats - amount;
            worstCase := worst;
            nonInvestmentAssets := Settings.totalAssets settings - amount;
            totalAssetsWorstCase :=
              worstCaseAssets worst + (Settings.totalAssets settings - amount);
            totalAssetsChange :=
              worstCaseAssets worst + (Settings.totalAssets settings - amount)
              - Settings.totalAssets settings |}.
Proof. reflexivity. Qed.

(** X15: when a distribution page throws.  A page (either revision: its
    worst case and with it all its figures) throws the invalid-probability
    error whenever the probability threshold in force, the slider value or
    else the saved setting, is [<= 0] or [>= 100], and it returns for every
    threshold from [1e-9] to [100 - 1e-9], hence on the whole slider range
    [0.1 .. 99.9].  (For a threshold within rounding of [0] or [100] the
    argument [1 - t / 100] is rounded in double arithmetic, to [1] for
    [t = 1e-15]; nothing is stated there.) *)
Theorem pages_throw_or_return (settings : Settings.InvestmentSettings) (years : R)
    (tempProbabilityThreshold tempInvestmentRatio : option R) :
  let t := currentProbabilityThreshold settings tempProbabilityThreshold in
  (t <= 0 \/ 100 <= t ->
   NormalPage.DistributionPage settings years tempProbabilityThreshold
     tempInvestmentRatio = Throw invalid_probability /\
   LognormalPage.DistributionPage settings years tempProbabilityThreshold
     tempInvestmentRatio = Throw invalid_probability /\
   NormalFigures.figures settings years tempProbabilityThreshold
     tempInvestmentRatio = Throw invalid_probability /\
   LognormalFigures.figures settings years tempProbabilityThreshold
     tempInvestmentRatio = Throw invalid_probability) /\
  (1e-9 <= t <= 100 - 1e-9 ->
   (exists w : WorstCaseOutcome,
      NormalPage.DistributionPage settings years tempProbabilityThreshold
        tempInvestmentRatio = Return w) /\
   (exists w : WorstCaseOutcome,
      LognormalPage.DistributionPage settings years tempProbabilityThreshold
        tempInvestmentRatio = Return w) /\
   (exists f : PageFigures,
      NormalFigures.figures settings years tempProbabilityThreshold
        tempInvestmentRatio = Return f) /\
   (exists f : PageFigures,
      LognormalFigures.figures settings years tempProbabilityThreshold
        tempInvestmentRatio = Return f)).
Proof.
  intros t. split.
  - intros Ht.
    assert (E : normalInverseCDF (1 - t / 100) = Throw invalid_probability).
    { apply normalInverseCDF_outside. lra. }
    rewrite NormalFigures_bind, LognormalFigures_bind.
    rewrite NormalPage_bind, LognormalPage_bind. cbv zeta. fold t. rewrite E.
    repeat split.
  - intros Ht.
    destruct (normalInverseCDF_value (1 - t / 100) ltac:(lra)) as (z & E & _).
    rewrite NormalFigures_bind, LognormalFigures_bind.
    rewrite NormalPage_bind, LognormalPage_bind. cbv zeta. fold t. rewrite E.
    repeat split; eexists; reflexivity.
Qed.

(** X16: what the figures of a page that returns always satisfy, for a
    threshold from [1e-9] to [100 - 1e-9] and a non-negative duration.  In
    both revisions (the normal one for an expected return of at least
    -100%, so that the power has a non-negative base) the
    worst-case assets and the lower end of the 95% interval are not
    negative, the worst-case loss is never more than the invested amount,
    the change of the assets as a whole equals the worst-case loss, the
    assets as a whole never fall below the part that is not invested, and
    that part is not negative when the investment ratio in force is at most
    100 and the assets are not negative.  In the lognormal revision, which
    takes the logarithm of the invested amount, this is stated for a
    positive amount, and for a non-negative risk the 95% interval contains
    the median [exp logMean]. *)
Theorem figures_bounds (settings : Settings.InvestmentSettings) (years : R)
    (tempProbabilityThreshold tempInvestmentRatio : option R) :
  1e-9 <= currentProbabilityThreshold settings tempProbabilityThreshold
       <= 100 - 1e-9 ->
  0 <= years ->
  let amount := investmentAmount settings tempInvestmentRatio in
  let common (f : PageFigures) :=
    0 <= worstCaseAssets (worstCase f) /\ 0 <= lowerBound f /\
    - amount <= worstCaseLoss (worstCase f) /\
    totalAssetsChange f = worstCaseLoss (worstCase f) /\
    nonInvestmentAssets f <= totalAssetsWorstCase f /\
    (0 <= Settings.totalAssets settings ->
     currentInvestmentRatio settings tempInvestmentRatio <= 100 ->
     0 <= nonInvestmentAssets f) in
  (-100 <= Settings.expectedReturn settings ->
   exists f : PageFigures,
     NormalFigures.figures settings years tempProbabilityThreshold
       tempInvestmentRatio = Return f /\
     NormalPage.DistributionPage settings years tempProbabilityThreshold
       tempInvestmentRatio = Return (worstCase f) /\
     common f) /\
  (0 < amount ->
   exists f : PageFigures,
     LognormalFigures.figures settings years tempProbabilityThreshold
       tempInvestmentRatio = Return f /\
     LognormalPage.DistributionPage settings years tempProbabilityThreshold
       tempInvestmentRatio = Return (worstCase f) /\
     (0 <= Settings.risk settings ->
      lowerBound f
      <= exp (Lognormal.logMean
                (Lognormal.calculateInvestmentDistribution
                   (params settings years tempInvestmentRatio)))
      <= upperBound f) /\
     common f).
Proof.
  intros Ht _ amount common.
  destruct (normalInverseCDF_value
              (1 - currentProbabilityThreshold settings tempProbabilityThreshold / 100)
              ltac:(lra)) as (z & E & _).
  assert (Hnon : 0 <= Settings.totalAssets settings ->
                 currentInvestmentRatio settings tempInvestmentRatio <= 100 ->
                 0 <= Settings.totalAssets settings - amount).
  { intros H0 H100. unfold amount, investmentAmount.
    set (T := Settings.totalAssets settings) in *.
    set (r := currentInvestmentRatio settings tempInvestmentRatio) in *.
    assert (T * r <= T * 100) by (apply Rmult_le_compat_l; lra). lra. }
  split.
  - intros _.
    rewrite NormalFigures_bind, NormalPage_bind. cbv zeta. rewrite E.
    cbn [bind]. eexists. split; [reflexivity|]. split; [reflexivity|].
    unfold common. cbn [worstCase lowerBound worstCaseAssets worstCaseLoss
                        totalAssetsChange nonInvestmentAssets totalAssetsWorstCase].
    fold amount.
    set (w := Rmax 0 _). assert (Hw : 0 <= w) by apply Rmax_l.
    split; [exact Hw|]. split; [apply Rmax_l|].
    split; [lra|]. split; [ring|]. split; [lra | exact Hnon].
  - intros HA.
    rewrite LognormalFigures_bind, LognormalPage_bind. cbv zeta. rewrite E.
    cbn [bind]. eexists. split; [reflexivity|]. split; [reflexivity|].
    unfold common. cbn [worstCase lowerBound upperBound worstCaseAssets worstCaseLoss
                        totalAssetsChange nonInvestmentAssets totalAssetsWorstCase].
    fold amount.
    set (st := Lognormal.calculateInvestmentDistribution _).
    set (w := exp (Lognormal.logMean st + z * Lognormal.logStdDev st)).
    assert (Hw : 0 < w) by apply exp_pos.
    split.
    + intros Hr.
      assert (Hs : 0 <= Lognormal.logStdDev st).
      { unfold st, Lognormal.calculateInvestmentDistribution. simpl.
        apply Rmult_le_pos; [unfold Rdiv; lra | apply sqrt_pos]. }
      split; apply exp_le; lra.
    + split; [lra|]. split; [left; apply exp_pos|].
      split; [lra|]. split; [ring|]. split; [lra | exact Hnon].
Qed.

Lemma figures_bounds_witness :
  exists f : PageFigures,
    LognormalFigures.figures Settings.defaultSettings 10 None None = Return f /\
    LognormalPage.DistributionPage Settings.defaultSettings 10 None None
      = Return (worstCase f) /\
    (0 <= Settings.risk Settings.defaultSettings ->
     lowerBound f
     <= exp (Lognormal.logMean
               (Lognormal.calculateInvestmentDistribution
                  (params Settings.defaultSettings 10 None)))
     <= upperBound f) /\
    0 <= worstCaseAssets (worstCase f) /\ 0 <= lowerBound f /\
    - investmentAmount Settings.defaultSettings None <= worstCaseLoss (worstCase f) /\
    totalAssetsChange f = worstCaseLoss (worstCase f) /\
    nonInvestmentAssets f <= totalAssetsWorstCase f /\
    (0 <= Settings.totalAssets Settings.defaultSettings ->
     currentInvestmentRatio Settings.defaultSettings None <= 100 ->
     0 <= nonInvestmentAssets f).
Proof.
  refine (proj2 (figures_bounds Settings.defaultSettings 10 None None _ _) _);
    cbv [currentProbabilityThreshold investmentAmount currentInvestmentRatio nullish
         Settings.probabilityThreshold Settings.totalAssets Settings.investmentRatio
         Settings.defaultSettings]; lra.
Defined.

Lemma normal_statistics_pos (settings : Settings.InvestmentSettings) (years : R)
    (tr : option R) :
  0 < investmentAmount settings tr -> -100 < Settings.expectedReturn settings ->
  0 <= Settings.risk settings ->
  let stats := NormalApprox.calculateInvestmentDistribution (params settings years tr) in
  0 < NormalApprox.mean stats /\ 0 <= NormalApprox.stdDev stats /\
  (0 < Settings.risk settings -> 0 < years -> 0 < NormalApprox.stdDev stats).
Proof.
  intros HA Her Hr. cbv zeta.
  unfold NormalApprox.calculateInvestmentDistribution, params. simpl.
  set (A := investmentAmount settings tr) in *.
  pose proof (Math_pow_pos (1 + Settings.expectedReturn settings / 100) years
                ltac:(lra)) as Hpw.
  assert (Hm : 0 < A * NormalApprox.Math_pow (1 + Settings.expectedReturn settings / 100)
                         years) by now apply Rmult_lt_0_compat.
  pose proof (sqrt_pos years) as Hsq.
  split; [exact Hm|]. split.
  - apply Rmult_le_pos; [apply Rmult_le_pos; lra | assumption].
  - intros Hr0 Hy. apply Rmult_lt_0_compat; [apply Rmult_lt_0_compat; lra|].
    now apply sqrt_lt_R0.
Qed.

Lemma lognormal_logStdDev_pos (settings : Settings.InvestmentSettings) (years : R)
    (tr : option R) :
  0 <= Settings.risk settings ->
  let stats := Lognormal.calculateInvestmentDistribution (params settings years tr) in
  0 <= Lognormal.logStdDev stats /\
  (0 < Settings.risk settings -> 0 < years -> 0 < Lognormal.logStdDev stats).
Proof.
  intros Hr. cbv zeta. unfold Lognormal.calculateInvestmentDistribution, params. simpl.
  pose proof (sqrt_pos years) as Hsq. split.
  - apply Rmult_le_pos; [lra | assumption].
  - intros Hr0 Hy. apply Rmult_lt_0_compat; [lra | now apply sqrt_lt_R0].
Qed.





(** X19: the pages are proportional in the assets.  Multiplying
    [totalAssets] by [c > 0] (with a positive invested amount) multiplies
    the worst-case assets and the worst-case loss of both pages by [c], and
    a page that throws keeps throwing. *)
Theorem pages_scale (settings : Settings.InvestmentSettings) (years c : R)
    (tempProbabilityThreshold tempInvestmentRatio : option R) :
  0 < c -> 0 < investmentAmount settings tempInvestmentRatio ->
  let scaled :=
    Settings.mkSettings (c * Settings.totalAssets settings)
      (Settings.investmentRatio settings) (Settings.probabilityThreshold settings)
      (Settings.expectedReturn settings) (Settings.risk settings) in
  let scale (w : WorstCaseOutcome) :=
    Return (mkWorst (c * worstCaseAssets w) (c * worstCaseLoss w)) in
  LognormalPage.DistributionPage scaled years tempProbabilityThreshold
    tempInvestmentRatio
  = bind (LognormalPage.DistributionPage settings years tempProbabilityThreshold
            tempInvestmentRatio) scale /\
  NormalPage.DistributionPage scaled years tempProbabilityThreshold
    tempInvestmentRatio
  = bind (NormalPage.DistributionPage settings years tempProbabilityThreshold
            tempInvestmentRatio) scale.
Proof.
  intros Hc HA scaled scale.
  assert (EA : investmentAmount scaled tempInvestmentRatio
               = c * investmentAmount settings tempInvestmentRatio).
  { unfold investmentAmount, currentInvestmentRatio, scaled. simpl.
    unfold Rdiv. ring. }
  assert (Et : currentProbabilityThreshold scaled tempProbabilityThreshold
               = currentProbabilityThreshold settings tempProbabilityThreshold)
    by reflexivity.
  rewrite !LognormalPage_bind, !NormalPage_bind. cbv zeta. rewrite Et.
  destruct (normalInverseCDF
              (1 - currentProbabilityThreshold settings tempProbabilityThreshold / 100))
    as [z|e]; [|split; reflexivity].
  cbn [bind]. unfold scale. cbn [worstCaseAssets worstCaseLoss].
  rewrite EA.
  split.
  - assert (Ew : exp (Lognormal.logMean
                        (Lognormal.calculateInvestmentDistribution
                           (params scaled years tempInvestmentRatio))
                      + z * Lognormal.logStdDev
                              (Lognormal.calculateInvestmentDistribution
                                 (params scaled years tempInvestmentRatio)))
                 = c * exp (Lognormal.logMean
                              (Lognormal.calculateInvestmentDistribution
                                 (params settings years tempInvestmentRatio))
                            + z * Lognormal.logStdDev
                                    (Lognormal.calculateInvestmentDistribution
                                       (params settings years tempInvestmentRatio)))).
    { unfold Lognormal.calculateInvestmentDistribution, params.
      cbn [Lognormal.logMean Lognormal.logStdDev initialAssets expectedReturn risk
           NormalDistribution.years].
      rewrite EA. rewrite ln_mult by assumption.
      rewrite <- (exp_ln c) at 2 by assumption. rewrite <- exp_plus. f_equal.
      unfold scaled. cbn [Settings.expectedReturn Settings.risk]. ring. }
    rewrite Ew. f_equal. f_equal. ring.
  - assert (Em : NormalApprox.mean
                   (NormalApprox.calculateInvestmentDistribution
                      (params scaled years tempInvestmentRatio))
                 = c * NormalApprox.mean
                         (NormalApprox.calculateInvestmentDistribution
                            (params settings years tempInvestmentRatio))).
    { unfold NormalApprox.calculateInvestmentDistribution, params.
      cbn [NormalApprox.mean initialAssets expectedReturn risk
           NormalDistribution.years].
      rewrite EA. unfold scaled. cbn [Settings.expectedReturn]. ring. }
    assert (Es : NormalApprox.stdDev
                   (NormalApprox.calculateInvestmentDistribution
                      (params scaled years tempInvestmentRatio))
                 = c * NormalApprox.stdDev
                         (NormalApprox.calculateInvestmentDistribution
                            (params settings years tempInvestmentRatio))).
    { unfold NormalApprox.calculateInvestmentDistribution, params.
      cbn [NormalApprox.stdDev initialAssets expectedReturn risk
           NormalDistribution.years].
      rewrite EA. unfold scaled. cbn [Settings.expectedReturn Settings.risk]. ring. }
    rewrite Em, Es.
    set (m := NormalApprox.mean _). set (sd := NormalApprox.stdDev _).
    assert (Ew : Rmax 0 (c * m + z * (c * sd)) = c * Rmax 0 (m + z * sd)).
    { rewrite <- RmaxRmult by lra. f_equal; ring. }
    rewrite Ew. f_equal. f_equal. ring.
Qed.

Lemma pages_scale_witness :
  NormalPage.DistributionPage (Settings.mkSettings (2 * 10000000) 50 98 8 15) 10 None None
  = bind (NormalPage.DistributionPage Settings.defaultSettings 10 None None)
      (fun w => Return (mkWorst (2 * worstCaseAssets w) (2 * worstCaseLoss w))).
Proof.
  refine (proj2 (pages_scale Settings.defaultSettings 10 2 None None _ _));
    cbv [investmentAmount currentInvestmentRatio nullish Settings.totalAssets
         Settings.investmentRatio Settings.defaultSettings]; lra.
Defined.

(** The z-score of the lower 2.5%, by the tail branch. *)
Lemma zScore_97_5 :
  exists z : R,
    normalInverseCDF (1 - 97.5 / 100) = Return z /\ -1.96 <= z <= -1.9599.
Proof.
  replace (1 - 97.5 / 100) with 0.025 by lra.
  exists (- bsm_tail_poly (ln (- ln 0.025))).
  split; [apply inverse_lower_tail; lra|].
  assert (Hlo : ln 0.025 <= -3.68885).
  { apply ln_upper; [lra|].
    replace (-3.68885) with (IZR (-368885) / IZR 100000) by lra.
    replace 0.025 with (IZR 25 / IZR 1000) by lra.
    apply exp_Q_lower with (prec := 64%Z) (K := 30%nat);
      try reflexivity; vm_compute; discriminate. }
  assert (Hhi : -3.68891 <= ln 0.025).
  { apply ln_lower; [lra|].
    replace (-3.68891) with (IZR (-368891) / IZR 100000) by lra.
    replace 0.025 with (IZR 25 / IZR 1000) by lra.
    apply exp_Q_upper with (prec := 64%Z) (K := 30%nat);
      try reflexivity; vm_compute; discriminate. }
  assert (Hs : 1.30531 <= ln (- ln 0.025) <= 1.30534).
  { split.
    - apply ln_lower; [lra|]. apply Rle_trans with 3.68885; [|lra].
      replace 1.30531 with (IZR 130531 / IZR 100000) by lra.
      replace 3.68885 with (IZR 368885 / IZR 100000) by lra.
      apply exp_Q_upper with (prec := 64%Z) (K := 30%nat);
        try reflexivity; vm_compute; discriminate.
    - apply ln_upper; [lra|]. apply Rle_trans with 3.68891; [lra|].
      replace 1.30534 with (IZR 130534 / IZR 100000) by lra.
      replace 3.68891 with (IZR 368891 / IZR 100000) by lra.
      apply exp_Q_lower with (prec := 64%Z) (K := 30%nat);
        try reflexivity; vm_compute; discriminate. }
  pose proof (bsm_tail_poly_increasing 1.30531 (ln (- ln 0.025)) ltac:(lra) ltac:(lra))
    as H1.
  pose proof (bsm_tail_poly_increasing (ln (- ln 0.025)) 1.30534 ltac:(lra) ltac:(lra))
    as H2.
  assert (B1 : 1.9599 <= bsm_tail_poly 1.30531).
  { unfold bsm_tail_poly, bsm_c0, bsm_c1, bsm_c2, bsm_c3, bsm_c4, bsm_c5, bsm_c6,
      bsm_c7, bsm_c8. lra. }
  assert (B2 : bsm_tail_poly 1.30534 <= 1.96).
  { unfold bsm_tail_poly, bsm_c0, bsm_c1, bsm_c2, bsm_c3, bsm_c4, bsm_c5, bsm_c6,
      bsm_c7, bsm_c8. lra. }
  lra.
Qed.

(** X20: the worst case at a threshold of 97.5% agrees with the lower end
    of the displayed 95% interval, which the pages compute with the
    constant [1.96] instead of [normalInverseCDF]: for a non-negative risk
    the worst-case assets are at least [lowerBound] and exceed it by at
    most the factor [exp (1e-4 * logStdDev)] in the lognormal revision,
    and, for a positive invested amount and an expected return above
    -100%, by at most [1e-4 * stdDev] in the normal one. *)
Theorem worst_case_at_97_5 (settings : Settings.InvestmentSettings) (years : R)
    (tempProbabilityThreshold tempInvestmentRatio : option R) :
  currentProbabilityThreshold settings tempProbabilityThreshold = 97.5 ->
  0 <= Settings.risk settings ->
  (exists f : PageFigures,
     LognormalFigures.figures settings years tempProbabilityThreshold
       tempInvestmentRatio = Return f /\
     lowerBound f <= worstCaseAssets (worstCase f)
     <= lowerBound f
        * exp (1e-4 * Lognormal.logStdDev
                        (Lognormal.calculateInvestmentDistribution
                           (params settings years tempInvestmentRatio)))) /\
  (0 < investmentAmount settings tempInvestmentRatio ->
   -100 < Settings.expectedReturn settings ->
   exists f : PageFigures,
     NormalFigures.figures settings years tempProbabilityThreshold
       tempInvestmentRatio = Return f /\
     lowerBound f <= worstCaseAssets (worstCase f)
     <= lowerBound f
        + 1e-4 * NormalApprox.stdDev
                   (NormalApprox.calculateInvestmentDistribution
                      (params settings years tempInvestmentRatio))).
Proof.
  intros Et Hr. destruct zScore_97_5 as (z & E & Hz).
  split.
  - rewrite LognormalFigures_bind, LognormalPage_bind. cbv zeta. rewrite Et, E.
    cbn [bind]. eexists. split; [reflexivity|].
    cbn [lowerBound worstCase worstCaseAssets].
    destruct (lognormal_logStdDev_pos settings years tempInvestmentRatio Hr) as [Hs _].
    cbv zeta in Hs.
    set (st := Lognormal.calculateInvestmentDistribution _) in *.
    rewrite <- exp_plus. split; apply exp_le; nra.
  - intros HA Her.
    rewrite NormalFigures_bind, NormalPage_bind. cbv zeta. rewrite Et, E.
    cbn [bind]. eexists. split; [reflexivity|].
    cbn [lowerBound worstCase worstCaseAssets].
    destruct (normal_statistics_pos settings years tempInvestmentRatio HA Her Hr)
      as (_ & Hs & _).
    cbv zeta in Hs.
    set (st := NormalApprox.calculateInvestmentDistribution _) in *.
    set (m := NormalApprox.mean st). set (sd := NormalApprox.stdDev st) in *.
    assert (H1 : m - 1.96 * sd <= m + z * sd) by nra.
    assert (H2 : m + z * sd <= m - 1.96 * sd + 1e-4 * sd) by nra.
    unfold Rmax.
    destruct (Rle_dec 0 (m - 1.96 * sd)); destruct (Rle_dec 0 (m + z * sd)); nra.
Qed.

Lemma worst_case_at_97_5_witness :
  exists f : PageFigures,
    LognormalFigures.figures Settings.defaultSettings 10 (Some 97.5) None = Return f /\
    lowerBound f <= worstCaseAssets (worstCase f)
    <= lowerBound f
       * exp (1e-4 * Lognormal.logStdDev
                       (Lognormal.calculateInvestmentDistribution
                          (params Settings.defaultSettings 10 None))).
Proof.
  refine (proj1 (worst_case_at_97_5 Settings.defaultSettings 10 (Some 97.5) None _ _)).
  - reflexivity.
  - simpl. lra.
Defined.

End PageResults.

(** ** The settings: validation, URL restoring and what can be saved *)

Section SavedSettings.
Import Settings SettingsPage.

Lemma handleSubmit_valid (s : InvestmentSettings) :
  valid s -> handleSubmit s = UpdateSettings s.
Proof.
  intros (H1 & H2 & H3 & H4). unfold handleSubmit.
  destruct (Rle_dec (totalAssets s) 0); [lra|].
  destruct (Rlt_dec (investmentRatio s) 0); [lra|].
  destruct (Rgt_dec (investmentRatio s) 100); [lra|].
  destruct (Rlt_dec (probabilityThreshold s) 0); [lra|].
  destruct (Rgt_dec (probabilityThreshold s) 100); [lra|].
  destruct (Rlt_dec (risk s) 0); [lra | reflexivity].
Qed.

Lemma handleSubmit_update (s f : InvestmentSettings) :
  handleSubmit s = UpdateSettings f -> f = s /\ valid s.
Proof.
  unfold handleSubmit, valid.
  destruct (Rle_dec (totalAssets s) 0); [discriminate|].
  destruct (Rlt_dec (investmentRatio s) 0); [discriminate|].
  destruct (Rgt_dec (investmentRatio s) 100); [discriminate|].
  destruct (Rlt_dec (probabilityThreshold s) 0); [discriminate|].
  destruct (Rgt_dec (probabilityThreshold s) 100); [discriminate|].
  destruct (Rlt_dec (risk s) 0); [discriminate|].
  intros H. injection H as <-. repeat split; lra.
Qed.

Lemma applyAssetClass_valid (s : InvestmentSettings) (c : AssetClass) :
  In c assetClasses -> valid s -> valid (handleApplyAssetClass s c).
Proof.
  intros Hc (H1 & H2 & H3 & H4). unfold valid, handleApplyAssetClass. simpl.
  repeat split; try lra.
  unfold assetClasses in Hc. simpl in Hc.
  repeat (destruct Hc as [<-|Hc]; [simpl; lra|]). contradiction.
Qed.

(** X21: the settings form saves exactly the valid forms.  [handleSubmit]
    reaches [updateSettings], with the form data unchanged, if and only if
    the total assets are positive, the investment ratio and the probability
    threshold lie in [[0, 100]] and the risk is not negative; otherwise it
    ends in a toast.  Applying one of the built-in asset classes to a valid
    form leaves it valid, so it can be saved as it is. *)
Theorem handleSubmit_saves_iff_valid (formData : InvestmentSettings) :
  (handleSubmit formData = UpdateSettings formData <-> valid formData) /\
  (forall saved : InvestmentSettings,
     handleSubmit formData = UpdateSettings saved -> saved = formData /\ valid formData) /\
  (forall assetClass : AssetClass,
     In assetClass assetClasses -> valid formData ->
     handleSubmit (handleApplyAssetClass formData assetClass)
     = UpdateSettings (handleApplyAssetClass formData assetClass)).
Proof.
  split; [split|split].
  - intros H. now apply handleSubmit_update in H.
  - apply handleSubmit_valid.
  - apply handleSubmit_update.
  - intros c Hc Hv. apply handleSubmit_valid. now apply applyAssetClass_valid.
Qed.

Lemma restore_field_cases (accept : R -> bool) (param : option parsed) (prev : R) :
  restore_field accept param prev = prev \/
  exists v : R, param = Some (Num v) /\ accept v = true /\
                restore_field accept param prev = v.
Proof.
  destruct param as [[|v]|]; simpl; try (now left).
  destruct (accept v) eqn:E; [right; now exists v | now left].
Qed.

Lemma restore_field_idem (accept : R -> bool) (param : option parsed) (prev : R) :
  restore_field accept param (restore_field accept param prev)
  = restore_field accept param prev.
Proof.
  destruct param as [[|v]|]; simpl; try reflexivity.
  destruct (accept v); reflexivity.
Qed.

Lemma gt0_true (v : R) : gt0 v = true <-> v > 0.
Proof. unfold gt0. destruct (Rgt_dec v 0); split; intros; try lra; congruence. Qed.

Lemma ge0_true (v : R) : ge0 v = true <-> v >= 0.
Proof. unfold ge0. destruct (Rge_dec v 0); split; intros; try lra; congruence. Qed.

Lemma le100_true (v : R) : le100 v = true <-> v <= 100.
Proof. unfold le100. destruct (Rle_dec v 100); split; intros; try lra; congruence. Qed.

Lemma percent_true (v : R) : andb (ge0 v) (le100 v) = true <-> 0 <= v <= 100.
Proof.
  rewrite Bool.andb_true_iff, ge0_true, le100_true. split; intros; lra.
Qed.

Lemma restoreFromUrl_valid (prev : InvestmentSettings) (url : UrlParams) :
  valid prev -> valid (restoreFromUrl prev url).
Proof.
  intros (H1 & H2 & H3 & H4). unfold valid, restoreFromUrl. simpl.
  split; [|split; [|split]].
  - destruct (restore_field_cases gt0 (url_totalAssets url) (totalAssets prev))
      as [->|(v & _ & Hv & ->)]; [lra | now apply gt0_true].
  - destruct (restore_field_cases (fun v => andb (ge0 v) (le100 v))
                (url_investmentRatio url) (investmentRatio prev))
      as [->|(v & _ & Hv & ->)]; [lra | now apply percent_true].
  - destruct (restore_field_cases (fun v => andb (ge0 v) (le100 v))
                (url_probabilityThreshold url) (probabilityThreshold prev))
      as [->|(v & _ & Hv & ->)]; [lra | now apply percent_true].
  - destruct (restore_field_cases ge0 (url_risk url) (risk prev))
      as [->|(v & _ & Hv & ->)]; [lra | now apply ge0_true].
Qed.

(** X22: restoring the settings from the query string.  Valid settings
    stay valid whatever the query string holds; restoring twice from the
    same query string is the same as restoring once; a query string with no
    parameter, or with parameters that all parse to [NaN], changes nothing;
    and five parameters that parse to the fields of valid settings restore
    exactly those settings from any previous state. *)
Theorem restoreFromUrl_properties (prev : InvestmentSettings) (url : UrlParams) :
  (valid prev -> valid (restoreFromUrl prev url)) /\
  restoreFromUrl (restoreFromUrl prev url) url = restoreFromUrl prev url /\
  restoreFromUrl prev (mkUrl None None None None None) = prev /\
  restoreFromUrl prev (mkUrl (Some NaN) (Some NaN) (Some NaN) (Some NaN) (Some NaN))
  = prev /\
  (forall s : InvestmentSettings,
     valid s ->
     restoreFromUrl prev
       (mkUrl (Some (Num (totalAssets s))) (Some (Num (investmentRatio s)))
          (Some (Num (probabilityThreshold s))) (Some (Num (expectedReturn s)))
          (Some (Num (risk s))))
     = s).
Proof.
  split; [apply restoreFromUrl_valid|].
  split; [|split; [|split]].
  - unfold restoreFromUrl. simpl. now rewrite !restore_field_idem.
  - now destruct prev.
  - now destruct prev.
  - intros s (H1 & H2 & H3 & H4). destruct s as [ta ir pt er rk]. simpl in *.
    unfold restoreFromUrl, restore_field. simpl.
    rewrite (proj2 (gt0_true ta)) by lra.
    rewrite (proj2 (percent_true ir)) by lra.
    rewrite (proj2 (percent_true pt)) by lra.
    rewrite (proj2 (ge0_true rk)) by lra.
    reflexivity.
Qed.

Lemma handle_valid (settings : InvestmentSettings) (e : event) :
  valid settings -> valid (handle settings e).
Proof.
  intros Hv. destruct e as [formData| |url]; simpl.
  - destruct (handleSubmit formData) eqn:E; try assumption.
    apply handleSubmit_update in E as [-> H]. exact H.
  - unfold valid, defaultSettings. simpl. lra.
  - now apply restoreFromUrl_valid.
Qed.

Lemma fold_handle_valid (events : list event) :
  forall settings : InvestmentSettings,
    valid settings -> valid (fold_left handle events settings).
Proof.
  induction events as [|e events IH]; intros settings Hv; simpl.
  - exact Hv.
  - apply IH. now apply handle_valid.
Qed.

(** X23: the saved settings are always valid.  From [defaultSettings],
    after any sequence of submitted forms, resets and URL changes, the
    settings of the provider pass the four checks of the form.  Without a
    slider override a distribution page then throws when the saved
    probability threshold is [0] or [100], both of which pass the checks,
    and returns when it lies between [1e-9] and [100 - 1e-9].  (A saved
    threshold within rounding of [0] or [100], such as [1e-15], passes the
    checks as well; nothing is stated about it.) *)
Theorem saved_settings_valid (events : list event) (years : R)
    (tempInvestmentRatio : option R) :
  let settings := run events in
  valid settings /\
  (probabilityThreshold settings = 0 \/ probabilityThreshold settings = 100 ->
   NormalPage.DistributionPage settings years None tempInvestmentRatio
   = Throw NormalDistribution.invalid_probability /\
   LognormalPage.DistributionPage settings years None tempInvestmentRatio
   = Throw NormalDistribution.invalid_probability) /\
  (1e-9 <= probabilityThreshold settings <= 100 - 1e-9 ->
   (exists w : WorstCaseOutcome,
      NormalPage.DistributionPage settings years None tempInvestmentRatio = Return w) /\
   (exists w : WorstCaseOutcome,
      LognormalPage.DistributionPage settings years None tempInvestmentRatio
      = Return w)).
Proof.
  intros settings.
  assert (Hv : valid settings).
  { unfold settings, run. apply fold_handle_valid.
    unfold valid, defaultSettings. simpl. lra. }
  split; [exact Hv|].
  rewrite NormalPage_bind, LognormalPage_bind. cbv zeta.
  unfold PageInputs.currentProbabilityThreshold. simpl nullish.
  set (t := probabilityThreshold settings) in *.
  split.
  - intros Ht.
    rewrite (normalInverseCDF_outside (1 - t / 100)) by (destruct Ht; lra).
    split; reflexivity.
  - intros Ht.
    destruct (normalInverseCDF_value (1 - t / 100) ltac:(lra)) as (z & E & _).
    rewrite E. split; eexists; reflexivity.
Qed.

End SavedSettings.
